(** * The book similarity engine (src/similarity.py)

    A shallow embedding of [BookSimilarityEngine]: the text preprocessor,
    the content and metadata scorers, and the two ranking entry points
    [find_similar_books] and [get_recommendations].

    Conventions.
    - A Python [str] is a [string]; each character is read as the Unicode
      code point of the same number (U+0000 .. U+00FF).
    - A book is a record of the keys the engine reads.  A key the engine
      reads with [dict.get] and a default is a field holding that default
      when the key is missing; [id], which is also read with [book["id"]],
      is an [option]: [None] is the missing key.
    - Numbers are kept behind the interface [Number], whose instance is
      binary64 floating point, what CPython computes; the laws of the
      arithmetic that the engine relies on are proved of it.
    - [TfidfVectorizer.fit_transform] followed by [cosine_similarity] is
      library code; the engine holds it as a field, [None] standing for the
      [ValueError] the vectorizer raises on an empty vocabulary. *)

From Stdlib Require Import ZArith QArith Qabs Qpower Floats Ascii String List Lia Lqa Sorted Permutation.
From stdpp Require Import gmap strings list sorting.

#[local] Set Warnings "-inexact-float".
#[local] Open Scope string_scope.
#[local] Open Scope list_scope.

(** ** Text *)

Module Text.

Definition code (c : ascii) : N := N_of_ascii c.

Definition between (lo hi : N) (c : ascii) : bool :=
  ((lo <=? code c) && (code c <=? hi))%N.

(** [\s] of a [str] pattern, which is also what [str.strip] removes. *)
Definition is_space (c : ascii) : bool :=
  between 9 13 c || between 28 32 c || (code c =? 133)%N || (code c =? 160)%N.

(** [\w] of a [str] pattern: alphanumeric characters and the underscore. *)
Definition is_word (c : ascii) : bool :=
  between 48 57 c || between 65 90 c || (code c =? 95)%N || between 97 122 c
  || (code c =? 170)%N || between 178 179 c || (code c =? 181)%N
  || between 185 186 c || between 188 190 c
  || between 192 214 c || between 216 246 c || between 248 255 c.

Definition is_letter (c : ascii) : bool :=
  between 65 90 c || between 97 122 c
  || (code c =? 170)%N || (code c =? 181)%N || (code c =? 186)%N
  || between 192 214 c || between 216 246 c || between 248 255 c.

Definition is_digit (c : ascii) : bool :=
  between 48 57 c || between 178 179 c || (code c =? 185)%N.

Definition lower_char (c : ascii) : ascii :=
  if between 65 90 c || (between 192 222 c && negb (code c =? 215)%N)
  then ascii_of_N (code c + 32) else c.

Fixpoint map_chars (f : ascii -> ascii) (s : string) : string :=
  match s with
  | EmptyString => EmptyString
  | String c s' => String (f c) (map_chars f s')
  end.

(** [str.lower] *)
Definition lower (s : string) : string := map_chars lower_char s.

(** [re.sub(r"[^\w\s]", " ", s)] *)
Definition sub_other (s : string) : string :=
  map_chars (fun c => if is_word c || is_space c then c else " "%char) s.

(** [re.sub(r"\s+", " ", s)]: [in_run] tells that the previous character
    was whitespace, whose run has already been replaced. *)
Fixpoint sub_spaces (in_run : bool) (s : string) : string :=
  match s with
  | EmptyString => EmptyString
  | String c s' =>
      if is_space c
      then if in_run then sub_spaces true s' else String " " (sub_spaces true s')
      else String c (sub_spaces false s')
  end.

Fixpoint lstrip (s : string) : string :=
  match s with
  | EmptyString => EmptyString
  | String c s' => if is_space c then lstrip s' else s
  end.

Definition is_empty (s : string) : bool :=
  match s with EmptyString => true | String _ _ => false end.

Fixpoint rstrip (s : string) : string :=
  match s with
  | EmptyString => EmptyString
  | String c s' =>
      let r := rstrip s' in
      if is_space c && is_empty r then EmptyString else String c r
  end.

(** [str.strip] *)
Definition strip (s : string) : string := rstrip (lstrip s).

(** [preprocess_text]; [None] is Python's [None]. *)
Definition preprocess_text (text : option string) : string :=
  match text with
  | None => ""
  | Some t =>
      if is_empty t then ""
      else strip (sub_spaces false (sub_other (lower t)))
  end.

(** The maximal runs of word characters of a string, in order. *)
Fixpoint tokens (s : string) : list string :=
  match s with
  | EmptyString => []
  | String c s' =>
      if is_word c then
        match s' with
        | EmptyString => [String c ""]
        | String c' _ =>
            if is_word c' then
              match tokens s' with
              | t :: ts => String c t :: ts
              | [] => [String c ""]
              end
            else String c "" :: tokens s'
        end
      else tokens s'
  end.

Definition starts_word (s : string) : bool :=
  match s with String c _ => is_word c | EmptyString => false end.

Fixpoint all_chars (p : ascii -> bool) (s : string) : bool :=
  match s with
  | EmptyString => true
  | String c s' => p c && all_chars p s'
  end.

(** The claimed reading of the replacement step: every character that is
    neither a letter, a digit nor whitespace becomes a space. *)
Definition sub_other_claimed (s : string) : string :=
  map_chars (fun c => if is_letter c || is_digit c || is_space c then c else " "%char) s.

End Text.

(** ** Numbers *)

(** The arithmetic the engine uses.  [of_int] is Python's conversion of an
    [int] operand in mixed arithmetic, [tenths k] the decimal literal
    [k/10] ([0.6] is [tenths 6]), [nlt] is [<] and [is_zero] the falsiness
    of a number. *)
Class Number (R : Type) := {
  of_int : Z -> R;
  tenths : Z -> R;
  nadd : R -> R -> R;
  nsub : R -> R -> R;
  nmul : R -> R -> R;
  ndiv : R -> R -> R;
  nabs : R -> R;
  nlt : R -> R -> bool;
  is_zero : R -> bool
}.

Declare Scope num_scope.
Delimit Scope num_scope with num.
Infix "+" := nadd : num_scope.
Infix "-" := nsub : num_scope.
Infix "*" := nmul : num_scope.
Infix "/" := ndiv : num_scope.

(** Equal as numbers: the same value, or two zeros (binary64 has [0.0] and
    [-0.0], which [==] does not tell apart). *)
Definition same_number {R : Type} `{Number R} (x y : R) : Prop :=
  x = y \/ (is_zero x = true /\ is_zero y = true).

(** The laws of the arithmetic that the proofs below rely on; binary64
    satisfies them. *)
Class NumberLaws (R : Type) `{Number R} : Prop := {
  nmul_comm : forall x y : R, (x * y)%num = (y * x)%num;
  nabs_sub_comm : forall x y : R, nabs (x - y)%num = nabs (y - x)%num;
  nlt_asym : forall x y : R, nlt x y = true -> nlt y x = false;
  nunit : forall x : R, same_number (of_int 0 + x / of_int 1)%num x
}.

(** Binary64: the nearest float of an integer, and the float operations.
    A quotient of two [int]s is read as the quotient of their floats, which
    is Python's true division as long as both are below [2^53]. *)
Definition float_of_Z (z : Z) : float :=
  SF2Prim (binary_normalize prec emax z 0 false).

#[export] Instance float_number : Number float := {
  of_int := float_of_Z;
  tenths k := PrimFloat.div (float_of_Z k) (float_of_Z 10);
  nadd := PrimFloat.add;
  nsub := PrimFloat.sub;
  nmul := PrimFloat.mul;
  ndiv := PrimFloat.div;
  nabs := PrimFloat.abs;
  nlt := PrimFloat.ltb;
  is_zero := PrimFloat.is_zero
}.

(** The place of a float that is not NaN in the order of [<]: its sign
    class, then exponent and mantissa. *)
Definition float_rank (x : spec_float) : Z * Z * Z :=
  match x with
  | S754_nan => (0, 0, 0)
  | S754_zero _ => (0, 0, 0)
  | S754_infinity s => (if s then -2 else 2, 0, 0)
  | S754_finite s m e => if s then (-1, - e, - Zpos m) else (1, e, Zpos m)
  end%Z.

Definition rank_lt (a b : Z * Z * Z) : Prop :=
  (a.1.1 < b.1.1
   \/ (a.1.1 = b.1.1
       /\ (a.1.2 < b.1.2 \/ (a.1.2 = b.1.2 /\ a.2 < b.2))))%Z.

(** ** Binary64 values and rounding *)

(** The floats are read through [Prim2SF] as the sign, mantissa and
    exponent that IEEE 754 gives them, and their operations through the
    specification [SpecFloat] of the operations, to which the axioms of
    the primitive floats tie them. *)
Section RoundingNotions.
#[local] Open Scope Q_scope.

(** [2^e], for any integer [e]. *)
Definition pow2 (e : Z) : Q := 2 ^ e.

(** The shift record [mrs] locates [y]: its mantissa is the integer part
    of [y], its round bit tells whether the fractional part reaches one
    half, and its sticky bit whether something is left beyond. *)
Definition located (y : Q) (mrs : shr_record) : Prop :=
  match shr_r mrs, shr_s mrs with
  | false, false => y == inject_Z (shr_m mrs)
  | false, true => inject_Z (shr_m mrs) < y /\ y < inject_Z (shr_m mrs) + (1#2)
  | true, false => y == inject_Z (shr_m mrs) + (1#2)
  | true, true => inject_Z (shr_m mrs) + (1#2) < y /\ y < inject_Z (shr_m mrs) + 1
  end.

(** [m1] is [y] rounded to the nearest integer, ties to even. *)
Definition rounds_to (m1 : Z) (y : Q) : Prop :=
  (inject_Z m1 - (1#2) <= y /\ y <= inject_Z m1 + (1#2))
  /\ (forall N : Z, y <= inject_Z N -> (m1 <= N)%Z)
  /\ (forall N : Z, inject_Z N <= y -> (N <= m1)%Z)
  /\ (y == inject_Z m1 + (1#2) \/ y == inject_Z m1 - (1#2) -> Z.even m1 = true).

(** The exponent of the grid on which [x] is rounded: that of the floats
    of the binade of [x]. *)
Definition grid_of (x : Q) (g : Z) : Prop :=
  (emin <= g)%Z
  /\ (forall k : Z, x < pow2 k -> (g <= SpecFloat.fexp prec emax k)%Z)
  /\ (forall k : Z, pow2 k <= x -> (SpecFloat.fexp prec emax (k + 1) <= g)%Z).

(** The float [r] holds the integer [m1] of the grid [g], with sign [s]. *)
Definition represents (s : bool) (r : spec_float) (m1 g : Z) : Prop :=
  match r with
  | S754_zero s' => s' = s /\ m1 = 0%Z
  | S754_finite s' m e =>
      s' = s /\ inject_Z (Zpos m) * pow2 e == inject_Z m1 * pow2 g
  | S754_infinity s' => s' = s /\ pow2 emax <= inject_Z m1 * pow2 g
  | S754_nan => False
  end.

(** The number that a float stands for; [0] for the floats that stand for
    none. *)
Definition val (x : spec_float) : Q :=
  match x with
  | S754_finite s m e =>
      (if s then - inject_Z (Zpos m) else inject_Z (Zpos m)) * pow2 e
  | _ => 0
  end.

(** [+0.0] and the positive finite floats. *)
Definition nonneg_finite (x : spec_float) : bool :=
  match x with
  | S754_zero false | S754_finite false _ _ => true
  | _ => false
  end.

Definition positive_finite (x : spec_float) : bool :=
  match x with S754_finite false _ _ => true | _ => false end.

(** [r] is the number [x], which is not negative, rounded to binary64. *)
Definition RN (x : Q) (r : spec_float) : Prop :=
  exists g m1 : Z,
    grid_of x g /\ (0 <= m1)%Z
    /\ rounds_to m1 (x * pow2 (- g)) /\ represents false r m1 g.

(** The value of a primitive float; and a float that is [+0.0] or positive
    and finite, with a value of at most that of [B]. *)
Definition fval (x : float) : Q := val (Prim2SF x).

Definition below (x B : float) : Prop :=
  nonneg_finite (Prim2SF x) = true /\ fval x <= fval B.
End RoundingNotions.

(** ** Books and the engine *)

(** A book.  [title] and [description] are [""] and [authors] and
    [categories] are [[]] when the key is missing; [average_rating] and
    [page_count] are [None] when the key is missing or holds [None], as in
    the records of the metadata source.  A rating that arrives as an [int]
    is its float. *)
Record Book (R : Type) := {
  book_id : option string;
  title : string;
  authors : list string;
  description : string;
  categories : list string;
  average_rating : option R;
  page_count : option Z
}.
Arguments book_id {R} _.
Arguments title {R} _.
Arguments authors {R} _.
Arguments description {R} _.
Arguments categories {R} _.
Arguments average_rating {R} _.
Arguments page_count {R} _.

(** [self.tfidf]: the similarity the fitted vectorizer gives two documents,
    or [None] when [fit_transform] raises [ValueError]. *)
Record BookSimilarityEngine (R : Type) := {
  tfidf_cosine : string -> string -> option R
}.
Arguments tfidf_cosine {R} _ _ _.

Inductive exn := KeyError (key : string).

Inductive result (A : Type) :=
| Ok (a : A)
| Raise (e : exn).
Arguments Ok {A} _.
Arguments Raise {A} _.

Definition bind {A B : Type} (r : result A) (k : A -> result B) : result B :=
  match r with
  | Ok a => k a
  | Raise e => Raise e
  end.

#[export] Instance result_bind : MBind result := fun A B k r => bind r k.
#[export] Instance result_ret : MRet result := fun A a => Ok a.

(** ** Sorting and slicing *)

Section Sorting.
Context {A R : Type} `{Number R} (key : A -> R).

(** Stable ascending insertion, comparing keys with [<] only. *)
Fixpoint insert (x : A) (l : list A) : list A :=
  match l with
  | [] => [x]
  | y :: l' => if nlt (key y) (key x) then y :: insert x l' else x :: l
  end.

Definition sort_ascending (l : list A) : list A := foldr insert [] l.

(** [sorted(l, key=key, reverse=True)] and [l.sort(key=key, reverse=True)]:
    CPython reverses the list, sorts it stably in ascending order and
    reverses the outcome.  The sort is read as its documentation describes
    it, a stable sort that compares keys with [<]; this is what Timsort
    computes on keys that [<] orders consistently ([weakly_ordered]
    below), which for floats means that none of them is NaN. *)
Definition sort_reverse (l : list A) : list A :=
  reverse (sort_ascending (reverse l)).

(** Ascending order, as insertion builds it: no element's key is less
    than its predecessor's. *)
Definition ascending_rel (a b : A) : Prop := nlt (key b) (key a) = false.

(** [<] orders the keys of [l] consistently: not being less is
    transitive among them. *)
Definition weakly_ordered (l : list A) : Prop :=
  forall a b c, a ∈ l -> b ∈ l -> c ∈ l ->
    nlt (key a) (key b) = false -> nlt (key b) (key c) = false ->
    nlt (key a) (key c) = false.

(** A list in which no element's key is less than the key of an element
    further on. *)
Definition descending (l : list A) : Prop :=
  StronglySorted (fun a b => nlt (key a) (key b) = false) l.

End Sorting.

(** [l[:n]] *)
Definition slice_to {A : Type} (n : Z) (l : list A) : list A :=
  take (Z.to_nat (if (n <? 0)%Z then Z.max 0 (Z.of_nat (length l) + n) else n)) l.

(** ** The engine's methods *)

Section Engine.
Context {R : Type} `{Number R}.
#[local] Open Scope num_scope.

Definition CONTENT_WEIGHT : R := tenths 6.
Definition METADATA_WEIGHT : R := tenths 4.

Definition truthy_text (s : string) : bool := negb (Text.is_empty s).

Definition _get_combined_text (book : Book R) : string :=
  let text_fields :=
    [ title book;
      String.concat " " (authors book);
      description book;
      String.concat " " (categories book) ] in
  String.concat " "
    (map (fun text => Text.preprocess_text (Some text)) (filter truthy_text text_fields)).

Definition calculate_content_similarity
    (self : BookSimilarityEngine R) (book1 book2 : Book R) : R :=
  let text1 := _get_combined_text book1 in
  let text2 := _get_combined_text book2 in
  match tfidf_cosine self text1 text2 with
  | Some similarity => similarity
  | None => of_int 0
  end.

Definition nonempty (s : gset string) : bool := negb (bool_decide (s = ∅)).

Definition truthy_number (r : option R) : bool :=
  match r with Some x => negb (is_zero x) | None => false end.

Definition truthy_int (p : option Z) : bool :=
  match p with Some z => negb (z =? 0)%Z | None => false end.

Definition calculate_metadata_similarity (book1 book2 : Book R) : R :=
  let score := of_int 0 in
  let categories1 : gset string := list_to_set (categories book1) in
  let categories2 : gset string := list_to_set (categories book2) in
  let score :=
    if nonempty categories1 && nonempty categories2
    then score + tenths 4 * of_int (Z.of_nat (size (categories1 ∩ categories2)))
                 / of_int (Z.max (Z.of_nat (size (categories1 ∪ categories2))) 1)
    else score in
  let authors1 : gset string := list_to_set (authors book1) in
  let authors2 : gset string := list_to_set (authors book2) in
  let score :=
    if nonempty authors1 && nonempty authors2
    then score + tenths 3 * of_int (Z.of_nat (size (authors1 ∩ authors2)))
                 / of_int (Z.max (Z.of_nat (size (authors1 ∪ authors2))) 1)
    else score in
  let rating1 := average_rating book1 in
  let rating2 := average_rating book2 in
  let score :=
    if truthy_number rating1 && truthy_number rating2
    then score + tenths 2 * (of_int 1 - nabs (default (of_int 0) rating1 - default (of_int 0) rating2) / of_int 5)
    else score in
  let pages1 := page_count book1 in
  let pages2 := page_count book2 in
  let score :=
    if truthy_int pages1 && truthy_int pages2
    then score + tenths 1 * (of_int 1 - of_int (Z.abs (default 0%Z pages1 - default 0%Z pages2))
                                         / of_int (Z.max (default 0%Z pages1) (default 0%Z pages2)))
    else score in
  score.

Definition same_id (a b : Book R) : bool :=
  bool_decide (book_id a = book_id b).

Definition combined_similarity
    (self : BookSimilarityEngine R) (target_book candidate : Book R) : R :=
  let content_sim := calculate_content_similarity self target_book candidate in
  let metadata_sim := calculate_metadata_similarity target_book candidate in
  content_sim * CONTENT_WEIGHT + metadata_sim * METADATA_WEIGHT.

(** The list [similarities] when the loop of [find_similar_books] ends. *)
Fixpoint similarities
    (self : BookSimilarityEngine R) (target_book : Book R)
    (candidate_books : list (Book R)) : list (Book R * R) :=
  match candidate_books with
  | [] => []
  | candidate :: rest =>
      if same_id candidate target_book
      then similarities self target_book rest
      else (candidate, combined_similarity self target_book candidate)
           :: similarities self target_book rest
  end.

Definition find_similar_books
    (self : BookSimilarityEngine R) (target_book : Book R)
    (candidate_books : list (Book R)) (num_recommendations : Z)
    : list (Book R * R) :=
  slice_to num_recommendations
    (sort_reverse snd (similarities self target_book candidate_books)).

(** [book["id"]] *)
Definition subscript_id (book : Book R) : result string :=
  match book_id book with
  | Some i => Ok i
  | None => Raise (KeyError "id")
  end.

(** The inner loop of [get_recommendations]:
    [scores[book["id"]] += sim_score / len(user_books)] on a
    [defaultdict(float)]. *)
Fixpoint add_scores
    (history_size : nat) (similar_books : list (Book R * R))
    (scores : gmap string R) : result (gmap string R) :=
  match similar_books with
  | [] => Ok scores
  | (book, sim_score) :: rest =>
      i ← subscript_id book;
      add_scores history_size rest
        (<[ i := default (of_int 0) (scores !! i)
                 + sim_score / of_int (Z.of_nat history_size) ]> scores)
  end.

(** The outer loop, over the books of [user_books] still to visit. *)
Fixpoint accumulate
    (self : BookSimilarityEngine R) (history_size : nat)
    (user_books : list (Book R)) (candidate_books : list (Book R))
    (scores : gmap string R) : result (gmap string R) :=
  match user_books with
  | [] => Ok scores
  | user_book :: rest =>
      let similar_books :=
        find_similar_books self user_book candidate_books
          (Z.of_nat (length candidate_books)) in
      scores' ← add_scores history_size similar_books scores;
      accumulate self history_size rest candidate_books scores'
  end.

(** The dictionary [scores] when both loops have ended. *)
Definition accumulated_scores
    (self : BookSimilarityEngine R)
    (user_books candidate_books : list (Book R)) : result (gmap string R) :=
  accumulate self (length user_books) user_books candidate_books ∅.

(** [[(book, scores[book["id"]]) for book in candidate_books
      if book["id"] in scores]] *)
Fixpoint scored_candidates
    (candidate_books : list (Book R)) (scores : gmap string R)
    : result (list (Book R * R)) :=
  match candidate_books with
  | [] => Ok []
  | book :: rest =>
      i ← subscript_id book;
      tail ← scored_candidates rest scores;
      match scores !! i with
      | Some s => Ok ((book, s) :: tail)
      | None => Ok tail
      end
  end.

Definition get_recommendations
    (self : BookSimilarityEngine R)
    (user_books candidate_books : list (Book R)) (num_recommendations : Z)
    : result (list (Book R)) :=
  scores ← accumulated_scores self user_books candidate_books;
  eligible ← scored_candidates candidate_books scores;
  let ranked_books := sort_reverse snd eligible in
  Ok (fst <$> slice_to num_recommendations ranked_books).

End Engine.

(** ** Notions used in the statements *)

Section Notions.
Context {R : Type} `{Number R}.

(** The candidates that [find_similar_books] does not skip. *)
Definition other_candidates (target_book : Book R) (candidate_books : list (Book R))
    : list (Book R) :=
  filter (fun c => negb (same_id c target_book)) candidate_books.

Definition has_id (book : Book R) : bool :=
  match book_id book with Some _ => true | None => false end.

Definition entry_id (entry : Book R * R) : option string := book_id entry.1.



(** What the inner loop of [get_recommendations] leaves under one key:
    to what the dictionary held ([None]: no entry yet, which
    [defaultdict(float)] reads as [0.0]) it adds [score / history_size] for
    each of the entries with this key, in turn. *)
Definition added_up
    (history_size : nat) (contributions : list (Book R * R)) (start : option R)
    : option R :=
  foldl
    (fun acc e =>
       Some (default (of_int 0) acc + e.2 / of_int (Z.of_nat history_size))%num)
    start contributions.

(** The entries that are stored under the key [i]. *)
Definition keyed (i : string) (entries : list (Book R * R)) : list (Book R * R) :=
  filter (fun e => bool_decide (entry_id e = Some i)) entries.

(** What the engine needs of the vectorizer on a pair with an empty
    document: scikit-learn raises [ValueError] when the pair has no
    vocabulary at all, and gives the empty document the zero vector, hence
    similarity [0.0], otherwise. *)
Definition empty_document_contract (self : BookSimilarityEngine R) : Prop :=
  forall text1 text2 : string,
    text1 = "" \/ text2 = "" ->
    tfidf_cosine self text1 text2 = None
    \/ tfidf_cosine self text1 text2 = Some (of_int 0).

End Notions.

(** ** The metadata similarity in binary64 *)

Section FloatSubScores.
#[local] Open Scope float_scope.

Definition set_of (l : list string) : gset string := list_to_set l.

(** The four sub-scores as [calculate_metadata_similarity] computes them;
    [None] when the field is empty, zero or missing in either book. *)
Definition overlap_part (weight : float) (l1 l2 : list string) : option float :=
  if nonempty (set_of l1) && nonempty (set_of l2)
  then Some (weight * float_of_Z (Z.of_nat (size (set_of l1 ∩ set_of l2)))
             / float_of_Z (Z.max (Z.of_nat (size (set_of l1 ∪ set_of l2))) 1))
  else None.

Definition category_part (a b : Book float) : option float :=
  overlap_part 0.4 (categories a) (categories b).

Definition author_part (a b : Book float) : option float :=
  overlap_part 0.3 (authors a) (authors b).

Definition rating_part (a b : Book float) : option float :=
  if truthy_number (average_rating a) && truthy_number (average_rating b)
  then Some (0.2 * (1 - abs (default 0 (average_rating a)
                             - default 0 (average_rating b)) / 5))
  else None.

Definition length_part (a b : Book float) : option float :=
  if truthy_int (page_count a) && truthy_int (page_count b)
  then Some (0.1 * (1 - float_of_Z (Z.abs (default 0%Z (page_count a)
                                           - default 0%Z (page_count b)))
                        / float_of_Z (Z.max (default 0%Z (page_count a))
                                        (default 0%Z (page_count b)))))
  else None.

(** [score += part], for a part that is present. *)
Definition add_part (score : float) (part : option float) : float :=
  match part with
  | Some p => score + p
  | None => score
  end.

(** The documented domains: ratings in [0, 5], page counts not negative.
    Page counts are below [2^53] and a book has fewer than [2^52]
    categories and authors: there an [int] is its float, and a quotient of
    two [int]s is the quotient of their floats. *)
Definition in_domain (b : Book float) : Prop :=
  (forall r, average_rating b = Some r -> (0 <=? r) = true /\ (r <=? 5) = true)
  /\ (forall p, page_count b = Some p -> (0 <= p < 2 ^ 53)%Z)
  /\ (Z.of_nat (length (categories b)) < 2 ^ 52)%Z
  /\ (Z.of_nat (length (authors b)) < 2 ^ 52)%Z.

(** [lo <= x <= hi], as the floats compare. *)
Definition float_between (lo hi x : float) : Prop :=
  (lo <=? x) = true /\ (x <=? hi) = true.
End FloatSubScores.

(** ** Sample data *)

Module Sample.
(** A stand-in for the fitted vectorizer.  On two empty documents it fails
    as scikit-learn does; its other values only serve to instantiate
    statements. *)
Definition vectorize {R : Type} `{Number R} (text1 text2 : string) : option R :=
  if Text.is_empty text1 && Text.is_empty text2 then None
  else if Text.is_empty text1 || Text.is_empty text2 then Some (of_int 0)
  else if bool_decide (text1 = text2) then Some (of_int 1)
  else Some (tenths 5).

Definition engine {R : Type} `{Number R} : BookSimilarityEngine R :=
  {| tfidf_cosine := vectorize |}.

(** Books that carry metadata only: their combined text is empty. *)
Definition plain {R : Type} (i : string) (rating : R) (pages : Z) : Book R :=
  {| book_id := Some i; title := ""; authors := []; description := "";
     categories := []; average_rating := Some rating; page_count := Some pages |}.

Definition read : Book float := plain "1" 4%float 300.
Definition near : Book float := plain "2" 4%float 300.
Definition far : Book float := plain "3" 2%float 900.



(** The list [similarities] for the history book [read] and the
    candidates [near], [far], [near]. *)
Definition entries : list (Book float * float) :=
  [ (near, 0.12000000000000002%float);
    (far, 0.06133333333333333%float);
    (near, 0.12000000000000002%float) ].

Definition trilogy {R : Type} (i : string) (rating : R) : Book R :=
  {| book_id := Some i; title := "The Lord of the Rings";
     authors := ["J.R.R. Tolkien"]; description := "An epic fantasy novel.";
     categories := ["Fantasy"; "Adventure"; "Epic"];
     average_rating := Some rating; page_count := Some 1200%Z |}.
End Sample.


(** ** Further notions used in the statements *)

Section TextNotions.
Context {R : Type}.

(** The four strings that [_get_combined_text] reads from a book. *)
Definition text_fields (book : Book R) : list string :=
  [ title book;
    String.concat " " (authors book);
    description book;
    String.concat " " (categories book) ].

(** Two strings with the same words: both empty or both not, and the same
    runs of word characters once lower-cased. *)
Definition same_words (s t : string) : Prop :=
  Text.is_empty s = Text.is_empty t
  /\ Text.tokens (Text.lower s) = Text.tokens (Text.lower t).
End TextNotions.


Section RecommendationNotions.
Context {R : Type} `{Number R}.
#[local] Open Scope num_scope.

(** The candidates whose id differs from that of some book of the
    history. *)
Definition eligible (user_books candidate_books : list (Book R)) : list (Book R) :=
  filter (fun c => existsb (fun u => negb (same_id c u)) user_books) candidate_books.

(** What the history adds up to for one candidate: in the order of the
    history, every book with another id adds its combined similarity with
    the candidate, divided by the size of the history, to what the
    dictionary holds for the candidate ([None]: no entry yet, read as
    [0.0]). *)
Definition running_score
    (self : BookSimilarityEngine R) (history_size : nat)
    (user_books : list (Book R)) (candidate : Book R) (start : option R)
    : option R :=
  foldl
    (fun acc user_book =>
       if same_id candidate user_book then acc
       else Some (default (of_int 0) acc
                  + combined_similarity self user_book candidate
                    / of_int (Z.of_nat history_size)))
    start user_books.
End RecommendationNotions.

(** A vectorizer whose similarities lie between [0.0] and [1.0], as the
    cosine of two vectors without negative entries does. *)
Definition unit_vectorizer (self : BookSimilarityEngine float) : Prop :=
  forall (text1 text2 : string) (v : float),
    tfidf_cosine self text1 text2 = Some v -> float_between 0 1 v.

(** ** Further sample data *)

Module Examples.
(** [Sample.trilogy] as a catalogue in capitals with other punctuation
    would list it. *)
Definition shouted {R : Type} (i : string) (rating : R) : Book R :=
  {| book_id := Some i; title := "THE LORD OF THE RINGS!";
     authors := ["J. R. R. TOLKIEN"]; description := "An epic, fantasy novel";
     categories := ["FANTASY ADVENTURE"; "(epic)"];
     average_rating := Some rating; page_count := Some 1200%Z |}.
End Examples.

(** * Proofs *)

(** ** The text preprocessor *)

Section TextFacts.
Import Text.

Lemma word_not_space (c : ascii) : is_word c = true -> is_space c = false.
Proof.
  destruct c as [[] [] [] [] [] [] [] []]; vm_compute; congruence.
Qed.

(** One character of the two substitutions, fused. *)
Lemma sub_spaces_other_cons (b : bool) (c : ascii) (s : string) :
  sub_spaces b (sub_other (String c s)) =
  if is_word c then String c (sub_spaces false (sub_other s))
  else if b then sub_spaces true (sub_other s)
       else String " " (sub_spaces true (sub_other s)).
Proof.
  unfold sub_other. cbn [map_chars sub_spaces].
  destruct (is_word c) eqn:Hw.
  - pose proof (word_not_space c Hw) as Hs.
    rewrite Hs. cbn [orb]. rewrite Hs. reflexivity.
  - destruct (is_space c) eqn:Hs; cbn [orb]; [rewrite Hs | ]; reflexivity.
Qed.

Lemma tokens_cons_word (c : ascii) (s : string) :
  is_word c = true ->
  tokens (String c s) =
  if starts_word s
  then match tokens s with t :: ts => String c t :: ts | [] => [String c ""] end
  else String c "" :: tokens s.
Proof.
  intros Hw. cbn [tokens]. rewrite Hw. destruct s as [|c' s']; reflexivity.
Qed.

Lemma tokens_cons_other (c : ascii) (s : string) :
  is_word c = false -> tokens (String c s) = tokens s.
Proof. intros Hw. cbn [tokens]. rewrite Hw. reflexivity. Qed.

Lemma tokens_starts_word (s : string) :
  starts_word s = true -> exists c t ts, tokens s = String c t :: ts.
Proof.
  destruct s as [|c s]; [discriminate|]. cbn [starts_word]. intros Hw.
  rewrite (tokens_cons_word c s Hw).
  destruct (starts_word s).
  - destruct (tokens s) as [|t ts]; [exists c, "", [] | exists c, t, ts]; reflexivity.
  - exists c, "", (tokens s). reflexivity.
Qed.

Lemma tokens_head_nonempty (s t : string) (ts : list string) :
  tokens s = t :: ts -> is_empty t = false.
Proof.
  revert t ts. induction s as [|c s IH]; intros t ts; [discriminate|].
  destruct (is_word c) eqn:Hw.
  - rewrite (tokens_cons_word c s Hw).
    destruct (starts_word s); [destruct (tokens s)|]; intros [= <- _]; reflexivity.
  - rewrite (tokens_cons_other c s Hw). apply IH.
Qed.

Lemma concat_cons_nonempty (t : string) (ts : list string) :
  is_empty t = false -> is_empty (String.concat " " (t :: ts)) = false.
Proof.
  destruct t; [discriminate|]. intros _. destruct ts; reflexivity.
Qed.

Lemma concat_cons_char (c : ascii) (t : string) (ts : list string) :
  String.concat " " (String c t :: ts) = String c (String.concat " " (t :: ts)).
Proof. destruct ts; reflexivity. Qed.

Lemma rstrip_sub (s : string) : forall b : bool,
  rstrip (sub_spaces b (sub_other s)) =
  match tokens s with
  | [] => ""
  | ts => (if b || starts_word s then "" else " ") +:+ String.concat " " ts
  end.
Proof.
  induction s as [|c s IH]; intros b; [reflexivity|].
  rewrite sub_spaces_other_cons.
  destruct (is_word c) eqn:Hw.
  - cbn [rstrip starts_word]. rewrite (word_not_space c Hw), Hw, orb_true_r.
    cbn [andb]. rewrite (IH false), (tokens_cons_word c s Hw). cbn [orb].
    destruct (starts_word s) eqn:Hs.
    + destruct (tokens_starts_word s Hs) as (c' & t & ts & ->).
      rewrite !concat_cons_char. reflexivity.
    + destruct (tokens s) as [|t ts]; reflexivity.
  - rewrite (tokens_cons_other c s Hw). cbn [starts_word]. rewrite Hw, orb_false_r.
    destruct b.
    + rewrite (IH true). reflexivity.
    + cbn [rstrip]. rewrite (IH true). cbn [orb].
      destruct (tokens s) as [|t ts] eqn:Ht; [reflexivity|].
      change ("" +:+ String.concat " " (t :: ts)) with (String.concat " " (t :: ts)).
      rewrite (concat_cons_nonempty t ts (tokens_head_nonempty s t ts Ht)).
      reflexivity.
Qed.

Lemma lstrip_sub_true (s : string) :
  lstrip (sub_spaces true (sub_other s)) = sub_spaces true (sub_other s).
Proof.
  induction s as [|c s IH]; [reflexivity|].
  rewrite sub_spaces_other_cons. destruct (is_word c) eqn:Hw; [|exact IH].
  cbn [lstrip]. rewrite (word_not_space c Hw). reflexivity.
Qed.

Lemma lstrip_sub_false (s : string) :
  lstrip (sub_spaces false (sub_other s)) = sub_spaces true (sub_other s).
Proof.
  destruct s as [|c s]; [reflexivity|].
  rewrite !sub_spaces_other_cons. destruct (is_word c) eqn:Hw.
  - cbn [lstrip]. rewrite (word_not_space c Hw). reflexivity.
  - cbn [lstrip]. change (is_space " ") with true. cbn iota. apply lstrip_sub_true.
Qed.

Lemma strip_sub (s : string) :
  strip (sub_spaces false (sub_other s)) = String.concat " " (tokens s).
Proof.
  unfold strip. rewrite lstrip_sub_false, rstrip_sub.
  destruct (tokens s); reflexivity.
Qed.

Lemma tokens_word_chars (s : string) :
  Forall (fun t => is_empty t = false /\ all_chars is_word t = true) (tokens s).
Proof.
  induction s as [|c s IH]; [constructor|].
  destruct (is_word c) eqn:Hw.
  - rewrite (tokens_cons_word c s Hw). destruct (starts_word s).
    + destruct (tokens s) as [|t ts].
      * repeat constructor. cbn. rewrite Hw. reflexivity.
      * inversion IH as [|? ? [_ Ht] Hts]; subst. constructor; [|exact Hts].
        split; [reflexivity|]. cbn. rewrite Hw, Ht. reflexivity.
    + constructor; [|exact IH]. split; [reflexivity|]. cbn. rewrite Hw. reflexivity.
  - rewrite (tokens_cons_other c s Hw). exact IH.
Qed.
End TextFacts.

(** C2, as the code has it: [preprocess_text] never fails; on [None] and on
    the empty string it returns the empty string, and otherwise it returns
    the maximal runs of word characters of the lower-cased text, joined by
    single spaces.  A word character is a letter, a digit or the underscore,
    so an underscore is kept and every other character ends a run. *)
Theorem preprocess_text_tokens (text : option string) :
  Text.preprocess_text text =
    match text with
    | None => ""
    | Some t => String.concat " " (Text.tokens (Text.lower t))
    end
  /\ Forall (fun t => Text.is_empty t = false /\ Text.all_chars Text.is_word t = true)
       (Text.tokens (Text.lower (default "" text))).
Proof.
  split; [|apply tokens_word_chars].
  destruct text as [t|]; [|reflexivity].
  unfold Text.preprocess_text. destruct t as [|c t]; [reflexivity|].
  cbn [Text.is_empty]. apply strip_sub.
Qed.

(** C2 fails on the underscore: it is neither a letter, a digit nor
    whitespace, yet ["a_b"] is returned unchanged, where replacing it as the
    claim says gives ["a b"]. *)
Lemma preprocess_text_keeps_underscore :
  Text.preprocess_text (Some "a_b") = "a_b"
  /\ Text.is_letter "_" || Text.is_digit "_" || Text.is_space "_" = false
  /\ Text.strip (Text.sub_spaces false (Text.sub_other_claimed (Text.lower "a_b"))) = "a b".
Proof. repeat split. Qed.

(** ** Binary64 satisfies the laws *)

Section FloatLaws.
Lemma SFmul_comm (x y : spec_float) : SFmul prec emax x y = SFmul prec emax y x.
Proof.
  destruct x as [sx|sx| |sx mx ex], y as [sy|sy| |sy my ey]; cbn [SFmul];
    rewrite ?(xorb_comm sx sy); try reflexivity.
  rewrite (Pos.mul_comm mx my), (Z.add_comm ex ey). reflexivity.
Qed.

Lemma SFabs_binary_round (s s' : bool) (m : positive) (e : Z) :
  SFabs (binary_round prec emax s m e) = SFabs (binary_round prec emax s' m e).
Proof.
  unfold binary_round, binary_round_aux.
  destruct (shl_align m e _) as [mz ez].
  destruct (shr_fexp prec emax (Z.pos mz) ez loc_Exact) as [mrs' e'].
  destruct (shr_fexp prec emax _ e' loc_Exact) as [mrs'' e''].
  destruct (shr_m mrs''); [reflexivity | | reflexivity].
  destruct (Z.leb e'' _); reflexivity.
Qed.

Lemma SFabs_binary_normalize_opp (z e : Z) :
  SFabs (binary_normalize prec emax (- z) e false)
  = SFabs (binary_normalize prec emax z e false).
Proof.
  destruct z as [|p|p]; cbn [Z.opp binary_normalize];
    [reflexivity | apply SFabs_binary_round | apply SFabs_binary_round].
Qed.

Lemma SFabs_sub_comm (x y : spec_float) :
  SFabs (SFsub prec emax x y) = SFabs (SFsub prec emax y x).
Proof.
  destruct x as [sx|sx| |sx mx ex], y as [sy|sy| |sy my ey]; cbn [SFsub SFabs];
    try reflexivity; try (destruct sx, sy; reflexivity).
  rewrite (Z.min_comm ey ex), <- SFabs_binary_normalize_opp.
  f_equal. f_equal. lia.
Qed.

Lemma SFcompare_Lt_Gt (x y : spec_float) :
  SFcompare x y = Some Lt -> SFcompare y x = Some Gt.
Proof.
  destruct x as [sx|sx| |sx mx ex], y as [sy|sy| |sy my ey]; cbn [SFcompare];
    try discriminate; try (destruct sx; try destruct sy; (discriminate || reflexivity)).
  pose proof (Pos.compare_cont_antisym mx my Eq) as Hm. cbn [CompOpp] in Hm.
  rewrite (Z.compare_antisym ex ey), <- Hm.
  destruct sx, sy; try (discriminate || reflexivity);
    destruct (ex ?= ey)%Z; cbn [CompOpp];
    try (discriminate || reflexivity);
    destruct (Pos.compare_cont Eq mx my); cbn [CompOpp]; (discriminate || reflexivity).
Qed.
#[local] Open Scope Z_scope.

Lemma one_spec : Prim2SF 1 = S754_finite false 4503599627370496 (-52)%Z.
Proof. reflexivity. Qed.

Lemma div_eucl_shift (m : positive) (s : Z) :
  s = 52 \/ s = 53 ->
  Z.div_eucl (Z.shiftl (Zpos m) s) 4503599627370496
  = (if s =? 52 then Zpos m else Zpos (xO m), 0).
Proof.
  intros Hs.
  assert (H : Z.shiftl (Zpos m) s = (if s =? 52 then Zpos m else Zpos (xO m)) * 4503599627370496 + 0).
  { rewrite Z.shiftl_mul_pow2 by lia. destruct Hs as [-> | ->]; cbn [Z.eqb Pos.eqb]; change (2 ^ 52) with 4503599627370496; change (2^53) with (2 * 4503599627370496); lia. }
  pose proof (Z.div_eucl_eq (Z.shiftl (Zpos m) s) 4503599627370496) as E.
  pose proof (Z.mod_pos_bound (Z.shiftl (Zpos m) s) 4503599627370496) as B.
  unfold Z.modulo in B. 
  destruct (Z.div_eucl (Z.shiftl (Z.pos m) s) 4503599627370496) as [q r].
  specialize (E ltac:(lia)). specialize (B ltac:(lia)).
  assert (q = (if s =? 52 then Z.pos m else Z.pos m~0) /\ r = 0) as [-> ->]; [|reflexivity].
  destruct (s =? 52); nia.
Qed.

Lemma SFdiv_one_finite (sx : bool) (mx : positive) (ex : Z) :
  bounded prec emax mx ex = true ->
  SFdiv prec emax (S754_finite sx mx ex) (S754_finite false 4503599627370496 (-52))
  = S754_finite sx mx ex.
Proof.
  intros Hb. unfold bounded, canonical_mantissa in Hb.
  apply andb_true_iff in Hb as [Hc He]. apply Z.eqb_eq in Hc. apply Z.leb_le in He.
  unfold fexp, emin in Hc. change prec with 53 in *. change emax with 1024 in *.
  cbn [SFdiv]. unfold SFdiv_core_binary. cbn [Zdigits2].
  change (Zpos (digits2_pos 4503599627370496)) with 53.
  set (d := Zpos (digits2_pos mx)) in *.
  assert (Hd : 1 <= d) by (unfold d; lia).
  set (e' := Z.min (fexp 53 1024 (d + ex - (53 + -52))) (ex - -52)).
  assert (He' : (d = 53 /\ -1073 <= ex /\ e' = ex - 1) \/ (ex = -1074 /\ e' = ex) ).
  { unfold e', fexp, emin. lia. }
  set (s := ex - -52 - e').
  assert (Hs : (s = 53 /\ e' = ex - 1 /\ d = 53) \/ (s = 52 /\ e' = ex)) by (unfold s; lia).
  assert (Hm : match s with 0 => Z.pos mx | Z.pos _ => Z.shiftl (Z.pos mx) s | Z.neg _ => 0 end
               = Z.shiftl (Z.pos mx) s).
  { destruct Hs as [(-> & _) | (-> & _)]; reflexivity. }
  rewrite Hm, div_eucl_shift by lia.
  change (new_location 4503599627370496 0) with loc_Exact.
  rewrite xorb_false_r.
  unfold binary_round_aux, shr_fexp.
  destruct Hs as [(Hs & E & D) | (Hs & E)]; rewrite Hs, E; cbn [Z.eqb Pos.eqb Zdigits2 digits2_pos shr_record_of_loc].
  - assert (H1 : fexp 53 1024 (Z.pos (Pos.succ (digits2_pos mx)) + (ex - 1)) - (ex - 1) = 1).
    { rewrite Pos2Z.inj_succ. fold d. unfold fexp, emin. lia. }
    rewrite H1.
    cbn [shr SpecFloat.iter_pos shr_1 orb shr_m loc_of_shr_record round_nearest_even Zdigits2].
    fold d. replace (ex - 1 + 1) with ex by lia.
    assert (H2 : fexp 53 1024 (d + ex) - ex = 0) by (unfold fexp, emin; lia).
    rewrite H2. cbn [shr shr_m].
    destruct (Z.leb_spec ex (1024 - 53)); [reflexivity|lia].
  - fold d.
    assert (H2 : fexp 53 1024 (d + ex) - ex = 0) by (unfold fexp, emin; lia).
    rewrite H2. cbn [shr shr_m loc_of_shr_record round_nearest_even Zdigits2].
    fold d. rewrite H2. cbn [shr shr_m].
    destruct (Z.leb_spec ex (1024 - 53)); [reflexivity|lia].
Qed.

Lemma SFdiv_one (x : spec_float) :
  valid_binary x = true -> SFdiv prec emax x (Prim2SF 1) = x.
Proof.
  rewrite one_spec. unfold valid_binary.
  destruct x as [s|s| |s m e]; cbn [SpecFloat.valid_binary]; intros Hv.
  - cbn. rewrite xorb_false_r. reflexivity.
  - cbn. rewrite xorb_false_r. reflexivity.
  - reflexivity.
  - apply SFdiv_one_finite, Hv.
Qed.

Lemma float_div_one (x : float) : (x / 1)%float = x.
Proof.
  apply Prim2SF_inj. rewrite div_spec. apply SFdiv_one, Prim2SF_valid.
Qed.

Lemma float_zero_add (x : float) :
  (0 + x)%float = x \/ (x = (-0)%float /\ (0 + x)%float = 0%float).
Proof.
  destruct (Prim2SF x) as [s|s| |s m e] eqn:E.
  - destruct s.
    + right. assert (x = (-0)%float) as -> by (apply Prim2SF_inj; rewrite E; reflexivity).
      split; reflexivity.
    + left. assert (x = 0%float) as -> by (apply Prim2SF_inj; rewrite E; reflexivity). reflexivity.
  - left. apply Prim2SF_inj. rewrite add_spec, E. reflexivity.
  - left. apply Prim2SF_inj. rewrite add_spec, E. reflexivity.
  - left. apply Prim2SF_inj. rewrite add_spec, E. reflexivity.
Qed.
Lemma SFltb_rank (x y : spec_float) :
  x <> S754_nan -> y <> S754_nan ->
  (SFltb x y = true <-> rank_lt (float_rank x) (float_rank y)).
Proof.
  intros Hx Hy. unfold SFltb, rank_lt.
  destruct x as [sx|sx| |sx mx ex], y as [sy|sy| |sy my ey]; try congruence;
    cbn [SFcompare float_rank fst snd];
    try (destruct sx; try destruct sy; cbn [fst snd]; split; (discriminate || lia || reflexivity)).
  change (Pos.compare_cont Eq mx my) with (Pos.compare mx my).
  destruct sx, sy; cbn [fst snd]; try (split; (discriminate || lia || reflexivity));
    destruct (Z.compare_spec ex ey); destruct (Pos.compare_spec mx my); cbn [CompOpp];
    split; (discriminate || lia || reflexivity).
Qed.

Lemma not_nan_spec (x : float) : PrimFloat.is_nan x = false -> Prim2SF x <> S754_nan.
Proof.
  intros Hx. unfold Prim2SF. rewrite Hx.
  destruct (PrimFloat.is_zero x); [discriminate|].
  destruct (PrimFloat.is_infinity x); [discriminate|].
  destruct (Z.frexp x) as [r e]. destruct (shr_fexp _ _ _ _ _) as [m e'].
  destruct (shr_m m); discriminate.
Qed.

Lemma float_not_less_trans (x y z : float) :
  PrimFloat.is_nan x = false -> PrimFloat.is_nan y = false ->
  PrimFloat.is_nan z = false ->
  (x <? y)%float = false -> (y <? z)%float = false -> (x <? z)%float = false.
Proof.
  intros Hx Hy Hz. apply not_nan_spec in Hx, Hy, Hz.
  rewrite !ltb_spec, <- !not_true_iff_false, !SFltb_rank by assumption.
  unfold rank_lt. lia.
Qed.
End FloatLaws.

(** The decimal literals of the engine are the floats CPython reads. *)
Lemma float_literals :
  (tenths 1 : float) = 0.1%float /\ (tenths 2 : float) = 0.2%float
  /\ (tenths 3 : float) = 0.3%float /\ (tenths 4 : float) = 0.4%float
  /\ (tenths 6 : float) = 0.6%float /\ (of_int 0 : float) = 0%float
  /\ (of_int 1 : float) = 1%float /\ (of_int 5 : float) = 5%float.
Proof. vm_compute. repeat split. Qed.


(** ** Binary64 rounding *)

Section Rounding.
#[local] Open Scope Q_scope.



Lemma pow2_pos (e : Z) : 0 < pow2 e.
Proof. apply Qpower_0_lt. reflexivity. Qed.

Lemma pow2_add (e f : Z) : pow2 (e + f) == pow2 e * pow2 f.
Proof. apply Qpower_plus. discriminate. Qed.

Lemma pow2_0 : pow2 0 == 1.
Proof. reflexivity. Qed.

Lemma pow2_1 : pow2 1 == 2.
Proof. reflexivity. Qed.

Lemma pow2_opp (e : Z) : pow2 e * pow2 (- e) == 1.
Proof. rewrite <- pow2_add, Z.add_opp_diag_r. reflexivity. Qed.

Lemma pow2_le (e f : Z) : (e <= f)%Z -> pow2 e <= pow2 f.
Proof. intros Hef. apply Qpower_le_compat_l; [exact Hef|discriminate]. Qed.

Lemma pow2_lt (e f : Z) : (e < f)%Z -> pow2 e < pow2 f.
Proof. intros Hef. apply Qpower_lt_compat_l; [exact Hef|reflexivity]. Qed.

Lemma pow2_lt_inv (e f : Z) : pow2 e < pow2 f -> (e < f)%Z.
Proof.
  intros H. destruct (Z.lt_ge_cases e f) as [Hlt|Hge]; [exact Hlt|].
  apply pow2_le in Hge. lra.
Qed.

Lemma pow2_Z (n : Z) : (0 <= n)%Z -> pow2 n == inject_Z (2 ^ n).
Proof. intros Hn. unfold pow2. rewrite Zpower_Qpower by exact Hn. reflexivity. Qed.

(** ** Binary digits *)

Lemma digits2_pos_bounds (p : positive) :
  (2 ^ (Zpos (digits2_pos p) - 1) <= Zpos p < 2 ^ Zpos (digits2_pos p))%Z.
Proof.
  induction p as [p IH|p IH|]; cbn [digits2_pos].
  - rewrite Pos2Z.inj_succ. change (Z.pos p~1) with (2 * Z.pos p + 1)%Z.
    replace (Z.succ (Zpos (digits2_pos p)) - 1)%Z with (Z.succ (Zpos (digits2_pos p) - 1)) by lia.
    rewrite !Z.pow_succ_r by lia. lia.
  - rewrite Pos2Z.inj_succ. change (Z.pos p~0) with (2 * Z.pos p)%Z.
    replace (Z.succ (Zpos (digits2_pos p)) - 1)%Z with (Z.succ (Zpos (digits2_pos p) - 1)) by lia.
    rewrite !Z.pow_succ_r by lia. lia.
  - cbn. lia.
Qed.

Lemma digits_bounds (m : positive) (e : Z) :
  pow2 (Zpos (digits2_pos m) - 1 + e) <= inject_Z (Zpos m) * pow2 e
  /\ inject_Z (Zpos m) * pow2 e < pow2 (Zpos (digits2_pos m) + e).
Proof.
  pose proof (digits2_pos_bounds m) as [Hlo Hhi].
  pose proof (pow2_pos e) as He.
  rewrite !pow2_add.
  rewrite (pow2_Z (Zpos (digits2_pos m) - 1)), (pow2_Z (Zpos (digits2_pos m))) by lia.
  split.
  - apply Qmult_le_compat_r; [|lra]. rewrite <- Zle_Qle. exact Hlo.
  - apply Qmult_lt_compat_r; [lra|]. rewrite <- Zlt_Qlt. exact Hhi.
Qed.

(** ** Shifting with round and sticky bits *)





Lemma located_ext (y y' : Q) (mrs : shr_record) :
  y == y' -> located y mrs -> located y' mrs.
Proof.
  intros E. unfold located. destruct (shr_r mrs), (shr_s mrs); rewrite E; tauto.
Qed.

Lemma located_bounds (y : Q) (mrs : shr_record) :
  located y mrs -> inject_Z (shr_m mrs) <= y /\ y < inject_Z (shr_m mrs) + 1.
Proof. unfold located. destruct (shr_r mrs), (shr_s mrs); intros Hy; lra. Qed.

Lemma inject_Z_xO (p : positive) : inject_Z (Zpos p~0) == 2 * inject_Z (Zpos p).
Proof. change (Zpos p~0) with (2 * Zpos p)%Z. rewrite inject_Z_mult. reflexivity. Qed.

Lemma inject_Z_xI (p : positive) : inject_Z (Zpos p~1) == 2 * inject_Z (Zpos p) + 1.
Proof.
  change (Zpos p~1) with (2 * Zpos p + 1)%Z. rewrite inject_Z_plus, inject_Z_mult.
  reflexivity.
Qed.

Lemma located_shr_1 (y : Q) (mrs : shr_record) :
  (0 <= shr_m mrs)%Z -> located y mrs ->
  located (y * (1#2)) (shr_1 mrs) /\ (0 <= shr_m (shr_1 mrs))%Z.
Proof.
  destruct mrs as [m r s]. cbn [shr_m]. intros Hm.
  destruct m as [|[p|p|]|p]; [| | | |lia]; unfold located;
    destruct r, s; cbn [shr_1 shr_m shr_r shr_s orb];
    rewrite ?inject_Z_xO, ?inject_Z_xI;
    change (inject_Z 0) with 0; change (inject_Z 1) with 1;
    intros Hy; (split; [try rewrite Hy; lra|lia]).
Qed.

Lemma located_iter_shr_1 (p : positive) : forall (y : Q) (mrs : shr_record),
  (0 <= shr_m mrs)%Z -> located y mrs ->
  located (y * pow2 (- Zpos p)) (SpecFloat.iter_pos shr_1 p mrs)
  /\ (0 <= shr_m (SpecFloat.iter_pos shr_1 p mrs))%Z.
Proof.
  assert (Hstep : forall y mrs, (0 <= shr_m mrs)%Z -> located y mrs ->
            located (y * pow2 (-1)) (shr_1 mrs) /\ (0 <= shr_m (shr_1 mrs))%Z).
  { intros y mrs Hm Hy. apply located_shr_1; assumption. }
  induction p as [p IH|p IH|]; intros y mrs Hm Hy; cbn [SpecFloat.iter_pos].
  - destruct (Hstep y mrs Hm Hy) as [H1 Hm1].
    destruct (IH _ _ Hm1 H1) as [H2 Hm2]. destruct (IH _ _ Hm2 H2) as [H3 Hm3].
    split; [|exact Hm3]. eapply located_ext; [|exact H3].
    replace (- Zpos p~1)%Z with (-1 + (- Zpos p + - Zpos p))%Z by lia.
    rewrite !pow2_add. ring.
  - destruct (IH _ _ Hm Hy) as [H2 Hm2]. destruct (IH _ _ Hm2 H2) as [H3 Hm3].
    split; [|exact Hm3]. eapply located_ext; [|exact H3].
    replace (- Zpos p~0)%Z with (- Zpos p + - Zpos p)%Z by lia.
    rewrite !pow2_add. ring.
  - apply Hstep; assumption.
Qed.

Lemma inject_Z_half_lt (a b : Z) : inject_Z a <= inject_Z b + (1#2) -> (a <= b)%Z.
Proof.
  intros H. destruct (Z.le_gt_cases a b) as [Hle|Hgt]; [exact Hle|].
  assert (Hb : (b + 1 <= a)%Z) by lia. rewrite Zle_Qle, inject_Z_plus in Hb.
  change (inject_Z 1) with 1 in Hb. lra.
Qed.

Lemma inject_Z_half_le (a b : Z) : inject_Z a + (1#2) <= inject_Z b -> (a + 1 <= b)%Z.
Proof.
  intros H. destruct (Z.le_gt_cases (a + 1) b) as [Hle|Hgt]; [exact Hle|].
  assert (Hb : (b <= a)%Z) by lia. rewrite Zle_Qle in Hb. lra.
Qed.

Lemma round_nearest_even_spec (y : Q) (mrs : shr_record) :
  (0 <= shr_m mrs)%Z -> located y mrs ->
  let m1 := round_nearest_even (shr_m mrs) (loc_of_shr_record mrs) in
  rounds_to m1 y /\ (shr_m mrs <= m1 <= shr_m mrs + 1)%Z.
Proof.
  destruct mrs as [m r s]. cbn [shr_m]. intros Hm. unfold located, rounds_to.
  destruct r, s; cbn [shr_m shr_r shr_s loc_of_shr_record round_nearest_even];
    intros Hy.
  - (* above one half *)
    rewrite inject_Z_plus. change (inject_Z 1) with 1.
    split; [|lia]. split; [lra|]. split; [|split].
    + intros N HN. apply inject_Z_half_le. rewrite ?inject_Z_plus. change (inject_Z 1) with 1. lra.
    + intros N HN. apply inject_Z_half_lt. rewrite ?inject_Z_plus. change (inject_Z 1) with 1. lra.
    + intros [E|E]; lra.
  - (* one half *)
    destruct (Z.even m) eqn:Heven.
    + split; [|lia]. split; [lra|]. split; [|split].
      * intros N HN.
        assert (H1 : (m + 1 <= N)%Z) by (apply inject_Z_half_le; rewrite ?inject_Z_plus; change (inject_Z 1) with 1; lra). lia.
      * intros N HN. apply inject_Z_half_lt. rewrite ?inject_Z_plus. change (inject_Z 1) with 1. lra.
      * intros _. exact Heven.
    + rewrite inject_Z_plus. change (inject_Z 1) with 1.
      split; [|lia]. split; [lra|]. split; [|split].
      * intros N HN. apply inject_Z_half_le. rewrite ?inject_Z_plus. change (inject_Z 1) with 1. lra.
      * intros N HN.
        assert (H1 : (N <= m)%Z) by (apply inject_Z_half_lt; rewrite ?inject_Z_plus; change (inject_Z 1) with 1; lra). lia.
      * intros _. rewrite Z.even_add, Heven. reflexivity.
  - (* below one half *)
    split; [|lia]. split; [lra|]. split; [|split].
    + intros N HN.
      assert (H1 : inject_Z m < inject_Z N) by lra. rewrite <- Zlt_Qlt in H1. lia.
    + intros N HN. apply inject_Z_half_lt. rewrite ?inject_Z_plus. change (inject_Z 1) with 1. lra.
    + intros [E|E]; lra.
  - (* exact *)
    split; [|lia]. split; [lra|]. split; [|split].
    + intros N HN. rewrite Zle_Qle. lra.
    + intros N HN. rewrite Zle_Qle. lra.
    + intros [E|E]; lra.
Qed.

(** ** One rounding *)

#[local] Abbreviation fexp := (SpecFloat.fexp prec emax).


Ltac fexp_lia :=
  unfold SpecFloat.fexp, SpecFloat.emin in *;
  change prec with 53%Z in *; change emax with 1024%Z in *; lia.

Lemma fexp_ge (e : Z) : (emin <= fexp e)%Z /\ (e - prec <= fexp e)%Z.
Proof. unfold SpecFloat.fexp, SpecFloat.emin. lia. Qed.

Lemma fexp_mono (e f : Z) : (e <= f)%Z -> (fexp e <= fexp f)%Z.
Proof. unfold SpecFloat.fexp, SpecFloat.emin. lia. Qed.

Lemma shr_fexp_located (mx ex : Z) (lx : location) (y : Q) :
  (0 <= mx)%Z -> (ex <= fexp (Zdigits2 mx + ex))%Z ->
  located y (shr_record_of_loc mx lx) ->
  let g := fexp (Zdigits2 mx + ex) in
  snd (shr_fexp prec emax mx ex lx) = g
  /\ located (y * pow2 (ex - g)) (fst (shr_fexp prec emax mx ex lx))
  /\ (0 <= shr_m (fst (shr_fexp prec emax mx ex lx)))%Z.
Proof.
  intros Hm Hex Hy g. unfold shr_fexp, shr. fold g.
  assert (Hm0 : (0 <= shr_m (shr_record_of_loc mx lx))%Z).
  { destruct lx as [|[]]; exact Hm. }
  destruct (g - ex)%Z as [|p|p] eqn:Hn; cbn [fst snd]; [| |lia].
  - split; [lia|]. split; [|exact Hm0].
    eapply located_ext; [|exact Hy].
    replace (ex - g)%Z with 0%Z by lia. rewrite pow2_0. ring.
  - split; [lia|]. replace (ex - g)%Z with (- Zpos p)%Z by lia.
    apply located_iter_shr_1; assumption.
Qed.





Lemma Zdigits2_upper (m : Z) : (0 <= m)%Z -> (m + 1 <= 2 ^ Zdigits2 m)%Z.
Proof.
  destruct m as [|p|p]; [reflexivity| |lia]. intros _. cbn [Zdigits2].
  pose proof (digits2_pos_bounds p). lia.
Qed.

Lemma Zdigits2_lower (m : Z) : (0 < m)%Z -> (2 ^ (Zdigits2 m - 1) <= m)%Z.
Proof.
  destruct m as [|p|p]; [lia| |lia]. intros _. cbn [Zdigits2].
  pose proof (digits2_pos_bounds p). lia.
Qed.

Lemma Zdigits2_nonneg (m : Z) : (0 <= Zdigits2 m)%Z.
Proof. destruct m; cbn; lia. Qed.

Lemma shr_m_of_loc (m : Z) (l : location) : shr_m (shr_record_of_loc m l) = m.
Proof. destruct l as [|[]]; reflexivity. Qed.

Lemma located_scaled_bounds (mx ex : Z) (lx : location) (x : Q) :
  (0 <= mx)%Z ->
  located (x * pow2 (- ex)) (shr_record_of_loc mx lx) ->
  inject_Z mx * pow2 ex <= x /\ x < pow2 (Zdigits2 mx + ex).
Proof.
  intros Hm Hx. apply located_bounds in Hx. rewrite shr_m_of_loc in Hx.
  pose proof (pow2_pos ex) as He. pose proof (pow2_opp ex) as Hinv.
  pose proof (Zdigits2_upper mx Hm) as Hd.
  rewrite Zle_Qle, inject_Z_plus, <- pow2_Z in Hd by apply Zdigits2_nonneg.
  change (inject_Z 1) with 1 in Hd.
  assert (E : x == x * pow2 (- ex) * pow2 ex).
  { rewrite <- Qmult_assoc, (Qmult_comm (pow2 (- ex))), Hinv. ring. }
  split.
  - rewrite E. apply Qmult_le_compat_r; lra.
  - rewrite pow2_add, E. apply Qmult_lt_compat_r; lra.
Qed.

Lemma grid_of_located (mx ex : Z) (lx : location) (x : Q) :
  (0 <= mx)%Z -> (ex <= fexp (Zdigits2 mx + ex))%Z ->
  located (x * pow2 (- ex)) (shr_record_of_loc mx lx) ->
  grid_of x (fexp (Zdigits2 mx + ex)).
Proof.
  intros Hm Hex Hx. destruct (located_scaled_bounds mx ex lx x Hm Hx) as [Hlo Hhi].
  split; [apply fexp_ge|]. split.
  - intros k Hk. destruct (Z.eq_dec mx 0%Z) as [->|Hne].
    + cbn [Zdigits2] in *. fexp_lia.
    + apply fexp_mono.
      pose proof (Zdigits2_lower mx ltac:(lia)) as Hd.
      assert (Hp : pow2 (Zdigits2 mx - 1 + ex) <= inject_Z mx * pow2 ex).
      { rewrite pow2_add, pow2_Z.
        - apply Qmult_le_compat_r; [|apply Qlt_le_weak, pow2_pos].
          rewrite <- Zle_Qle. exact Hd.
        - pose proof (Zdigits2_nonneg mx). destruct mx; cbn in *; lia. }
      assert (Hlt : pow2 (Zdigits2 mx - 1 + ex) < pow2 k) by lra.
      apply pow2_lt_inv in Hlt. lia.
  - intros k Hk. apply fexp_mono.
    assert (Hlt : pow2 k < pow2 (Zdigits2 mx + ex)) by lra.
    apply pow2_lt_inv in Hlt. lia.
Qed.

Lemma pow2_53 : pow2 53 == inject_Z 9007199254740992.
Proof. reflexivity. Qed.

Lemma pow2_52 : pow2 52 == inject_Z 4503599627370496.
Proof. reflexivity. Qed.

Lemma inject_Z_lt_succ (a b : Z) : inject_Z a < inject_Z b + 1 -> (a <= b)%Z.
Proof.
  intros H. destruct (Z.le_gt_cases a b) as [Hle|Hgt]; [exact Hle|].
  assert (Hb : (b + 1 <= a)%Z) by lia. rewrite Zle_Qle, inject_Z_plus in Hb.
  change (inject_Z 1) with 1 in Hb. lra.
Qed.

(** The second normalisation of [binary_round_aux]: a mantissa of at most
    53 bits stays, and [2^53] becomes [2^52] one exponent up. *)
Lemma shr_fexp_normal (m1 g : Z) :
  (emin <= g)%Z -> (0 <= m1 < 9007199254740992)%Z ->
  shr_fexp prec emax m1 g loc_Exact = (Build_shr_record m1 false false, g).
Proof.
  intros Hg Hm. unfold shr_fexp, shr. cbn [shr_record_of_loc].
  assert (Hn : (fexp (Zdigits2 m1 + g) - g <= 0)%Z).
  { assert (Hd : (Zdigits2 m1 <= 53)%Z).
    { destruct (Z.eq_dec m1 0%Z) as [->|Hne]; [cbn; lia|].
      pose proof (Zdigits2_lower m1 ltac:(lia)) as Hlo.
      destruct (Z.le_gt_cases (Zdigits2 m1) 53) as [Hle|Hgt]; [exact Hle|].
      assert (H53 : (2 ^ 53 <= 2 ^ (Zdigits2 m1 - 1))%Z) by (apply Z.pow_le_mono_r; lia).
      change (2 ^ 53)%Z with 9007199254740992%Z in H53. lia. }
    fexp_lia. }
  destruct (fexp (Zdigits2 m1 + g) - g)%Z; [reflexivity|lia|reflexivity].
Qed.

Lemma shr_fexp_carry (g : Z) :
  (emin <= g)%Z ->
  shr_fexp prec emax 9007199254740992 g loc_Exact
  = (Build_shr_record 4503599627370496 false false, (g + 1)%Z).
Proof.
  intros Hg. unfold shr_fexp.
  assert (Hn : (fexp (54 + g) - g = 1)%Z) by fexp_lia.
  change (Zdigits2 9007199254740992) with 54%Z. rewrite Hn. reflexivity.
Qed.

Lemma binary_round_aux_spec (s : bool) (mx ex : Z) (lx : location) (x : Q) :
  (0 <= mx)%Z -> (ex <= fexp (Zdigits2 mx + ex))%Z ->
  located (x * pow2 (- ex)) (shr_record_of_loc mx lx) ->
  exists m1 : Z,
    (0 <= m1)%Z
    /\ rounds_to m1 (x * pow2 (- fexp (Zdigits2 mx + ex)))
    /\ represents s (binary_round_aux prec emax s mx ex lx) m1
         (fexp (Zdigits2 mx + ex)).
Proof.
  intros Hm Hex Hx. set (g := fexp (Zdigits2 mx + ex)).
  destruct (shr_fexp_located mx ex lx _ Hm Hex Hx) as (He' & Hloc & Hm').
  fold g in He', Hloc.
  destruct (located_scaled_bounds mx ex lx x Hm Hx) as [Hlo Hhi].
  unfold binary_round_aux.
  destruct (shr_fexp prec emax mx ex lx) as [mrs' e']. cbn [fst snd] in He', Hloc, Hm'.
  subst e'.
  assert (Hy : located (x * pow2 (- g)) mrs').
  { eapply located_ext; [|exact Hloc].
    rewrite <- Qmult_assoc, <- pow2_add. replace (- ex + (ex - g))%Z with (- g)%Z by lia.
    reflexivity. }
  destruct (round_nearest_even_spec _ _ Hm' Hy) as [Hround Hnear].
  set (m1 := round_nearest_even (shr_m mrs') (loc_of_shr_record mrs')) in *.
  pose proof (fexp_ge (Zdigits2 mx + ex)) as [Hg1 Hg2]. fold g in Hg1, Hg2.
  pose proof (pow2_pos g) as Hgpos. pose proof (pow2_pos (- g)) as Hgneg.
  pose proof (pow2_opp g) as Hginv.
  (* the mantissa before rounding has at most 53 bits *)
  assert (Hsmall : (shr_m mrs' < 9007199254740992)%Z).
  { apply located_bounds in Hy as [Hy _].
    assert (Hlt : x * pow2 (- g) < pow2 53).
    { apply Qlt_le_trans with (pow2 (Zdigits2 mx + ex) * pow2 (- g)).
      - apply Qmult_lt_compat_r; assumption.
      - rewrite <- pow2_add. apply pow2_le. fold g in Hg2. change prec with 53%Z in Hg2. lia. }
    rewrite pow2_53 in Hlt. rewrite Zlt_Qlt. lra. }
  exists m1. split; [lia|]. split; [exact Hround|].
  destruct (Z.eq_dec m1 9007199254740992%Z) as [Hcarry|Hnocarry].
  - (* rounding up to 2^53 *)
    rewrite Hcarry, shr_fexp_carry by exact Hg1. cbn [shr_m].
    destruct (Z.leb_spec (g + 1) (emax - prec)) as [Hle|Hgt]; cbn [represents].
    + split; [reflexivity|]. rewrite pow2_add, pow2_1.
      change (inject_Z 9007199254740992) with (2 * inject_Z 4503599627370496). ring.
    + split; [reflexivity|].
      apply Qle_trans with (pow2 53 * pow2 g).
      * rewrite <- pow2_add. apply pow2_le. change emax with 1024%Z in *.
        change prec with 53%Z in *. lia.
      * rewrite pow2_53. lra.
  - rewrite shr_fexp_normal by (exact Hg1 || lia). cbn [shr_m].
    destruct m1 as [|p|p] eqn:Hm1; [| |lia].
    + cbn [represents]. split; reflexivity.
    + destruct (Z.leb_spec g (emax - prec)) as [Hle|Hgt]; cbn [represents].
      * split; reflexivity.
      * split; [reflexivity|].
        (* a result beyond the largest exponent is normal *)
        assert (Hnormal : g = (Zdigits2 mx + ex - prec)%Z).
        { unfold g in *. fexp_lia. }
        assert (Hmx : (0 < mx)%Z).
        { destruct (Z.eq_dec mx 0%Z) as [E|E]; [|lia]. subst mx. cbn [Zdigits2] in *.
          unfold g in *. fexp_lia. }
        assert (Hbig : pow2 52 <= x * pow2 (- g)).
        { apply Qle_trans with (inject_Z mx * pow2 ex * pow2 (- g)).
          - apply Qle_trans with (pow2 (Zdigits2 mx - 1 + ex) * pow2 (- g)).
            + rewrite <- pow2_add. apply pow2_le. change prec with 53%Z in Hnormal. lia.
            + apply Qmult_le_compat_r; [|lra].
              pose proof (Zdigits2_lower mx Hmx) as Hd.
              rewrite pow2_add, pow2_Z.
              * apply Qmult_le_compat_r; [|apply Qlt_le_weak, pow2_pos].
                rewrite <- Zle_Qle. exact Hd.
              * pose proof (Zdigits2_nonneg mx). destruct mx; cbn in *; lia.
          - apply Qmult_le_compat_r; lra. }
        destruct Hround as (_ & _ & Hbelow & _).
        specialize (Hbelow 4503599627370496%Z). rewrite <- pow2_52 in Hbelow.
        specialize (Hbelow Hbig).
        apply Qle_trans with (pow2 52 * pow2 g).
        -- rewrite <- pow2_add. apply pow2_le. change emax with 1024%Z in *.
           change prec with 53%Z in *. lia.
        -- apply Qmult_le_compat_r; [|lra]. rewrite pow2_52, <- Zle_Qle. exact Hbelow.
Qed.





Lemma valid_finite (s : bool) (m : positive) (e : Z) :
  valid_binary (S754_finite s m e) = true ->
  e = fexp (Zpos (digits2_pos m) + e) /\ (e <= emax - prec)%Z.
Proof.
  unfold valid_binary. cbn [SpecFloat.valid_binary]. unfold bounded, canonical_mantissa.
  intros [Hc He]%andb_true_iff. apply Z.eqb_eq in Hc. apply Z.leb_le in He.
  split; [symmetry; exact Hc|exact He].
Qed.

Lemma val_positive (m : positive) (e : Z) : 0 < val (S754_finite false m e).
Proof.
  cbn [val]. apply Qmult_lt_0_compat; [|apply pow2_pos].
  change 0 with (inject_Z 0). rewrite <- Zlt_Qlt. lia.
Qed.

Lemma nonneg_finite_val (r : spec_float) : nonneg_finite r = true -> 0 <= val r.
Proof.
  intros H. destruct r as [[]|[]| |[] m e]; try discriminate H.
  - cbn. lra.
  - apply Qlt_le_weak, val_positive.
Qed.

Lemma val_below_emax (m : positive) (e : Z) :
  valid_binary (S754_finite false m e) = true ->
  val (S754_finite false m e) < pow2 emax.
Proof.
  intros [Hc He]%valid_finite. cbn [val].
  destruct (digits_bounds m e) as [_ Hhi].
  apply Qlt_le_trans with (1 := Hhi). apply pow2_le. fexp_lia.
Qed.

(** A rounding does not pass a float: what lies below a float is rounded
    to at most this float. *)
Lemma RN_le (x : Q) (r B : spec_float) :
  RN x r -> valid_binary B = true -> positive_finite B = true ->
  x <= val B -> nonneg_finite r = true /\ val r <= val B.
Proof.
  intros (g & m1 & (Hgmin & Hgup & _) & Hm1 & (_ & Hup & _) & Hr) HB HpB Hx.
  destruct B as [| | |[] nB eB]; try discriminate HpB.
  destruct (valid_finite _ _ _ HB) as [Hc He].
  destruct (digits_bounds nB eB) as [_ Hhi].
  assert (Hg : (g <= eB)%Z).
  { rewrite Hc. apply Hgup. cbn [val] in Hx. lra. }
  pose proof (pow2_pos g) as Hgpos. pose proof (pow2_pos (- g)) as Hgneg.
  pose proof (pow2_opp g) as Hginv.
  assert (HN : val (S754_finite false nB eB) == inject_Z (Zpos nB * 2 ^ (eB - g)) * pow2 g).
  { cbn [val]. rewrite inject_Z_mult, <- pow2_Z by lia.
    rewrite <- Qmult_assoc, <- pow2_add. replace (eB - g + g)%Z with eB by lia.
    reflexivity. }
  assert (Hm : (m1 <= Zpos nB * 2 ^ (eB - g))%Z).
  { apply Hup. apply Qle_trans with (val (S754_finite false nB eB) * pow2 (- g)).
    - apply Qmult_le_compat_r; lra.
    - rewrite HN, <- Qmult_assoc, Hginv. lra. }
  assert (Hv : inject_Z m1 * pow2 g <= val (S754_finite false nB eB)).
  { rewrite HN. apply Qmult_le_compat_r; [|lra]. rewrite <- Zle_Qle. exact Hm. }
  pose proof (val_below_emax _ _ HB) as Hfin.
  pose proof (val_positive nB eB) as Hpos.
  destruct r as [sr|sr| |sr mr er]; cbn [represents] in Hr.
  - destruct Hr as [-> _]. split; [reflexivity|]. cbn [val] in *. lra.
  - destruct Hr as [_ Hr]. lra.
  - contradiction.
  - destruct Hr as [-> Hr]. split; [reflexivity|].
    change (val (S754_finite false mr er)) with (inject_Z (Zpos mr) * pow2 er). lra.
Qed.

Lemma RN_sign (x : Q) (r : spec_float) :
  RN x r -> nonneg_finite r = true \/ r = S754_infinity false.
Proof.
  intros (g & m1 & _ & _ & _ & Hr).
  destruct r as [sr|sr| |sr mr er]; cbn [represents] in Hr.
  - destruct Hr as [-> _]. left. reflexivity.
  - destruct Hr as [-> _]. right. reflexivity.
  - contradiction.
  - destruct Hr as [-> _]. left. reflexivity.
Qed.

(** In the normal range a rounding errs by at most [2^-53] of what is
    rounded. *)
Lemma RN_error (x : Q) (r : spec_float) :
  RN x r -> pow2 (emin + 52) <= x -> val r <= x + x * pow2 (- 53).
Proof.
  intros (g & m1 & (Hgmin & Hgup & _) & Hm1 & ((Hnear & _) & _) & Hr) Hx.
  pose proof (pow2_pos g) as Hgpos. pose proof (pow2_pos (- g)) as Hgneg.
  pose proof (pow2_opp g) as Hginv. pose proof (pow2_pos (emin + 52)) as Hmin.
  pose proof (pow2_pos (- 53)) as H53.
  assert (Hbig : pow2 (g + 52) <= x).
  { destruct (Qlt_le_dec x (pow2 (g + 52))) as [Hlt|Hle]; [|exact Hle].
    apply Hgup in Hlt. assert (g = emin) as -> by fexp_lia. exact Hx. }
  assert (Hhalf : pow2 g * (1#2) <= x * pow2 (- 53)).
  { apply Qle_trans with (pow2 (g + 52) * pow2 (- 53)).
    - rewrite <- pow2_add. replace (g + 52 + - 53)%Z with (g + -1)%Z by lia.
      rewrite pow2_add. change (pow2 (-1)) with (1#2). lra.
    - apply Qmult_le_compat_r; lra. }
  assert (Hv : inject_Z m1 * pow2 g <= x + x * pow2 (- 53)).
  { apply Qle_trans with ((x * pow2 (- g) + (1#2)) * pow2 g).
    - apply Qmult_le_compat_r; lra.
    - rewrite Qmult_plus_distr_l, <- Qmult_assoc, (Qmult_comm (pow2 (- g))), Hginv. lra. }
  destruct r as [sr|sr| |sr mr er]; cbn [represents] in Hr; cbn [val].
  - nra.
  - nra.
  - contradiction.
  - destruct Hr as [-> Hr]. lra.
Qed.

(** ** The operations round *)

Lemma located_exact (m e : Z) (x : Q) :
  x == inject_Z m * pow2 e ->
  located (x * pow2 (- e)) (shr_record_of_loc m loc_Exact).
Proof.
  intros E. unfold located. cbn [shr_record_of_loc shr_r shr_s shr_m].
  rewrite E, <- Qmult_assoc, pow2_opp. ring.
Qed.

Lemma RN_of_round_aux (mx ex : Z) (lx : location) (x : Q) :
  (0 <= mx)%Z -> (ex <= fexp (Zdigits2 mx + ex))%Z ->
  located (x * pow2 (- ex)) (shr_record_of_loc mx lx) ->
  RN x (binary_round_aux prec emax false mx ex lx).
Proof.
  intros Hm Hex Hx.
  destruct (binary_round_aux_spec false mx ex lx x Hm Hex Hx) as (m1 & Hm1 & Hr & Hrep).
  exists (fexp (Zdigits2 mx + ex)), m1.
  split; [apply (grid_of_located mx ex lx); assumption|]. auto.
Qed.

Lemma digits2_pos_mul (m1 m2 : positive) :
  (Zpos (digits2_pos m1) + Zpos (digits2_pos m2) - 1
   <= Zpos (digits2_pos (m1 * m2)))%Z.
Proof.
  pose proof (digits2_pos_bounds m1) as [H1 _].
  pose proof (digits2_pos_bounds m2) as [H2 _].
  pose proof (digits2_pos_bounds (m1 * m2)) as [_ H3].
  assert (Hp : (2 ^ (Zpos (digits2_pos m1) - 1 + (Zpos (digits2_pos m2) - 1))
                <= Zpos m1 * Zpos m2)%Z).
  { rewrite Z.pow_add_r by lia. apply Z.mul_le_mono_nonneg; lia. }
  rewrite Pos2Z.inj_mul in H3.
  assert (Hlt : (2 ^ (Zpos (digits2_pos m1) - 1 + (Zpos (digits2_pos m2) - 1))
                 < 2 ^ Zpos (digits2_pos (m1 * m2)))%Z) by lia.
  apply Z.pow_lt_mono_r_iff in Hlt; lia.
Qed.

Lemma SFmul_RN (x y : spec_float) :
  valid_binary x = true -> valid_binary y = true ->
  positive_finite x = true -> positive_finite y = true ->
  RN (val x * val y) (SFmul prec emax x y).
Proof.
  intros Hvx Hvy Hx Hy.
  destruct x as [| | |[] mx ex]; try discriminate Hx.
  destruct y as [| | |[] my ey]; try discriminate Hy.
  destruct (valid_finite _ _ _ Hvx) as [Hcx _].
  destruct (valid_finite _ _ _ Hvy) as [Hcy _].
  cbn [SFmul xorb]. apply RN_of_round_aux.
  - lia.
  - cbn [Zdigits2]. pose proof (digits2_pos_mul mx my).
    pose proof (Pos2Z.is_pos (digits2_pos mx)). pose proof (Pos2Z.is_pos (digits2_pos my)).
    fexp_lia.
  - apply located_exact. cbn [val]. rewrite Pos2Z.inj_mul, inject_Z_mult, pow2_add. ring.
Qed.

(** *** Alignment *)

Lemma iter_xO_spec (m d : positive) :
  Zpos (Pos.iter xO m d) = (Zpos m * 2 ^ Zpos d)%Z
  /\ Zpos (digits2_pos (Pos.iter xO m d)) = (Zpos (digits2_pos m) + Zpos d)%Z.
Proof.
  induction d as [|d [IH1 IH2]] using Pos.peano_ind.
  - cbn [Pos.iter digits2_pos]. rewrite Pos2Z.inj_succ. split; [|lia].
    change (Zpos m~0) with (2 * Zpos m)%Z. change (2 ^ 1)%Z with 2%Z. lia.
  - rewrite Pos.iter_succ. cbn [digits2_pos]. rewrite !Pos2Z.inj_succ, IH2.
    split; [|lia].
    change (Zpos (Pos.iter xO m d)~0) with (2 * Zpos (Pos.iter xO m d))%Z.
    rewrite IH1, Z.pow_succ_r by lia. ring.
Qed.

Lemma shl_align_spec (m : positive) (e e' : Z) :
  inject_Z (Zpos (fst (shl_align m e e'))) * pow2 (snd (shl_align m e e'))
  == inject_Z (Zpos m) * pow2 e
  /\ (Zpos (digits2_pos (fst (shl_align m e e'))) + snd (shl_align m e e')
      = Zpos (digits2_pos m) + e)%Z
  /\ snd (shl_align m e e') = Z.min e e'.
Proof.
  unfold shl_align. destruct (e' - e)%Z as [|d|d] eqn:Hd; cbn [fst snd].
  - split; [reflexivity|]. split; lia.
  - split; [reflexivity|]. split; lia.
  - destruct (iter_xO_spec m d) as [H1 H2]. rewrite H1, H2.
    split; [|split; lia].
    rewrite inject_Z_mult, <- pow2_Z by lia.
    rewrite <- Qmult_assoc, <- pow2_add. replace (Zpos d + e')%Z with e by lia.
    reflexivity.
Qed.

Lemma binary_round_RN (m : positive) (e : Z) :
  RN (inject_Z (Zpos m) * pow2 e) (binary_round prec emax false m e).
Proof.
  unfold binary_round.
  destruct (shl_align_spec m e (fexp (Zpos (digits2_pos m) + e))) as (Hv & Hd & He).
  destruct (shl_align m e (fexp (Zpos (digits2_pos m) + e))) as [mz ez].
  cbn [fst snd] in Hv, Hd, He. apply RN_of_round_aux.
  - lia.
  - cbn [Zdigits2]. rewrite Hd. lia.
  - apply located_exact. symmetry. exact Hv.
Qed.

Lemma binary_round_sign (s : bool) (m : positive) (e : Z) :
  SFabs (binary_round prec emax s m e) = binary_round prec emax false m e.
Proof.
  rewrite (SFabs_binary_round s false).
  destruct (RN_sign _ _ (binary_round_RN m e)) as [H|H].
  - destruct (binary_round prec emax false m e) as [[]|[]| |[] m' e'];
      try discriminate H; reflexivity.
  - rewrite H. reflexivity.
Qed.

Lemma rounds_to_ext (m1 : Z) (y y' : Q) : y == y' -> rounds_to m1 y -> rounds_to m1 y'.
Proof.
  intros E (Hn & Hu & Hl & Ht). unfold rounds_to.
  split; [lra|]. split; [|split].
  - intros N HN. apply Hu. lra.
  - intros N HN. apply Hl. lra.
  - intros Hy. apply Ht. destruct Hy as [Hy|Hy]; [left|right]; lra.
Qed.

Lemma rounds_to_exact (m : Z) (y : Q) : y == inject_Z m -> rounds_to m y.
Proof.
  intros E. unfold rounds_to. split; [lra|]. split; [|split].
  - intros N HN. rewrite Zle_Qle. lra.
  - intros N HN. rewrite Zle_Qle. lra.
  - intros [H|H]; lra.
Qed.

Lemma grid_of_ext (x x' : Q) (g : Z) : x == x' -> grid_of x g -> grid_of x' g.
Proof.
  intros E (Hm & Hu & Hl). split; [exact Hm|]. split.
  - intros k Hk. apply Hu. lra.
  - intros k Hk. apply Hl. lra.
Qed.

Lemma RN_ext (x x' : Q) (r : spec_float) : x == x' -> RN x r -> RN x' r.
Proof.
  intros E (g & m1 & Hg & Hm & Hr & Hrep). exists g, m1.
  split; [apply (grid_of_ext x); assumption|]. split; [exact Hm|].
  split; [|exact Hrep]. apply (rounds_to_ext m1 (x * pow2 (- g))); [|exact Hr].
  rewrite E. reflexivity.
Qed.

Lemma RN_zero : RN 0 (S754_zero false).
Proof.
  exists emin, 0%Z. split; [|split; [lia|split]].
  - split; [lia|]. split.
    + intros k _. apply fexp_ge.
    + intros k Hk. pose proof (pow2_pos k). lra.
  - apply rounds_to_exact. change (inject_Z 0) with 0. ring.
  - split; reflexivity.
Qed.

(** A float is the rounding of its own value. *)
Lemma RN_self (y : spec_float) :
  valid_binary y = true -> nonneg_finite y = true -> RN (val y) y.
Proof.
  intros Hv Hy. destruct y as [[]|[]| |[] m e]; try discriminate Hy.
  - apply RN_zero.
  - destruct (valid_finite _ _ _ Hv) as [Hc He].
    destruct (digits_bounds m e) as [Hlo Hhi].
    exists e, (Zpos m). split; [|split; [lia|split]].
    + split; [rewrite Hc; apply fexp_ge|]. split.
      * intros k Hk. rewrite Hc. apply fexp_mono.
        assert (Hlt : pow2 (Zpos (digits2_pos m) - 1 + e) < pow2 k) by (cbn [val] in Hk; lra).
        apply pow2_lt_inv in Hlt. lia.
      * intros k Hk. rewrite Hc. apply fexp_mono.
        assert (Hlt : pow2 k < pow2 (Zpos (digits2_pos m) + e)) by (cbn [val] in Hk; lra).
        apply pow2_lt_inv in Hlt. lia.
    + apply rounds_to_exact. cbn [val]. rewrite <- Qmult_assoc, pow2_opp. ring.
    + split; reflexivity.
Qed.

Lemma SFadd_RN (x y : spec_float) :
  valid_binary x = true -> valid_binary y = true ->
  nonneg_finite x = true -> nonneg_finite y = true ->
  RN (val x + val y) (SFadd prec emax x y).
Proof.
  intros Hvx Hvy Hx Hy.
  destruct x as [[]|[]| |[] mx ex]; try discriminate Hx;
    destruct y as [[]|[]| |[] my ey]; try discriminate Hy; cbn [SFadd].
  - apply (RN_ext 0); [cbn; ring|apply RN_zero].
  - apply (RN_ext (val (S754_finite false my ey))); [cbn; ring|].
    apply RN_self; [exact Hvy|reflexivity].
  - apply (RN_ext (val (S754_finite false mx ex))); [cbn; ring|].
    apply RN_self; [exact Hvx|reflexivity].
  - cbn [cond_Zopp].
    destruct (shl_align_spec mx ex (Z.min ex ey)) as (Hx1 & _ & Hx3).
    destruct (shl_align_spec my ey (Z.min ex ey)) as (Hy1 & _ & Hy3).
    replace (Z.min ex (Z.min ex ey)) with (Z.min ex ey) in Hx3 by lia.
    replace (Z.min ey (Z.min ex ey)) with (Z.min ex ey) in Hy3 by lia.
    rewrite Hx3 in Hx1. rewrite Hy3 in Hy1.
    change (Zpos (fst (shl_align mx ex (Z.min ex ey)))
            + Zpos (fst (shl_align my ey (Z.min ex ey))))%Z
      with (Zpos (fst (shl_align mx ex (Z.min ex ey))
                  + fst (shl_align my ey (Z.min ex ey)))).
    cbn [binary_normalize].
    eapply RN_ext; [|apply binary_round_RN].
    rewrite Pos2Z.inj_add, inject_Z_plus, Qmult_plus_distr_l, Hx1, Hy1.
    reflexivity.
Qed.

Lemma SFsub_RN (x y : spec_float) :
  valid_binary x = true -> valid_binary y = true ->
  nonneg_finite x = true -> nonneg_finite y = true ->
  val y <= val x ->
  RN (val x - val y) (SFsub prec emax x y).
Proof.
  intros Hvx Hvy Hx Hy Hle.
  destruct x as [[]|[]| |[] mx ex]; try discriminate Hx;
    destruct y as [[]|[]| |[] my ey]; try discriminate Hy; cbn [SFsub].
  - apply (RN_ext 0); [cbn; ring|apply RN_zero].
  - pose proof (val_positive my ey). cbn [val] in *. lra.
  - apply (RN_ext (val (S754_finite false mx ex))); [cbn; ring|].
    apply RN_self; [exact Hvx|reflexivity].
  - cbn [cond_Zopp].
    destruct (shl_align_spec mx ex (Z.min ex ey)) as (Hx1 & _ & Hx3).
    destruct (shl_align_spec my ey (Z.min ex ey)) as (Hy1 & _ & Hy3).
    replace (Z.min ex (Z.min ex ey)) with (Z.min ex ey) in Hx3 by lia.
    replace (Z.min ey (Z.min ex ey)) with (Z.min ex ey) in Hy3 by lia.
    rewrite Hx3 in Hx1. rewrite Hy3 in Hy1.
    set (a := fst (shl_align mx ex (Z.min ex ey))) in *.
    set (b := fst (shl_align my ey (Z.min ex ey))) in *.
    pose proof (pow2_pos (Z.min ex ey)) as Hpos.
    assert (Hab : (Zpos b <= Zpos a)%Z).
    { rewrite Zle_Qle. cbn [val] in Hle. rewrite <- Hx1, <- Hy1 in Hle.
      apply Qmult_le_r in Hle; assumption. }
    assert (E : val (S754_finite false mx ex) - val (S754_finite false my ey)
                == inject_Z (Zpos a - Zpos b) * pow2 (Z.min ex ey)).
    { cbn [val]. rewrite <- Hx1, <- Hy1. unfold Z.sub.
      rewrite inject_Z_plus, inject_Z_opp. ring. }
    destruct (Zpos a - Zpos b)%Z as [|p|p] eqn:Hd; [| |lia]; cbn [binary_normalize].
    + apply (RN_ext 0); [|apply RN_zero]. rewrite E. change (inject_Z 0) with 0. ring.
    + eapply RN_ext; [|apply binary_round_RN]. symmetry. exact E.
Qed.

(** *** Division *)

Lemma pow2_inv (e : Z) : pow2 (- e) == / pow2 e.
Proof. apply Qpower_opp. Qed.

Lemma inject_Z_pos (m : positive) : 0 < inject_Z (Zpos m).
Proof. change 0 with (inject_Z 0). rewrite <- Zlt_Qlt. lia. Qed.

Lemma new_location_located (q r nb : Z) :
  (0 < nb)%Z -> (0 <= r < nb)%Z ->
  located (inject_Z q + inject_Z r / inject_Z nb)
    (shr_record_of_loc q (new_location nb r)).
Proof.
  intros Hnb Hr.
  assert (Hpos : 0 < inject_Z nb) by (change 0 with (inject_Z 0); rewrite <- Zlt_Qlt; lia).
  set (t := inject_Z r / inject_Z nb).
  assert (Hzero : r = 0%Z -> t == 0).
  { intros ->. unfold t. change (inject_Z 0) with 0. apply Qmult_0_l. }
  assert (Hgt : (0 < r)%Z -> 0 < t).
  { intros H. unfold t. apply Qlt_shift_div_l; [exact Hpos|].
    rewrite Qmult_0_l. change 0 with (inject_Z 0). rewrite <- Zlt_Qlt. exact H. }
  assert (Hone : t < 1).
  { unfold t. apply Qlt_shift_div_r; [exact Hpos|]. rewrite Qmult_1_l, <- Zlt_Qlt. lia. }
  assert (Hlow : (2 * r < nb)%Z -> t < 1#2).
  { intros H. unfold t. apply Qlt_shift_div_r; [exact Hpos|].
    rewrite Zlt_Qlt, inject_Z_mult in H. change (inject_Z 2) with 2 in H. lra. }
  assert (Hhigh : (nb < 2 * r)%Z -> 1#2 < t).
  { intros H. unfold t. apply Qlt_shift_div_l; [exact Hpos|].
    rewrite Zlt_Qlt, inject_Z_mult in H. change (inject_Z 2) with 2 in H. lra. }
  assert (Hmid : (2 * r = nb)%Z -> t == 1#2).
  { intros H. apply Qle_antisym.
    - unfold t. apply Qle_shift_div_r; [exact Hpos|].
      rewrite <- H, inject_Z_mult. change (inject_Z 2) with 2. lra.
    - unfold t. apply Qle_shift_div_l; [exact Hpos|].
      rewrite <- H, inject_Z_mult. change (inject_Z 2) with 2. lra. }
  clearbody t.
  unfold new_location, new_location_even, new_location_odd.
  change IntDef.Z.even with Z.even.
  destruct (Z.even nb) eqn:Heven; cbv beta;
    (destruct (Z.eqb_spec r 0) as [Hr0|Hr0];
     [specialize (Hzero Hr0); unfold located;
      cbn [shr_record_of_loc shr_r shr_s shr_m]; lra|]).
  - assert (Hrpos : (0 < r)%Z) by lia. specialize (Hgt Hrpos).
    destruct (Z.compare_spec (2 * r) nb) as [E|E|E]; unfold located;
      cbn [shr_record_of_loc shr_r shr_s shr_m].
    + specialize (Hmid E). lra.
    + specialize (Hlow E). lra.
    + specialize (Hhigh E). lra.
  - assert (Hrpos : (0 < r)%Z) by lia. specialize (Hgt Hrpos).
    assert (Hodd : (nb <> 2 * r)%Z).
    { intros E. rewrite E, Z.even_mul in Heven. discriminate Heven. }
    destruct (Z.compare_spec (2 * r + 1) nb) as [E|E|E]; unfold located;
      cbn [shr_record_of_loc shr_r shr_s shr_m].
    + specialize (Hlow ltac:(lia)). lra.
    + specialize (Hlow ltac:(lia)). lra.
    + specialize (Hhigh ltac:(lia)). lra.
Qed.

Lemma SFdiv_RN (x y : spec_float) :
  nonneg_finite x = true -> positive_finite y = true ->
  RN (val x / val y) (SFdiv prec emax x y).
Proof.
  intros Hx Hy.
  destruct y as [| | |[] my ey]; try discriminate Hy.
  destruct x as [[]|[]| |[] mx ex]; try discriminate Hx; cbn [SFdiv xorb].
  - apply (RN_ext 0); [|apply RN_zero]. cbn [val]. unfold Qdiv. ring.
  - unfold SFdiv_core_binary. cbn [Zdigits2].
    set (d1 := Zpos (digits2_pos mx)). set (d2 := Zpos (digits2_pos my)).
    set (e' := Z.min (fexp (d1 + ex - (d2 + ey))) (ex - ey)).
    set (s := (ex - ey - e')%Z).
    assert (Hs : (0 <= s)%Z) by (unfold s, e'; lia).
    assert (Hm' : match s with
                  | Z0 => Zpos mx
                  | Zpos _ => Z.shiftl (Zpos mx) s
                  | Zneg _ => 0%Z
                  end = (Zpos mx * 2 ^ s)%Z).
    { destruct s as [|p|p] eqn:Es; [cbn; lia| |lia].
      rewrite Z.shiftl_mul_pow2 by lia. reflexivity. }
    rewrite Hm'.
    pose proof (Z.div_eucl_eq (Zpos mx * 2 ^ s) (Zpos my) ltac:(lia)) as Heq.
    pose proof (Z.mod_pos_bound (Zpos mx * 2 ^ s) (Zpos my) ltac:(lia)) as Hrem.
    pose proof (Z.div_pos (Zpos mx * 2 ^ s) (Zpos my)
                  ltac:(apply Z.mul_nonneg_nonneg; [lia|apply Z.pow_nonneg; lia])
                  ltac:(lia)) as Hq.
    unfold Z.modulo, Z.div in Hrem, Hq.
    destruct (Z.div_eucl (Zpos mx * 2 ^ s) (Zpos my)) as [q r].
    apply RN_of_round_aux.
    + exact Hq.
    + destruct (Z.le_gt_cases e' emin) as [Hsub|Hnorm].
      { pose proof (fexp_ge (Zdigits2 q + e')). lia. }
      assert (He' : (e' <= d1 + ex - (d2 + ey) - 53)%Z) by (unfold e' in *; fexp_lia).
      set (a := (d1 - 1 + s - d2)%Z).
      assert (Ha : (52 <= a)%Z) by (unfold a, s; lia).
      pose proof (digits2_pos_bounds mx) as [Hmx _]. fold d1 in Hmx.
      pose proof (digits2_pos_bounds my) as [_ Hmy]. fold d2 in Hmy.
      assert (Hd2 : (0 < d2)%Z) by (unfold d2; lia).
      assert (Hd1 : (0 < d1)%Z) by (unfold d1; lia).
      assert (Hbig : (2 ^ a * 2 ^ d2 <= Zpos mx * 2 ^ s)%Z).
      { rewrite <- Z.pow_add_r by lia. replace (a + d2)%Z with (d1 - 1 + s)%Z by (unfold a; lia).
        rewrite Z.pow_add_r by lia. apply Z.mul_le_mono_nonneg_r; [apply Z.pow_nonneg; lia|lia]. }
      assert (Hqa : (2 ^ a <= q)%Z).
      { assert (Hpa : (0 < 2 ^ a)%Z) by (apply Z.pow_pos_nonneg; lia).
        assert (Hpd : (0 < 2 ^ d2)%Z) by (apply Z.pow_pos_nonneg; lia).
        nia. }
      assert (Hq0 : (0 < q)%Z).
      { assert (Hpa : (0 < 2 ^ a)%Z) by (apply Z.pow_pos_nonneg; lia). lia. }
      pose proof (Zdigits2_upper q Hq) as Hdq.
      assert (Hlt : (2 ^ a < 2 ^ Zdigits2 q)%Z) by lia.
      apply Z.pow_lt_mono_r_iff in Hlt; [|lia|apply Zdigits2_nonneg].
      apply Z.le_trans with (fexp (d1 + ex - (d2 + ey))); [unfold e'; lia|].
      apply fexp_mono. unfold a, s in Hlt. lia.
    + eapply located_ext; [|apply (new_location_located q r (Zpos my)); lia].
      cbn [val].
      pose proof (pow2_pos ey) as Hey. pose proof (inject_Z_pos my) as Hmy.
      assert (E1 : inject_Z q + inject_Z r / inject_Z (Zpos my)
                   == inject_Z (Zpos mx) * pow2 s / inject_Z (Zpos my)).
      { rewrite (pow2_Z s Hs), <- inject_Z_mult, Heq.
        rewrite inject_Z_plus, inject_Z_mult. field. lra. }
      rewrite E1. unfold s.
      replace (ex - ey - e')%Z with (ex + (- ey + - e'))%Z by lia.
      rewrite !pow2_add, (pow2_inv ey). field. split; lra.
Qed.

(** *** Products with zero *)

Lemma SFmul_RN_nonneg (x y : spec_float) :
  valid_binary x = true -> valid_binary y = true ->
  nonneg_finite x = true -> nonneg_finite y = true ->
  RN (val x * val y) (SFmul prec emax x y).
Proof.
  intros Hvx Hvy Hx Hy.
  destruct x as [[]|[]| |[] mx ex]; try discriminate Hx;
    destruct y as [[]|[]| |[] my ey]; try discriminate Hy.
  - apply (RN_ext 0); [cbn; ring|apply RN_zero].
  - apply (RN_ext 0); [cbn; ring|apply RN_zero].
  - apply (RN_ext 0); [cbn; ring|apply RN_zero].
  - apply SFmul_RN; (assumption || reflexivity).
Qed.

(** ** Comparisons *)

Lemma val_lt_of_exponent (mx my : positive) (ex ey : Z) :
  valid_binary (S754_finite false mx ex) = true ->
  valid_binary (S754_finite false my ey) = true ->
  (ex < ey)%Z ->
  val (S754_finite false mx ex) < val (S754_finite false my ey).
Proof.
  intros [Hcx _]%valid_finite [Hcy _]%valid_finite Hlt.
  destruct (digits_bounds mx ex) as [_ Hx]. destruct (digits_bounds my ey) as [Hy _].
  cbn [val]. apply Qlt_le_trans with (1 := Hx). apply Qle_trans with (2 := Hy).
  apply pow2_le. fexp_lia.
Qed.

Lemma val_mantissa (m m' : positive) (e : Z) :
  inject_Z (Zpos m) * pow2 e <= inject_Z (Zpos m') * pow2 e <-> (m <= m')%positive.
Proof.
  pose proof (pow2_pos e) as He. rewrite Qmult_le_r by exact He.
  rewrite <- Zle_Qle. reflexivity.
Qed.

Lemma SFleb_val (x y : spec_float) :
  valid_binary x = true -> valid_binary y = true ->
  nonneg_finite x = true -> nonneg_finite y = true ->
  (SFleb x y = true <-> val x <= val y).
Proof.
  intros Hvx Hvy Hx Hy. unfold SFleb.
  destruct x as [[]|[]| |[] mx ex]; try discriminate Hx;
    destruct y as [[]|[]| |[] my ey]; try discriminate Hy; cbn [SFcompare].
  - cbn. split; [intros _; lra|reflexivity].
  - pose proof (val_positive my ey). cbn [val] in *. split; [intros _; lra|reflexivity].
  - pose proof (val_positive mx ex). cbn [val] in *. split; [discriminate|lra].
  - destruct (Z.compare_spec ex ey) as [E|E|E].
    + subst ey. change (Pos.compare_cont Eq mx my) with (Pos.compare mx my).
      cbn [val]. rewrite val_mantissa.
      destruct (Pos.compare_spec mx my); split; (discriminate || lia || reflexivity).
    + pose proof (val_lt_of_exponent _ _ _ _ Hvx Hvy E). split; [intros _; lra|reflexivity].
    + pose proof (val_lt_of_exponent _ _ _ _ Hvy Hvx E). split; [discriminate|lra].
Qed.

(** ** Integers as floats *)

Lemma binary_round_exact (m : positive) (e : Z) :
  let mz := fst (shl_align m e (fexp (Zpos (digits2_pos m) + e))) in
  let ez := snd (shl_align m e (fexp (Zpos (digits2_pos m) + e))) in
  (fexp (Zpos (digits2_pos m) + e) <= e)%Z -> (ez <= emax - prec)%Z ->
  binary_round prec emax false m e = S754_finite false mz ez
  /\ valid_binary (S754_finite false mz ez) = true.
Proof.
  intros mz ez Hfit Hmax. unfold binary_round.
  destruct (shl_align_spec m e (fexp (Zpos (digits2_pos m) + e))) as (_ & Hd & He).
  fold mz ez in Hd, He.
  destruct (shl_align m e (fexp (Zpos (digits2_pos m) + e))) as [mz' ez'].
  cbn [fst snd] in mz, ez. subst mz ez.
  assert (Hn : (fexp (Zpos (digits2_pos mz') + ez') - ez')%Z = 0%Z) by (rewrite Hd; lia).
  split.
  - unfold binary_round_aux, shr_fexp. cbn [Zdigits2 shr_record_of_loc].
    rewrite Hn. cbn [shr shr_m loc_of_shr_record round_nearest_even Zdigits2 shr_record_of_loc].
    rewrite Hn. cbn [shr shr_m].
    destruct (Z.leb_spec ez' (emax - prec)); [reflexivity|lia].
  - unfold valid_binary. cbn [SpecFloat.valid_binary]. unfold bounded, canonical_mantissa.
    apply andb_true_iff. split; [apply Z.eqb_eq; lia|apply Z.leb_le; exact Hmax].
Qed.


Lemma float_of_Z_exact (k : Z) :
  (0 <= k < 9007199254740992)%Z ->
  valid_binary (Prim2SF (float_of_Z k)) = true
  /\ nonneg_finite (Prim2SF (float_of_Z k)) = true
  /\ val (Prim2SF (float_of_Z k)) == inject_Z k.
Proof.
  intros Hk. unfold float_of_Z.
  destruct k as [|m|m]; [| |lia]; cbn [binary_normalize].
  - change (Prim2SF (SF2Prim (S754_zero false))) with (S754_zero false).
    split; [reflexivity|]. split; reflexivity.
  - pose proof (digits2_pos_bounds m) as [Hlo _].
    assert (Hd : (Zpos (digits2_pos m) <= 53)%Z).
    { destruct (Z.le_gt_cases (Zpos (digits2_pos m)) 53) as [Hle|Hgt]; [exact Hle|].
      assert (H53 : (2 ^ 53 <= 2 ^ (Zpos (digits2_pos m) - 1))%Z) by (apply Z.pow_le_mono_r; lia).
      change (2 ^ 53)%Z with 9007199254740992%Z in H53. lia. }
    destruct (shl_align_spec m 0 (fexp (Zpos (digits2_pos m) + 0))) as (Hv & _ & He).
    destruct (binary_round_exact m 0) as [Hround Hvalid].
    + fexp_lia.
    + rewrite He. fexp_lia.
    + rewrite Hround, (Prim2SF_SF2Prim _ Hvalid).
      split; [exact Hvalid|]. split; [reflexivity|].
      cbn [val]. rewrite Hv, pow2_0. ring.
Qed.
End Rounding.

(** ** Bounds on binary64 results *)

Section FloatBounds.
#[local] Open Scope Q_scope.

Lemma below_nonneg (x B : float) : below x B -> 0 <= fval x.
Proof. intros [Hx _]. apply nonneg_finite_val, Hx. Qed.

Lemma mul_below (x y B : float) :
  nonneg_finite (Prim2SF x) = true -> nonneg_finite (Prim2SF y) = true ->
  positive_finite (Prim2SF B) = true ->
  fval x * fval y <= fval B -> below (x * y) B.
Proof.
  intros Hx Hy HB Hle. unfold below, fval. rewrite mul_spec.
  apply (RN_le (val (Prim2SF x) * val (Prim2SF y))); try assumption.
  - apply SFmul_RN_nonneg; try assumption; apply Prim2SF_valid.
  - apply Prim2SF_valid.
Qed.

Lemma div_below (x y B : float) :
  nonneg_finite (Prim2SF x) = true -> positive_finite (Prim2SF y) = true ->
  positive_finite (Prim2SF B) = true ->
  fval x / fval y <= fval B -> below (x / y) B.
Proof.
  intros Hx Hy HB Hle. unfold below, fval. rewrite div_spec.
  apply (RN_le (val (Prim2SF x) / val (Prim2SF y))); try assumption.
  - apply SFdiv_RN; assumption.
  - apply Prim2SF_valid.
Qed.

Lemma add_below (x y B : float) :
  nonneg_finite (Prim2SF x) = true -> nonneg_finite (Prim2SF y) = true ->
  positive_finite (Prim2SF B) = true ->
  fval x + fval y <= fval B -> below (x + y) B.
Proof.
  intros Hx Hy HB Hle. unfold below, fval. rewrite add_spec.
  apply (RN_le (val (Prim2SF x) + val (Prim2SF y))); try assumption.
  - apply SFadd_RN; try assumption; apply Prim2SF_valid.
  - apply Prim2SF_valid.
Qed.

Lemma sub_below (x y B : float) :
  nonneg_finite (Prim2SF x) = true -> nonneg_finite (Prim2SF y) = true ->
  positive_finite (Prim2SF B) = true ->
  fval y <= fval x -> fval x - fval y <= fval B -> below (x - y) B.
Proof.
  intros Hx Hy HB Hyx Hle. unfold below, fval. rewrite sub_spec.
  apply (RN_le (val (Prim2SF x) - val (Prim2SF y))); try assumption.
  - apply SFsub_RN; try assumption; apply Prim2SF_valid.
  - apply Prim2SF_valid.
Qed.

Lemma SFabs_nonneg (r : spec_float) :
  nonneg_finite r = true \/ r = S754_infinity false -> SFabs r = r.
Proof.
  intros [H| ->]; [|reflexivity].
  destruct r as [[]|[]| |[] m e]; try discriminate H; reflexivity.
Qed.

Lemma abs_sub_below (x y B : float) :
  nonneg_finite (Prim2SF x) = true -> nonneg_finite (Prim2SF y) = true ->
  positive_finite (Prim2SF B) = true ->
  Qabs (fval x - fval y) <= fval B -> below (abs (x - y)) B.
Proof.
  intros Hx Hy HB Hle. unfold below, fval in *. rewrite abs_spec, sub_spec.
  unfold SF64sub.
  destruct (Qlt_le_dec (val (Prim2SF x)) (val (Prim2SF y))) as [Hlt|Hge].
  - rewrite SFabs_sub_comm.
    assert (HRN : RN (val (Prim2SF y) - val (Prim2SF x))
                    (SFsub prec emax (Prim2SF y) (Prim2SF x))).
    { apply SFsub_RN; try assumption; try apply Prim2SF_valid. lra. }
    rewrite (SFabs_nonneg _ (RN_sign _ _ HRN)).
    apply (RN_le _ _ _ HRN); [apply Prim2SF_valid|exact HB|].
    rewrite Qabs_neg in Hle by lra. lra.
  - assert (HRN : RN (val (Prim2SF x) - val (Prim2SF y))
                    (SFsub prec emax (Prim2SF x) (Prim2SF y))).
    { apply SFsub_RN; try assumption; try apply Prim2SF_valid. }
    rewrite (SFabs_nonneg _ (RN_sign _ _ HRN)).
    apply (RN_le _ _ _ HRN); [apply Prim2SF_valid|exact HB|].
    rewrite Qabs_pos in Hle by lra. lra.
Qed.

(** A sum that lies at most half a step above a float with an even
    mantissa is rounded to at most this float. *)
Lemma RN_le_even (x : Q) (r : spec_float) (nB : positive) (eB : Z) :
  RN x r -> valid_binary (S754_finite false nB eB) = true ->
  Z.even (Zpos nB) = true ->
  x <= val (S754_finite false nB eB) + pow2 eB * (1#2) ->
  nonneg_finite r = true /\ val r <= val (S754_finite false nB eB).
Proof.
  intros HRN HB Heven Hx.
  destruct (Qlt_le_dec (val (S754_finite false nB eB)) x) as [Hgt|Hle];
    [|apply (RN_le x); (assumption || reflexivity)].
  destruct HRN as (g & m1 & (Hgmin & Hgup & Hglo) & Hm1 & ((Hnear & _) & _ & _ & Htie) & Hr).
  destruct (valid_finite _ _ _ HB) as [Hc He].
  destruct (digits_bounds nB eB) as [Hlo Hhi].
  pose proof (digits2_pos_bounds nB) as [_ HnB].
  pose proof (pow2_pos eB) as HeB. pose proof (pow2_pos (- eB)) as HeB'.
  pose proof (pow2_opp eB) as Hinv.
  cbn [val] in Hx, Hgt.
  assert (Hsucc : inject_Z (Zpos nB) + 1 <= pow2 (Zpos (digits2_pos nB))).
  { rewrite pow2_Z by lia. change 1 with (inject_Z 1).
    rewrite <- inject_Z_plus, <- Zle_Qle. lia. }
  assert (Hg : g = eB).
  { apply Z.le_antisymm.
    - rewrite Hc. apply Hgup. rewrite pow2_add.
      apply Qle_lt_trans with (1 := Hx).
      apply Qlt_le_trans with ((inject_Z (Zpos nB) + 1) * pow2 eB); [lra|].
      apply Qmult_le_compat_r; lra.
    - rewrite Hc at 1.
      replace (Zpos (digits2_pos nB) + eB)%Z with (Zpos (digits2_pos nB) - 1 + eB + 1)%Z by lia.
      apply Hglo. lra. }
  subst g.
  assert (Hy1 : inject_Z (Zpos nB) < x * pow2 (- eB)).
  { apply Qle_lt_trans with (inject_Z (Zpos nB) * pow2 eB * pow2 (- eB)).
    - rewrite <- Qmult_assoc, Hinv. lra.
    - apply Qmult_lt_compat_r; assumption. }
  assert (Hy2 : x * pow2 (- eB) <= inject_Z (Zpos nB) + (1#2)).
  { apply Qle_trans with ((inject_Z (Zpos nB) * pow2 eB + pow2 eB * (1#2)) * pow2 (- eB)).
    - apply Qmult_le_compat_r; lra.
    - rewrite Qmult_plus_distr_l, <- !Qmult_assoc, (Qmult_comm (1#2)), !Qmult_assoc.
      rewrite <- (Qmult_assoc (inject_Z (Zpos nB))), Hinv. lra. }
  assert (Hm : (m1 <= Zpos nB)%Z).
  { assert (Hm' : (m1 <= Zpos nB + 1)%Z).
    { apply inject_Z_lt_succ. rewrite inject_Z_plus. change (inject_Z 1) with 1. lra. }
    destruct (Z.eq_dec m1 (Zpos nB + 1)%Z) as [E|E]; [|lia].
    assert (Heven1 : Z.even m1 = true).
    { apply Htie. right. rewrite E, inject_Z_plus. change (inject_Z 1) with 1.
      rewrite E, inject_Z_plus in Hnear. change (inject_Z 1) with 1 in Hnear. lra. }
    rewrite E, Z.even_add, Heven in Heven1. discriminate Heven1. }
  assert (Hv : inject_Z m1 * pow2 eB <= inject_Z (Zpos nB) * pow2 eB).
  { apply Qmult_le_compat_r; [|lra]. rewrite <- Zle_Qle. exact Hm. }
  pose proof (val_below_emax _ _ HB) as Hfin. cbn [val] in Hfin.
  pose proof (val_positive nB eB) as Hpos. cbn [val] in Hpos.
  destruct r as [sr|sr| |sr mr er]; cbn [represents] in Hr.
  - destruct Hr as [-> _]. split; [reflexivity|]. cbn [val]. lra.
  - destruct Hr as [_ Hr]. lra.
  - contradiction.
  - destruct Hr as [-> Hr]. split; [reflexivity|]. cbn [val]. lra.
Qed.

Lemma add_below_even (x y B : float) (nB : positive) (eB : Z) :
  nonneg_finite (Prim2SF x) = true -> nonneg_finite (Prim2SF y) = true ->
  Prim2SF B = S754_finite false nB eB -> Z.even (Zpos nB) = true ->
  fval x + fval y <= fval B + pow2 eB * (1#2) -> below (x + y) B.
Proof.
  intros Hx Hy HB Heven Hle. unfold below, fval in *. rewrite add_spec, HB in *.
  apply (RN_le_even (val (Prim2SF x) + val (Prim2SF y))); try assumption.
  - apply SFadd_RN; try assumption; apply Prim2SF_valid.
  - rewrite <- HB. apply Prim2SF_valid.
Qed.

(** In the normal range a product errs by at most [2^-53] of itself. *)
Lemma mul_error (x y : float) :
  nonneg_finite (Prim2SF x) = true -> nonneg_finite (Prim2SF y) = true ->
  pow2 (emin + 52) <= fval x * fval y ->
  fval (x * y) <= fval x * fval y + fval x * fval y * pow2 (- 53).
Proof.
  intros Hx Hy Hn. unfold fval in *. rewrite mul_spec.
  apply RN_error; [|exact Hn].
  apply SFmul_RN_nonneg; try assumption; apply Prim2SF_valid.
Qed.

(** *** Comparisons of floats *)

Lemma below_leb (x B : float) :
  positive_finite (Prim2SF B) = true -> below x B -> (x <=? B)%float = true.
Proof.
  intros HB [Hx Hle]. rewrite leb_spec. apply SFleb_val; try apply Prim2SF_valid.
  - exact Hx.
  - destruct (Prim2SF B) as [| | |[] m e]; try discriminate HB; reflexivity.
  - exact Hle.
Qed.

Lemma nonneg_leb (x : float) :
  nonneg_finite (Prim2SF x) = true -> (0 <=? x)%float = true.
Proof.
  intros Hx. rewrite leb_spec. apply SFleb_val; try apply Prim2SF_valid.
  - reflexivity.
  - exact Hx.
  - change (val (Prim2SF 0)) with 0. apply nonneg_finite_val, Hx.
Qed.

(** A float between [0.0] and a positive finite float [B] that is not
    zero is positive and finite, with a value of at most that of [B]. *)
Lemma between_positive (x B : float) :
  positive_finite (Prim2SF B) = true ->
  (0 <=? x)%float = true -> (x <=? B)%float = true ->
  PrimFloat.is_zero x = false ->
  positive_finite (Prim2SF x) = true /\ fval x <= fval B.
Proof.
  intros HB H0 HxB Hz. unfold PrimFloat.is_zero in Hz.
  rewrite FloatAxioms.eqb_spec in Hz. rewrite leb_spec in H0, HxB.
  change (Prim2SF 0) with (S754_zero false) in H0.
  change (Prim2SF PrimFloat.zero) with (S754_zero false) in Hz.
  pose proof (Prim2SF_valid x) as Hvx. pose proof (Prim2SF_valid B) as HvB.
  unfold fval.
  destruct (Prim2SF B) as [| | |[] mB eB]; try discriminate HB.
  destruct (Prim2SF x) as [sx|sx| |sx mx ex].
  - discriminate Hz.
  - destruct sx; discriminate.
  - discriminate.
  - destruct sx; [discriminate|]. split; [reflexivity|].
    apply SFleb_val; (assumption || reflexivity).
Qed.

(** *** Integers *)

Lemma nonneg_val_zero (r : spec_float) :
  nonneg_finite r = true -> val r == 0 -> r = S754_zero false.
Proof.
  intros Hr Hv. destruct r as [[]|[]| |[] m e]; try discriminate Hr; [reflexivity|].
  pose proof (val_positive m e). lra.
Qed.

Lemma nonneg_val_positive (r : spec_float) :
  nonneg_finite r = true -> 0 < val r -> positive_finite r = true.
Proof.
  intros Hr Hv. destruct r as [[]|[]| |[] m e]; try discriminate Hr; [|reflexivity].
  cbn in Hv. lra.
Qed.

Lemma float_of_Z_nonneg (k : Z) :
  (0 <= k < 2 ^ 53)%Z ->
  nonneg_finite (Prim2SF (float_of_Z k)) = true /\ fval (float_of_Z k) == inject_Z k.
Proof.
  intros Hk. change (2 ^ 53)%Z with 9007199254740992%Z in Hk.
  destruct (float_of_Z_exact k Hk) as (_ & Hn & Hv). split; assumption.
Qed.

Lemma float_of_Z_positive (k : Z) :
  (0 < k < 2 ^ 53)%Z ->
  positive_finite (Prim2SF (float_of_Z k)) = true /\ fval (float_of_Z k) == inject_Z k.
Proof.
  intros Hk. destruct (float_of_Z_nonneg k ltac:(lia)) as [Hn Hv].
  split; [|exact Hv]. apply nonneg_val_positive; [exact Hn|].
  unfold fval in Hv. rewrite Hv. change 0 with (inject_Z 0). rewrite <- Zlt_Qlt. lia.
Qed.

(** ** The sub-scores of the metadata similarity *)

Ltac closed_le := apply Qle_bool_imp_le; vm_compute; reflexivity.

Lemma fval_1 : fval 1 == 1.
Proof. vm_compute. reflexivity. Qed.

Lemma fval_5 : fval 5 == 5.
Proof. vm_compute. reflexivity. Qed.

Lemma fval_0 : fval 0 == 0.
Proof. vm_compute. reflexivity. Qed.

Lemma below_zero (B : float) : 0 <= fval B -> below 0 B.
Proof. intros HB. split; [reflexivity|]. rewrite fval_0. exact HB. Qed.

Lemma below_weaken (x B B' : float) : below x B -> fval B <= fval B' -> below x B'.
Proof. intros [Hx Hle] HB. split; [exact Hx|lra]. Qed.

(** [weight * k / u] for [0 <= k <= u]: the product errs by at most
    [2^-53] of itself, and the quotient does not pass the float [weight'],
    which lies above [weight * (1 + 2^-53)]. *)
Lemma overlap_below (w w' : float) (k u : Z) :
  positive_finite (Prim2SF w) = true -> positive_finite (Prim2SF w') = true ->
  pow2 (emin + 52) <= fval w -> fval w <= 1 ->
  fval w + fval w * pow2 (- 53) <= fval w' ->
  (0 <= k <= u)%Z -> (1 <= u < 2 ^ 53)%Z ->
  below (w * float_of_Z k / float_of_Z u) w'.
Proof.
  intros Hw Hw' Hnormal Hw1 Hstep Hk Hu.
  destruct (float_of_Z_nonneg k ltac:(lia)) as [HK HKv].
  destruct (float_of_Z_positive u ltac:(lia)) as [HU HUv].
  assert (Hwn : nonneg_finite (Prim2SF w) = true).
  { destruct (Prim2SF w) as [| | |[] m e]; try discriminate Hw; reflexivity. }
  assert (Hwpos : 0 < fval w).
  { unfold fval. destruct (Prim2SF w) as [| | |[] m e]; try discriminate Hw.
    apply val_positive. }
  assert (Hk0 : 0 <= inject_Z k) by (change 0 with (inject_Z 0); rewrite <- Zle_Qle; lia).
  assert (Hku : inject_Z k <= inject_Z u) by (rewrite <- Zle_Qle; lia).
  assert (Hu1 : 1 <= inject_Z u) by (change 1 with (inject_Z 1); rewrite <- Zle_Qle; lia).
  assert (Hu53 : inject_Z u <= fval 9007199254740992).
  { assert (E : fval 9007199254740992 == inject_Z (2 ^ 53)) by (vm_compute; reflexivity).
    rewrite E, <- Zle_Qle. lia. }
  (* the product *)
  assert (Hp : below (w * float_of_Z k) 9007199254740992).
  { apply mul_below; [exact Hwn|exact HK|reflexivity|].
    rewrite HKv. apply Qle_trans with (1 * inject_Z u); [|lra].
    apply Qmult_le_compat_nonneg; split; lra. }
  assert (Hpv : fval (w * float_of_Z k)
                <= (fval w + fval w * pow2 (- 53)) * inject_Z k).
  { destruct (Z.eq_dec k 0%Z) as [->|Hkne].
    - assert (E : Prim2SF (float_of_Z 0) = S754_zero false) by reflexivity.
      unfold fval at 1. rewrite mul_spec, E.
      destruct (Prim2SF w) as [| | |[] m e]; try discriminate Hw.
      cbn. change (inject_Z 0) with 0. lra.
    - assert (Hk1 : 1 <= inject_Z k) by (change 1 with (inject_Z 1); rewrite <- Zle_Qle; lia).
      pose proof (mul_error w (float_of_Z k) Hwn HK) as Herr. rewrite HKv in Herr.
      assert (Hprod : fval w * 1 <= fval w * inject_Z k).
      { apply Qmult_le_compat_nonneg; split; lra. }
      rewrite Qmult_plus_distr_l.
      rewrite <- (Qmult_assoc (fval w) (pow2 (- 53))), (Qmult_comm (pow2 (- 53))), Qmult_assoc.
      apply Herr. lra. }
  (* the quotient *)
  assert (Heps : 0 <= fval w * pow2 (- 53)).
  { apply Qmult_le_0_compat; [lra|apply Qlt_le_weak, pow2_pos]. }
  apply div_below; [apply Hp|exact HU|exact Hw'|].
  rewrite HUv. apply Qle_shift_div_r; [lra|].
  apply Qle_trans with (1 := Hpv).
  apply Qle_trans with (fval w' * inject_Z k).
  - apply Qmult_le_compat_r; lra.
  - apply Qmult_le_compat_nonneg; split; lra.
Qed.

(** [weight * (1 - y)] for a quotient [y] between [0] and [1]. *)
Lemma closeness_below (w y : float) :
  positive_finite (Prim2SF w) = true -> below y 1 -> below (w * (1 - y)) w.
Proof.
  intros Hw Hy.
  assert (Hwn : nonneg_finite (Prim2SF w) = true).
  { destruct (Prim2SF w) as [| | |[] m e]; try discriminate Hw; reflexivity. }
  assert (Hwpos : 0 <= fval w) by (apply nonneg_finite_val, Hwn).
  pose proof (below_nonneg _ _ Hy) as Hy0. destruct Hy as [Hyn Hy1].
  assert (Hz : below (1 - y) 1).
  { apply sub_below; [reflexivity|exact Hyn|reflexivity|exact Hy1|]. lra. }
  pose proof (below_nonneg _ _ Hz) as Hz0. destruct Hz as [Hzn Hz1].
  apply mul_below; [exact Hwn|exact Hzn|exact Hw|].
  rewrite fval_1 in Hz1.
  apply Qle_trans with (fval w * 1); [|lra].
  apply Qmult_le_compat_nonneg; split; lra.
Qed.

Lemma rating_below (r1 r2 : float) :
  positive_finite (Prim2SF r1) = true -> fval r1 <= fval 5 ->
  positive_finite (Prim2SF r2) = true -> fval r2 <= fval 5 ->
  below (0.2 * (1 - abs (r1 - r2) / 5)) 0.2.
Proof.
  intros H1 Hv1 H2 Hv2. apply closeness_below; [reflexivity|].
  assert (Hn : forall r, positive_finite (Prim2SF r) = true ->
                 nonneg_finite (Prim2SF r) = true /\ 0 < fval r).
  { intros r Hr. unfold fval. destruct (Prim2SF r) as [| | |[] m e]; try discriminate Hr.
    split; [reflexivity|apply val_positive]. }
  destruct (Hn r1 H1) as [Hn1 Hp1]. destruct (Hn r2 H2) as [Hn2 Hp2].
  assert (Hd : below (abs (r1 - r2)) 5).
  { apply abs_sub_below; [exact Hn1|exact Hn2|reflexivity|].
    apply Qabs_Qle_condition. lra. }
  pose proof (below_nonneg _ _ Hd) as Hd0. destruct Hd as [Hdn Hd5].
  apply div_below; [exact Hdn|reflexivity|reflexivity|].
  rewrite fval_5 in *. rewrite fval_1.
  apply Qle_shift_div_r; lra.
Qed.

Lemma length_below (p1 p2 : Z) :
  (0 < p1 < 2 ^ 53)%Z -> (0 < p2 < 2 ^ 53)%Z ->
  below (0.1 * (1 - float_of_Z (Z.abs (p1 - p2)) / float_of_Z (Z.max p1 p2))) 0.1.
Proof.
  intros H1 H2. apply closeness_below; [reflexivity|].
  destruct (float_of_Z_nonneg (Z.abs (p1 - p2)) ltac:(lia)) as [HP HPv].
  destruct (float_of_Z_positive (Z.max p1 p2) ltac:(lia)) as [HM HMv].
  apply div_below; [exact HP|exact HM|reflexivity|].
  rewrite HPv, HMv, fval_1.
  apply Qle_shift_div_r.
  - change 0 with (inject_Z 0). rewrite <- Zlt_Qlt. lia.
  - rewrite Qmult_1_l, <- Zle_Qle. lia.
Qed.

(** *** Sizes of the sets *)

Lemma size_list_to_set_le (l : list string) :
  (size (list_to_set l : gset string) <= length l)%nat.
Proof.
  induction l as [|x l IH]; [rewrite list_to_set_nil, size_empty; lia|].
  rewrite list_to_set_cons, size_union_alt, size_singleton. cbn [length].
  assert (Hsub : list_to_set l ∖ {[x]} ⊆ (list_to_set l : gset string))
    by (apply subseteq_difference_l; reflexivity).
  apply subseteq_size in Hsub. lia.
Qed.

Lemma overlap_sizes (l1 l2 : list string) :
  (Z.of_nat (length l1) < 2 ^ 52)%Z -> (Z.of_nat (length l2) < 2 ^ 52)%Z ->
  let k := Z.of_nat (size (set_of l1 ∩ set_of l2)) in
  let u := Z.max (Z.of_nat (size (set_of l1 ∪ set_of l2))) 1 in
  (0 <= k <= u)%Z /\ (1 <= u < 2 ^ 53)%Z.
Proof.
  intros H1 H2 k u. subst k u. unfold set_of.
  set (A := list_to_set l1 : gset string). set (B := list_to_set l2 : gset string).
  pose proof (size_list_to_set_le l1) as HA. pose proof (size_list_to_set_le l2) as HB.
  fold A in HA. fold B in HB.
  assert (Hsub : A ∩ B ⊆ A ∪ B)
    by (etrans; [apply intersection_subseteq_l|apply union_subseteq_l]).
  apply subseteq_size in Hsub.
  assert (Hdiff : B ∖ A ⊆ B) by (apply subseteq_difference_l; reflexivity).
  apply subseteq_size in Hdiff.
  pose proof (size_union_alt A B) as Hunion.
  change (2 ^ 52)%Z with 4503599627370496%Z in *.
  change (2 ^ 53)%Z with 9007199254740992%Z. lia.
Qed.

(** *** The parts and their sum *)

Lemma overlap_part_below (w w' : float) (l1 l2 : list string) (p : float) :
  positive_finite (Prim2SF w) = true -> positive_finite (Prim2SF w') = true ->
  pow2 (emin + 52) <= fval w -> fval w <= 1 ->
  fval w + fval w * pow2 (- 53) <= fval w' ->
  (Z.of_nat (length l1) < 2 ^ 52)%Z -> (Z.of_nat (length l2) < 2 ^ 52)%Z ->
  overlap_part w l1 l2 = Some p -> below p w'.
Proof.
  intros Hw Hw' Hn H1 Hstep Hl1 Hl2. unfold overlap_part.
  destruct (nonempty (set_of l1) && nonempty (set_of l2)); [|discriminate].
  intros [= <-]. destruct (overlap_sizes l1 l2 Hl1 Hl2) as [Hk Hu].
  apply overlap_below; assumption.
Qed.

Lemma category_part_below (a b : Book float) (p : float) :
  in_domain a -> in_domain b -> category_part a b = Some p ->
  below p 0.4000000000000001.
Proof.
  intros (_ & _ & Ha & _) (_ & _ & Hb & _).
  apply overlap_part_below; (assumption || reflexivity || closed_le).
Qed.

Lemma author_part_below (a b : Book float) (p : float) :
  in_domain a -> in_domain b -> author_part a b = Some p ->
  below p 0.30000000000000004.
Proof.
  intros (_ & _ & _ & Ha) (_ & _ & _ & Hb).
  apply overlap_part_below; (assumption || reflexivity || closed_le).
Qed.

Lemma truthy_rating (r : option float) :
  (forall x, r = Some x -> (0 <=? x)%float = true /\ (x <=? 5)%float = true) ->
  truthy_number r = true ->
  positive_finite (Prim2SF (default 0%float r)) = true
  /\ fval (default 0%float r) <= fval 5.
Proof.
  intros Hdom Ht. destruct r as [x|]; [|discriminate Ht].
  destruct (Hdom x eq_refl) as [H0 H5]. cbn [truthy_number] in Ht.
  apply negb_true_iff in Ht. cbn [default].
  apply between_positive; (assumption || reflexivity).
Qed.

Lemma rating_part_below (a b : Book float) (p : float) :
  in_domain a -> in_domain b -> rating_part a b = Some p -> below p 0.2.
Proof.
  intros (Ha & _) (Hb & _). unfold rating_part.
  destruct (truthy_number (average_rating a)) eqn:Hta; [|discriminate].
  destruct (truthy_number (average_rating b)) eqn:Htb; [|discriminate].
  intros [= <-].
  destruct (truthy_rating _ Ha Hta) as [H1 Hv1].
  destruct (truthy_rating _ Hb Htb) as [H2 Hv2].
  apply rating_below; assumption.
Qed.

Lemma truthy_pages (q : option Z) :
  (forall p, q = Some p -> (0 <= p < 2 ^ 53)%Z) -> truthy_int q = true ->
  (0 < default 0%Z q < 2 ^ 53)%Z.
Proof.
  intros Hdom Ht. destruct q as [p|]; [|discriminate Ht].
  specialize (Hdom p eq_refl). cbn [truthy_int] in Ht.
  apply negb_true_iff in Ht. apply Z.eqb_neq in Ht.
  change (default 0%Z (Some p)) with p. lia.
Qed.

Lemma length_part_below (a b : Book float) (p : float) :
  in_domain a -> in_domain b -> length_part a b = Some p -> below p 0.1.
Proof.
  intros (_ & Ha & _) (_ & Hb & _). unfold length_part.
  destruct (truthy_int (page_count a)) eqn:Hta; [|discriminate].
  destruct (truthy_int (page_count b)) eqn:Htb; [|discriminate].
  intros [= <-].
  apply length_below; apply truthy_pages; assumption.
Qed.

Lemma add_part_below (s : float) (part : option float) (B Bp B' : float) :
  below s B -> (forall p, part = Some p -> below p Bp) ->
  positive_finite (Prim2SF B') = true ->
  fval B + fval Bp <= fval B' -> fval B <= fval B' ->
  below (add_part s part) B'.
Proof.
  intros Hs Hpart HB' Hsum Hle. destruct part as [p|]; cbn [add_part].
  - destruct (Hpart p eq_refl) as [Hp Hpv]. destruct Hs as [Hsn Hsv].
    apply add_below; try assumption. lra.
  - apply (below_weaken s B); assumption.
Qed.

Lemma add_part_below_even (s : float) (part : option float) (B Bp B' : float)
    (nB : positive) (eB : Z) :
  below s B -> (forall p, part = Some p -> below p Bp) ->
  Prim2SF B' = S754_finite false nB eB -> Z.even (Zpos nB) = true ->
  fval B + fval Bp <= fval B' + pow2 eB * (1#2) -> fval B <= fval B' ->
  below (add_part s part) B'.
Proof.
  intros Hs Hpart HB' Heven Hsum Hle. destruct part as [p|]; cbn [add_part].
  - destruct (Hpart p eq_refl) as [Hp Hpv]. destruct Hs as [Hsn Hsv].
    apply (add_below_even s p B' nB eB); try assumption. lra.
  - apply (below_weaken s B); assumption.
Qed.

Lemma below_between (x B : float) :
  positive_finite (Prim2SF B) = true -> below x B -> float_between 0 B x.
Proof.
  intros HB Hx. split; [apply nonneg_leb, Hx|apply below_leb; assumption].
Qed.

Lemma metadata_similarity_parts (a b : Book float) :
  calculate_metadata_similarity a b
  = add_part
      (add_part
         (add_part (add_part 0%float (category_part a b)) (author_part a b))
         (rating_part a b))
      (length_part a b).
Proof.
  destruct float_literals as (E1 & E2 & E3 & E4 & _ & E0 & Eone & E5).
  unfold calculate_metadata_similarity, category_part, author_part, overlap_part,
    rating_part, length_part, set_of. cbv zeta.
  rewrite E1, E2, E3, E4, E0, Eone, E5.
  cbn [nadd nsub nmul ndiv nabs of_int float_number].
  destruct (nonempty (list_to_set (categories a)) && nonempty (list_to_set (categories b)));
    destruct (nonempty (list_to_set (authors a)) && nonempty (list_to_set (authors b)));
    destruct (truthy_number (average_rating a) && truthy_number (average_rating b));
    destruct (truthy_int (page_count a) && truthy_int (page_count b));
    reflexivity.
Qed.

Lemma metadata_similarity_below (a b : Book float) :
  in_domain a -> in_domain b ->
  below (calculate_metadata_similarity a b) 1.0000000000000002.
Proof.
  intros Ha Hb. rewrite metadata_similarity_parts.
  apply (add_part_below _ _ 0.9000000000000001 0.1);
    [|intros p; apply length_part_below; assumption|reflexivity|closed_le|closed_le].
  apply (add_part_below_even _ _ 0.7000000000000002 0.2 _ 8106479329266894 (-53));
    [|intros p; apply rating_part_below; assumption|reflexivity|reflexivity
     |closed_le|closed_le].
  apply (add_part_below _ _ 0.4000000000000001 0.30000000000000004);
    [|intros p; apply author_part_below; assumption|reflexivity|closed_le|closed_le].
  apply (add_part_below _ _ 0 0.4000000000000001);
    [apply below_zero; closed_le
    |intros p; apply category_part_below; assumption
    |reflexivity|closed_le|closed_le].
Qed.
(** *** The combined similarity *)

(** A float between [0.0] and [B] is a zero of either sign, or positive
    with a value of at most that of [B]. *)
Lemma between_cases (x B : float) :
  positive_finite (Prim2SF B) = true -> float_between 0 B x ->
  (exists s, Prim2SF x = S754_zero s)
  \/ (positive_finite (Prim2SF x) = true /\ fval x <= fval B).
Proof.
  intros HB [H0 HxB]. destruct (PrimFloat.is_zero x) eqn:Hz.
  - left. unfold PrimFloat.is_zero in Hz. rewrite FloatAxioms.eqb_spec in Hz.
    change (Prim2SF PrimFloat.zero) with (S754_zero false) in Hz.
    destruct (Prim2SF x) as [s|[]| |[] m e]; try discriminate Hz. eauto.
  - right. apply between_positive; assumption.
Qed.

(** A zero times a weight adds nothing to a score. *)
Lemma zero_mul_add (x w y : float) (s : bool) :
  Prim2SF x = S754_zero s -> positive_finite (Prim2SF w) = true ->
  nonneg_finite (Prim2SF y) = true ->
  Prim2SF (x * w + y) = Prim2SF y.
Proof.
  intros Hx Hw Hy. rewrite add_spec, mul_spec, Hx.
  destruct (Prim2SF w) as [| | |[] mw ew]; try discriminate Hw.
  destruct (Prim2SF y) as [[]| | |[] my ey]; try discriminate Hy;
    destruct s; reflexivity.
Qed.

Lemma content_similarity_between
    (self : BookSimilarityEngine float) (a b : Book float) :
  unit_vectorizer self ->
  float_between 0 1 (calculate_content_similarity self a b).
Proof.
  intros Hunit. unfold calculate_content_similarity. cbv zeta.
  destruct (tfidf_cosine self _ _) as [v|] eqn:Hv; [apply (Hunit _ _ v Hv)|].
  split; reflexivity.
Qed.

Lemma metadata_weight_below (m : float) :
  below m 1.0000000000000002 -> below (m * 0.4) 0.40000000000000013.
Proof.
  intros [Hm Hle]. apply mul_below; [exact Hm|reflexivity|reflexivity|].
  assert (H0 : 0 <= fval m) by apply nonneg_finite_val, Hm.
  assert (Hw : 0 <= fval 0.4) by closed_le.
  assert (Hc : fval 1.0000000000000002 * fval 0.4 <= fval 0.40000000000000013)
    by closed_le.
  nra.
Qed.

Lemma combined_similarity_below
    (self : BookSimilarityEngine float) (a b : Book float) :
  unit_vectorizer self -> in_domain a -> in_domain b ->
  below (combined_similarity self a b) 1.
Proof.
  intros Hunit Ha Hb. unfold combined_similarity, CONTENT_WEIGHT, METADATA_WEIGHT.
  cbv zeta. destruct float_literals as (_ & _ & _ & -> & -> & _).
  cbn [nadd nmul float_number].
  pose proof (metadata_weight_below _ (metadata_similarity_below a b Ha Hb)) as [Hy Hyv].
  destruct (between_cases _ 1 eq_refl (content_similarity_between self a b Hunit))
    as [[s Hz]|[Hc Hcv]].
  - pose proof (zero_mul_add _ 0.6 _ s Hz eq_refl Hy) as E.
    split; [rewrite E; exact Hy|]. unfold fval at 1. rewrite E.
    fold (fval (calculate_metadata_similarity a b * 0.4)).
    assert (fval 0.40000000000000013 <= fval 1) by closed_le. lra.
  - assert (Hx : below (calculate_content_similarity self a b * 0.6) 0.6).
    { apply mul_below; [|reflexivity|reflexivity|].
      - destruct (Prim2SF (calculate_content_similarity self a b)) as [| | |[] m e];
          try discriminate Hc; reflexivity.
      - assert (H0 : 0 <= fval 0.6) by closed_le. rewrite fval_1 in Hcv. nra. }
    destruct Hx as [Hx Hxv].
    apply (add_below_even _ _ 1 4503599627370496 (-52));
      [exact Hx|exact Hy|reflexivity|reflexivity|].
    assert (fval 0.6 + fval 0.40000000000000013 <= fval 1 + pow2 (-52) * (1#2))
      by closed_le.
    lra.
Qed.
End FloatBounds.


#[export] Instance float_laws : NumberLaws float.
Proof.
  split; cbn [nmul nsub nabs nlt float_number].
  - intros x y. apply Prim2SF_inj. rewrite !mul_spec. apply SFmul_comm.
  - intros x y. apply Prim2SF_inj. rewrite !abs_spec, !sub_spec. apply SFabs_sub_comm.
  - intros x y. rewrite !ltb_spec. unfold SFltb.
    destruct (SFcompare (Prim2SF x) (Prim2SF y)) as [[]|] eqn:E; try discriminate.
    intros _. rewrite (SFcompare_Lt_Gt _ _ E). reflexivity.
  - intros x. unfold same_number. cbn [of_int ndiv nadd is_zero float_number].
    change (float_of_Z 1) with 1%float. change (float_of_Z 0) with 0%float.
    rewrite float_div_one.
    destruct (float_zero_add x) as [-> | [-> ->]]; [left|right; split]; reflexivity.
Qed.

(** ** Sorting and slicing *)

Section SortingFacts.
Context {A R : Type} `{Number R} (key : A -> R).

Lemma insert_perm (x : A) (l : list A) : insert key x l ≡ₚ x :: l.
Proof.
  induction l as [|y l IH]; cbn [insert]; [reflexivity|].
  destruct (nlt (key y) (key x)); [|reflexivity].
  rewrite IH. apply Permutation_swap.
Qed.

Lemma sort_ascending_perm (l : list A) : sort_ascending key l ≡ₚ l.
Proof.
  induction l as [|x l IH]; [reflexivity|].
  cbn [sort_ascending foldr]. rewrite insert_perm. constructor. exact IH.
Qed.

Lemma sort_reverse_perm (l : list A) : sort_reverse key l ≡ₚ l.
Proof.
  unfold sort_reverse.
  rewrite reverse_Permutation, sort_ascending_perm. apply reverse_Permutation.
Qed.

Lemma sort_reverse_length (l : list A) : length (sort_reverse key l) = length l.
Proof. apply Permutation_length, sort_reverse_perm. Qed.

Lemma sort_reverse_elem_of (x : A) (l : list A) : x ∈ sort_reverse key l <-> x ∈ l.
Proof. rewrite sort_reverse_perm. reflexivity. Qed.

Lemma HdRel_insert (a x : A) (l : list A) :
  ascending_rel key a x -> HdRel (ascending_rel key) a l ->
  HdRel (ascending_rel key) a (insert key x l).
Proof.
  intros Hax Hal. destruct l as [|y l]; cbn [insert]; [constructor; exact Hax|].
  destruct (nlt (key y) (key x)); constructor; [|exact Hax].
  inversion Hal; assumption.
Qed.

Lemma insert_sorted `{!NumberLaws R} (x : A) (l : list A) :
  Sorted (ascending_rel key) l -> Sorted (ascending_rel key) (insert key x l).
Proof.
  induction 1 as [|y l Hl IH Hy]; cbn [insert]; [repeat constructor|].
  destruct (nlt (key y) (key x)) eqn:Hyx.
  - constructor; [exact IH|]. apply HdRel_insert; [|exact Hy].
    unfold ascending_rel. apply nlt_asym, Hyx.
  - repeat constructor; assumption.
Qed.

Lemma sort_ascending_sorted `{!NumberLaws R} (l : list A) :
  Sorted (ascending_rel key) (sort_ascending key l).
Proof.
  induction l as [|x l IH]; [constructor|].
  cbn [sort_ascending foldr]. apply insert_sorted, IH.
Qed.

Lemma sort_reverse_adjacent `{!NumberLaws R} (l : list A) :
  Sorted (fun a b => nlt (key a) (key b) = false) (sort_reverse key l).
Proof.
  unfold sort_reverse.
  apply (Sorted_reverse (ascending_rel key)), sort_ascending_sorted.
Qed.

Lemma Sorted_StronglySorted_on (rel : A -> A -> Prop) (l : list A) :
  (forall a b c, a ∈ l -> b ∈ l -> c ∈ l -> rel a b -> rel b c -> rel a c) ->
  Sorted rel l -> StronglySorted rel l.
Proof.
  intros Htrans Hl. induction Hl as [|x l Hl IH Hx]; constructor.
  - apply IH. intros a b c Ha Hb Hc. apply Htrans; right; assumption.
  - destruct Hx as [|y l Hxy]; constructor; [exact Hxy|].
    assert (Hy : StronglySorted rel (y :: l)).
    { apply IH. intros a b c Ha Hb Hc. apply Htrans; right; assumption. }
    apply StronglySorted_inv in Hy as [_ Hy].
    rewrite Forall_forall in Hy. apply Forall_forall. intros z Hz.
    apply (Htrans x y z); [left|right; left|right; right; exact Hz|exact Hxy|].
    apply Hy, Hz.
Qed.

Lemma weakly_ordered_perm (l l' : list A) :
  l ≡ₚ l' -> weakly_ordered key l -> weakly_ordered key l'.
Proof.
  intros Hp Hl a b c Ha Hb Hc. rewrite <- Hp in Ha, Hb, Hc. apply Hl; assumption.
Qed.

Lemma sort_reverse_descending `{!NumberLaws R} (l : list A) :
  weakly_ordered key l -> descending key (sort_reverse key l).
Proof.
  intros Hl. apply Sorted_StronglySorted_on; [|apply sort_reverse_adjacent].
  apply (weakly_ordered_perm l); [symmetry; apply sort_reverse_perm|exact Hl].
Qed.

Lemma descending_take (n : nat) (l : list A) :
  descending key l -> descending key (take n l).
Proof.
  unfold descending. intros Hl. revert n.
  induction Hl as [|x l Hl IH Hx]; intros [|n]; cbn [take]; try constructor.
  - apply IH.
  - apply Forall_take, Hx.
Qed.

Lemma descending_app (l1 l2 : list A) :
  descending key (l1 ++ l2) ->
  Forall (fun a => Forall (fun b => nlt (key a) (key b) = false) l2) l1.
Proof.
  unfold descending. induction l1 as [|x l1 IH]; cbn [app]; intros Hl; [constructor|].
  apply StronglySorted_inv in Hl as [Hl Hx]. constructor; [|apply IH, Hl].
  apply Forall_app in Hx as [_ Hx]. exact Hx.
Qed.




End SortingFacts.

Section SortingImages.
Context {A B R : Type} `{Number R} (key : B -> R) (g : A -> B).



End SortingImages.

Section OrderedScores.
Context {A : Type}.

(** Floats none of which is NaN are ordered consistently. *)
Lemma float_weakly_ordered (key : A -> float) (l : list A) :
  Forall (fun a => PrimFloat.is_nan (key a) = false) l -> weakly_ordered key l.
Proof.
  rewrite Forall_forall. intros Hl a b c Ha Hb Hc.
  apply float_not_less_trans; apply Hl; assumption.
Qed.
End OrderedScores.

Section SliceFacts.
Context {A : Type}.

Lemma slice_to_nonneg (n : Z) (l : list A) :
  (0 <= n)%Z -> slice_to n l = take (Z.to_nat n) l.
Proof.
  intros Hn. unfold slice_to. destruct (Z.ltb_spec n 0); [lia|reflexivity].
Qed.

Lemma slice_to_neg (n : Z) (l : list A) :
  (n < 0)%Z -> slice_to n l = take (length l - Z.to_nat (- n)) l.
Proof.
  intros Hn. unfold slice_to. destruct (Z.ltb_spec n 0); [|lia].
  f_equal. lia.
Qed.



End SliceFacts.

(** ** The ranking of [find_similar_books] *)

Section RankingFacts.
Context {R : Type} `{Number R}.
Implicit Types (self : BookSimilarityEngine R) (target : Book R).
Implicit Types (cands : list (Book R)) (n : Z).

Lemma similarities_fmap self target cands :
  similarities self target cands
  = (fun c => (c, combined_similarity self target c)) <$> other_candidates target cands.
Proof.
  unfold other_candidates.
  induction cands as [|c cands IH]; [reflexivity|].
  cbn [similarities]. rewrite filter_cons.
  destruct (same_id c target); cbn; rewrite IH; reflexivity.
Qed.

Lemma similarities_length self target cands :
  length (similarities self target cands) = length (other_candidates target cands).
Proof. rewrite similarities_fmap. apply length_fmap. Qed.

Lemma elem_of_other_candidates target cands (c : Book R) :
  c ∈ other_candidates target cands <-> c ∈ cands /\ book_id c <> book_id target.
Proof.
  unfold other_candidates. rewrite list_elem_of_filter. unfold same_id.
  rewrite negb_True, bool_decide_spec. tauto.
Qed.

Lemma other_candidates_length target cands :
  length (other_candidates target cands) <= length cands.
Proof. apply length_filter. Qed.

Lemma elem_of_similarities self target cands (e : Book R * R) :
  e ∈ similarities self target cands
  <-> e.1 ∈ other_candidates target cands
      /\ e.2 = combined_similarity self target e.1.
Proof.
  rewrite similarities_fmap, list_elem_of_fmap. split.
  - intros (c & -> & Hc). split; [exact Hc|reflexivity].
  - intros [Hc He]. exists e.1. split; [|exact Hc].
    destruct e as [c s]. cbn in *. congruence.
Qed.

Lemma elem_of_slice_to {A : Type} (x : A) (k : Z) (l : list A) :
  x ∈ slice_to k l -> x ∈ l.
Proof. unfold slice_to. apply subseteq_take. Qed.

Lemma elem_of_find_similar_books self target cands n (e : Book R * R) :
  e ∈ find_similar_books self target cands n ->
  e ∈ similarities self target cands.
Proof.
  unfold find_similar_books. intros He.
  apply elem_of_slice_to in He. apply sort_reverse_elem_of in He. exact He.
Qed.

(** Asking for as many entries as there are candidates ranks them all. *)
Lemma find_similar_books_all self target cands :
  find_similar_books self target cands (Z.of_nat (length cands))
  = sort_reverse snd (similarities self target cands).
Proof.
  unfold find_similar_books. rewrite slice_to_nonneg by lia.
  apply take_ge. rewrite Nat2Z.id, sort_reverse_length, similarities_length.
  apply other_candidates_length.
Qed.

Lemma similarities_ext self self' target cands :
  (forall c, c ∈ other_candidates target cands ->
     tfidf_cosine self' (_get_combined_text target) (_get_combined_text c)
     = tfidf_cosine self (_get_combined_text target) (_get_combined_text c)) ->
  similarities self' target cands = similarities self target cands.
Proof.
  intros Hagree. rewrite !similarities_fmap. apply list_fmap_ext.
  intros i c Hc. f_equal.
  unfold combined_similarity, calculate_content_similarity.
  rewrite Hagree; [reflexivity|]. eapply list_elem_of_lookup_2, Hc.
Qed.
End RankingFacts.

(** C3: for [n >= 0], [find_similar_books] returns exactly
    [min n (number of candidates whose id differs from the target's)]
    pairs; each pairs such a candidate with
    [0.6 * content + 0.4 * metadata]; and the pairs are the first [n] of
    the full ranking: followed by the pairs that were cut off, they are a
    rearrangement of the pairs of all such candidates in which no pair has
    a lower score than a pair further on, so that no pair that was cut off
    scores higher than a returned one (the scores being ordered
    consistently, that is, none of them NaN). *)
Theorem find_similar_books_ranked
    {R : Type} `{NumberLaws R}
    (self : BookSimilarityEngine R) (target : Book R)
    (cands : list (Book R)) (n : Z) :
  (0 <= n)%Z ->
  weakly_ordered snd (similarities self target cands) ->
  let out := find_similar_books self target cands n in
  let others := other_candidates target cands in
  length out = Nat.min (Z.to_nat n) (length others)
  /\ Forall (fun e =>
       e.1 ∈ others
       /\ e.2 = (tenths 6 * calculate_content_similarity self target e.1
                 + tenths 4 * calculate_metadata_similarity target e.1)%num) out
  /\ descending snd out
  /\ exists rest,
       out ++ rest ≡ₚ (fun c => (c, combined_similarity self target c)) <$> others
       /\ descending snd (out ++ rest)
       /\ Forall (fun e => Forall (fun e' => nlt (snd e) (snd e') = false) rest) out.
Proof.
  intros Hn Hord out others. subst out others. unfold find_similar_books.
  rewrite slice_to_nonneg by exact Hn.
  assert (Hdesc : descending snd (sort_reverse snd (similarities self target cands))).
  { apply sort_reverse_descending; [exact _|exact Hord]. }
  split; [|split; [|split]].
  - rewrite length_take, sort_reverse_length, similarities_length. reflexivity.
  - apply Forall_forall. intros e He.
    apply subseteq_take, sort_reverse_elem_of, elem_of_similarities in He.
    destruct He as [Hc ->]. split; [exact Hc|].
    unfold combined_similarity, CONTENT_WEIGHT, METADATA_WEIGHT.
    rewrite (nmul_comm (tenths 6)), (nmul_comm (tenths 4)). reflexivity.
  - apply descending_take, Hdesc.
  - exists (drop (Z.to_nat n) (sort_reverse snd (similarities self target cands))).
    split; [|split].
    + rewrite take_drop, sort_reverse_perm, similarities_fmap. reflexivity.
    + rewrite take_drop. exact Hdesc.
    + apply descending_app. rewrite take_drop. exact Hdesc.
Qed.

Lemma sample_entries_similarities :
  similarities Sample.engine Sample.read [Sample.near; Sample.far; Sample.near]
  = Sample.entries.
Proof. vm_compute. reflexivity. Qed.

Lemma sample_entries_ordered : weakly_ordered snd Sample.entries.
Proof. apply float_weakly_ordered. repeat constructor. Qed.

Lemma find_similar_books_ranked_witness :
  exists rest,
    find_similar_books Sample.engine Sample.read [Sample.far; Sample.near] 1 ++ rest
      ≡ₚ (fun c => (c, combined_similarity Sample.engine Sample.read c))
           <$> other_candidates Sample.read [Sample.far; Sample.near]
    /\ descending snd
         (find_similar_books Sample.engine Sample.read [Sample.far; Sample.near] 1
          ++ rest).
Proof.
  destruct (find_similar_books_ranked Sample.engine Sample.read
              [Sample.far; Sample.near] 1) as (_ & _ & _ & rest & Hperm & Hdesc & _).
  - lia.
  - apply float_weakly_ordered. vm_compute. repeat constructor.
  - exists rest. split; [exact Hperm|exact Hdesc].
Defined.

(** C4: whatever the count asked for, no entry of the outcome of
    [find_similar_books] has the target's id, and every entry is one of the
    candidates; the outcome does not depend on what the vectorizer would
    give for a skipped candidate. *)
Theorem find_similar_books_excludes_target
    {R : Type} `{Number R}
    (self : BookSimilarityEngine R) (target : Book R)
    (cands : list (Book R)) (n : Z) :
  Forall (fun e => e.1 ∈ cands /\ book_id e.1 <> book_id target)
    (find_similar_books self target cands n)
  /\ forall self' : BookSimilarityEngine R,
       (forall c, c ∈ other_candidates target cands ->
          tfidf_cosine self' (_get_combined_text target) (_get_combined_text c)
          = tfidf_cosine self (_get_combined_text target) (_get_combined_text c)) ->
       find_similar_books self' target cands n = find_similar_books self target cands n.
Proof.
  split.
  - apply Forall_forall. intros e He.
    apply elem_of_find_similar_books, elem_of_similarities in He.
    apply elem_of_other_candidates, He.
  - intros self' Hagree. unfold find_similar_books.
    rewrite (similarities_ext self self' target cands Hagree). reflexivity.
Qed.

(** C10, as the code has it: a negative count [n] is not an error;
    [find_similar_books] then returns the ranking without its last [|n|]
    entries, which is the empty list as soon as [|n|] is at least the number
    of candidates whose id differs from the target's. *)
Theorem find_similar_books_negative
    {R : Type} `{Number R}
    (self : BookSimilarityEngine R) (target : Book R)
    (cands : list (Book R)) (n : Z) :
  (n < 0)%Z ->
  let ranked := sort_reverse snd (similarities self target cands) in
  let out := find_similar_books self target cands n in
  length out = length (other_candidates target cands) - Z.to_nat (- n)
  /\ (exists dropped,
        ranked = out ++ dropped
        /\ length dropped = Nat.min (Z.to_nat (- n)) (length ranked))
  /\ (out = [] <-> length (other_candidates target cands) <= Z.to_nat (- n)).
Proof.
  intros Hn ranked out. subst out. unfold find_similar_books. fold ranked.
  rewrite slice_to_neg by exact Hn.
  assert (Hlen : length ranked = length (other_candidates target cands)).
  { unfold ranked. rewrite sort_reverse_length. apply similarities_length. }
  split; [|split; [|split]].
  - rewrite length_take. lia.
  - exists (drop (length ranked - Z.to_nat (- n)) ranked). split.
    + symmetry. apply take_drop.
    + rewrite length_drop. lia.
  - intros Hnil. apply (f_equal length) in Hnil.
    rewrite length_take in Hnil. cbn in Hnil. lia.
  - intros Hle. apply length_zero_iff_nil. rewrite length_take. lia.
Qed.

Lemma find_similar_books_negative_witness :
  (-1 < 0)%Z
  /\ length (find_similar_books Sample.engine Sample.read
               [Sample.near; Sample.far; Sample.near] (-1))
     = length (other_candidates Sample.read
                 [Sample.near; Sample.far; Sample.near]) - Z.to_nat (- (-1)).
Proof.
  split; [lia|].
  apply (find_similar_books_negative Sample.engine Sample.read
           [Sample.near; Sample.far; Sample.near] (-1)).
  lia.
Defined.

(** C10 fails where it says that the outcome is never empty: with one
    candidate and the count [-1], the only entry is dropped. *)
Lemma find_similar_books_negative_empty :
  find_similar_books Sample.engine Sample.read [Sample.near] (-1) = [].
Proof. vm_compute. reflexivity. Qed.

(** ** The accumulation of [get_recommendations] *)

Section RecommendationFacts.
Context {R : Type} `{Number R}.
Implicit Types (self : BookSimilarityEngine R) (cands : list (Book R)).
Implicit Types (scores : gmap string R) (entries : list (Book R * R)).
#[local] Open Scope num_scope.

Lemma has_id_Some (book : Book R) :
  has_id book = true -> exists i, book_id book = Some i.
Proof. unfold has_id. destruct (book_id book) as [i|]; [eauto|discriminate]. Qed.

Lemma scored_candidates_empty cands :
  scored_candidates cands ∅
  = if forallb has_id cands then Ok [] else Raise (KeyError "id").
Proof.
  induction cands as [|c cands IH]; [reflexivity|].
  cbn [scored_candidates forallb]. unfold subscript_id, has_id at 1.
  destruct (book_id c) as [i|]; [|reflexivity].
  cbn. rewrite IH. destruct (forallb has_id cands); reflexivity.
Qed.

Lemma scored_candidates_ok cands scores :
  Forall (fun c => has_id c = true) cands ->
  exists entries,
    scored_candidates cands scores = Ok entries
    /\ Forall (fun e => e.1 ∈ cands
                /\ exists i, book_id e.1 = Some i /\ scores !! i = Some e.2) entries.
Proof.
  induction 1 as [|c cands Hc _ (entries & Heq & Hall)].
  - exists []. split; [reflexivity|constructor].
  - destruct (has_id_Some c Hc) as [i Hi].
    cbn [scored_candidates]. unfold subscript_id. rewrite Hi. cbn. rewrite Heq. cbn.
    assert (Hall' : Forall (fun e => e.1 ∈ c :: cands
                /\ exists i, book_id e.1 = Some i /\ scores !! i = Some e.2) entries).
    { eapply Forall_impl; [exact Hall|]. intros e [He Hs]. split; [right; exact He|exact Hs]. }
    destruct (scores !! i) as [s|] eqn:Hs.
    + exists ((c, s) :: entries). split; [reflexivity|]. constructor; [|exact Hall'].
      split; [left|]. exists i. split; [exact Hi|exact Hs].
    + exists entries. split; [reflexivity|exact Hall'].
Qed.

(** On entries with pairwise distinct ids that are new to [scores], the
    inner loop stores [0.0 + score / history_size] under each id and
    leaves the other keys alone. *)
Lemma add_scores_distinct (k : nat) entries : forall scores,
  Forall (fun e => has_id e.1 = true) entries ->
  NoDup (entry_id <$> entries) ->
  (forall e i, e ∈ entries -> book_id e.1 = Some i -> scores !! i = None) ->
  exists scores',
    add_scores k entries scores = Ok scores'
    /\ (forall e i, e ∈ entries -> book_id e.1 = Some i ->
          scores' !! i = Some (of_int 0 + e.2 / of_int (Z.of_nat k)))
    /\ (forall i, (forall e, e ∈ entries -> book_id e.1 <> Some i) ->
          scores' !! i = scores !! i).
Proof.
  induction entries as [|[c s] entries IH]; intros scores Hid Hnd Hnew.
  - exists scores. split; [reflexivity|]. split; [|reflexivity].
    intros e i He. inversion He.
  - apply Forall_cons in Hid as [Hc Hid]. apply NoDup_cons in Hnd as [Hfresh Hnd].
    destruct (has_id_Some c Hc) as [i Hi]. cbn [fst] in Hi.
    assert (Hothers : forall e, e ∈ entries -> book_id e.1 <> Some i).
    { intros e He Hei. apply Hfresh.
      assert (entry_id (c, s) = entry_id e) as -> by (unfold entry_id; cbn; congruence).
      apply (list_elem_of_fmap_2 entry_id), He. }
    cbn [add_scores]. unfold subscript_id. rewrite Hi. cbn.
    rewrite (Hnew (c, s) i) by (left || exact Hi). cbn [default].
    destruct (IH (<[i := of_int 0 + s / of_int (Z.of_nat k)]> scores) Hid Hnd)
      as (scores' & Heq & Hin & Hout).
    { intros e j He Hj. rewrite lookup_insert_ne.
      - apply (Hnew e j); [right; exact He|exact Hj].
      - intros ->. exact (Hothers e He Hj). }
    exists scores'. split; [exact Heq|]. split.
    + intros e j He Hj. apply elem_of_cons in He as [->|He].
      * cbn [fst snd] in *. assert (j = i) as -> by congruence.
        rewrite (Hout i Hothers). apply lookup_insert_eq.
      * apply Hin; assumption.
    + intros j Hj. rewrite Hout.
      * apply lookup_insert_ne. intros ->. apply (Hj (c, s)); [left|exact Hi].
      * intros e He. apply Hj. right. exact He.
Qed.

Lemma add_scores_ok (k : nat) entries : forall scores,
  Forall (fun e => has_id e.1 = true) entries ->
  exists scores', add_scores k entries scores = Ok scores'.
Proof.
  induction entries as [|[c s] entries IH]; intros scores Hid; [eexists; reflexivity|].
  apply Forall_cons in Hid as [Hc Hid].
  destruct (has_id_Some c Hc) as [i Hi]. cbn [fst] in Hi.
  cbn [add_scores]. unfold subscript_id. rewrite Hi. cbn. apply IH, Hid.
Qed.

(** Whatever the ids of the entries, the inner loop leaves under every key
    what the entries with this key add up to, in their order. *)
Lemma add_scores_keyed (k : nat) entries : forall scores scores',
  add_scores k entries scores = Ok scores' ->
  forall i, scores' !! i = added_up k (keyed i entries) (scores !! i).
Proof.
  induction entries as [|[c s] entries IH]; intros scores scores' Heq i.
  - injection Heq as <-. reflexivity.
  - cbn [add_scores] in Heq. unfold subscript_id in Heq.
    destruct (book_id c) as [j|] eqn:Hj; [|discriminate Heq]. cbn in Heq.
    rewrite (IH _ _ Heq i). unfold keyed. rewrite filter_cons.
    assert (Hid : entry_id (c, s) = Some j) by exact Hj. rewrite Hid.
    destruct (decide (j = i)) as [->|Hne].
    + rewrite decide_True by (apply bool_decide_pack; reflexivity).
      rewrite lookup_insert_eq. reflexivity.
    + rewrite decide_False by (intros Hd%bool_decide_unpack; congruence).
      rewrite lookup_insert_ne by exact Hne. reflexivity.
Qed.

Lemma added_up_is_Some (k : nat) entries : forall start,
  is_Some (added_up k entries start) -> is_Some start \/ entries <> [].
Proof.
  destruct entries as [|e entries]; intros start Hs; [left; exact Hs|right; discriminate].
Qed.

Lemma entry_id_similarities self (target : Book R) cands :
  entry_id <$> similarities self target cands
  = book_id <$> other_candidates target cands.
Proof.
  rewrite similarities_fmap, <- list_fmap_compose. reflexivity.
Qed.

Lemma ranked_ids_distinct self (target : Book R) cands :
  NoDup (book_id <$> cands) ->
  NoDup (entry_id <$> sort_reverse snd (similarities self target cands)).
Proof.
  intros Hnd. rewrite sort_reverse_perm, entry_id_similarities.
  eapply sublist_NoDup; [exact Hnd|].
  apply fmap_sublist. unfold other_candidates. apply sublist_filter.
Qed.

Lemma ranked_have_ids self (target : Book R) cands :
  Forall (fun c => has_id c = true) cands ->
  Forall (fun e => has_id e.1 = true)
    (sort_reverse snd (similarities self target cands)).
Proof.
  rewrite !Forall_forall. intros Hall e He.
  apply sort_reverse_elem_of, elem_of_similarities in He as [He _].
  apply elem_of_other_candidates in He as [He _]. apply Hall, He.
Qed.


Lemma get_recommendations_unfold self (user_books : list (Book R)) cands
    (n : Z) scores entries :
  accumulated_scores self user_books cands = Ok scores ->
  scored_candidates cands scores = Ok entries ->
  get_recommendations self user_books cands n
  = Ok (fst <$> slice_to n (sort_reverse snd entries)).
Proof.
  intros Hs He. unfold get_recommendations. rewrite Hs. cbn. rewrite He. reflexivity.
Qed.
End RecommendationFacts.

(** C1, as the code has it: on an empty history [get_recommendations]
    raises no error of its own and divides nothing; it returns the empty
    list when every candidate carries an id, and otherwise fails with the
    [KeyError] of [book["id"]]. *)
Theorem get_recommendations_empty_history
    {R : Type} `{Number R}
    (self : BookSimilarityEngine R) (cands : list (Book R)) (n : Z) :
  get_recommendations self [] cands n
  = if forallb has_id cands then Ok [] else Raise (KeyError "id").
Proof.
  unfold get_recommendations, accumulated_scores. cbn [length accumulate]. cbn.
  rewrite scored_candidates_empty.
  destruct (forallb has_id cands); [|reflexivity].
  cbn. unfold slice_to. rewrite take_nil. reflexivity.
Qed.

(** C1 fails: with an empty history and two candidates the outcome is the
    empty list, not an error. *)
Lemma get_recommendations_empty_history_silent :
  get_recommendations Sample.engine [] [Sample.near; Sample.far] 5 = Ok [].
Proof. vm_compute. reflexivity. Qed.

(** C7, as the code has it: for one history book and candidates that all
    carry an id, [scores] holds, under every key, what the pairs with this
    id that [find_similar_books] returns on the whole pool add up to:
    [0.0 + s1 / 1 + s2 / 1 + ...], in the order of the ranking, and nothing
    when there is no such pair; candidates that share an id so share one
    score.  When the ids are pairwise distinct, the value under the id of a
    pair [(c, s)] is [0.0 + s / 1], which is the score [s] as a number.
    Every key of [scores] is the id of such a pair, and every book of the
    outcome is a candidate whose id is a key of [scores]. *)
Theorem single_history_scores
    {R : Type} `{NumberLaws R}
    (self : BookSimilarityEngine R) (user_book : Book R)
    (cands : list (Book R)) (n : Z) :
  Forall (fun c => has_id c = true) cands ->
  let similar_books :=
    find_similar_books self user_book cands (Z.of_nat (length cands)) in
  exists scores : gmap string R,
    accumulated_scores self [user_book] cands = Ok scores
    /\ (forall i, scores !! i = added_up 1 (keyed i similar_books) None)
    /\ (NoDup (book_id <$> cands) ->
        forall c s, (c, s) ∈ similar_books ->
          exists i t,
            book_id c = Some i
            /\ scores !! i = Some t
            /\ t = (of_int 0 + s / of_int 1)%num
            /\ same_number t s)
    /\ (forall i, is_Some (scores !! i) ->
          exists c s, (c, s) ∈ similar_books /\ book_id c = Some i)
    /\ exists out,
         get_recommendations self [user_book] cands n = Ok out
         /\ Forall (fun b => b ∈ cands
                      /\ exists i, book_id b = Some i /\ is_Some (scores !! i)) out.
Proof.
  intros Hids similar_books. subst similar_books.
  rewrite find_similar_books_all.
  set (ranked := sort_reverse snd (similarities self user_book cands)).
  pose proof (ranked_have_ids self user_book cands Hids) as Hranked. fold ranked in Hranked.
  destruct (add_scores_ok 1 ranked ∅ Hranked) as [scores Heq].
  assert (Hacc : accumulated_scores self [user_book] cands = Ok scores).
  { unfold accumulated_scores. cbn [length accumulate].
    rewrite find_similar_books_all. fold ranked. rewrite Heq. reflexivity. }
  assert (Hkeyed : forall i, scores !! i = added_up 1 (keyed i ranked) None).
  { intros i. rewrite (add_scores_keyed 1 ranked ∅ scores Heq i), lookup_empty.
    reflexivity. }
  exists scores. split; [exact Hacc|]. split; [exact Hkeyed|]. split; [|split].
  - intros Hnd c s Hcs.
    destruct (add_scores_distinct 1 ranked ∅ Hranked
                (ranked_ids_distinct self user_book cands Hnd))
      as (scores2 & Heq2 & Hin & _).
    { intros e i _ _. apply lookup_empty. }
    assert (scores2 = scores) as -> by congruence.
    rewrite Forall_forall in Hranked.
    destruct (has_id_Some c (Hranked (c, s) Hcs)) as [i Hi].
    exists i, (of_int 0 + s / of_int 1)%num.
    split; [exact Hi|]. split; [exact (Hin (c, s) i Hcs Hi)|].
    split; [reflexivity|apply nunit].
  - intros i Hv. rewrite Hkeyed in Hv.
    apply added_up_is_Some in Hv as [[? Hv]|Hne]; [discriminate Hv|].
    destruct (keyed i ranked) as [|[c s] rest] eqn:Hk; [congruence|].
    assert (Hin : (c, s) ∈ keyed i ranked) by (rewrite Hk; left).
    unfold keyed in Hin. apply list_elem_of_filter in Hin as [Hid Hin].
    exists c, s. split; [exact Hin|]. apply bool_decide_unpack in Hid. exact Hid.
  - destruct (scored_candidates_ok cands scores Hids) as (entries & He & Hall).
    exists (fst <$> slice_to n (sort_reverse snd entries)). split.
    + apply (get_recommendations_unfold self [user_book] cands n scores entries Hacc He).
    + rewrite Forall_forall in Hall. apply Forall_forall. intros b Hb.
      apply list_elem_of_fmap in Hb as (e & -> & Hb).
      apply elem_of_slice_to, sort_reverse_elem_of, Hall in Hb.
      destruct Hb as (Hc & i & Hi & Hs). split; [exact Hc|].
      exists i. split; [exact Hi|]. rewrite Hs. eauto.
Qed.

Lemma single_history_scores_witness :
  exists scores : gmap string float,
    accumulated_scores Sample.engine [Sample.read] [Sample.near; Sample.far; Sample.near]
    = Ok scores
    /\ scores !! "2"
       = Some ((0 + 0.12000000000000002 / 1) + 0.12000000000000002 / 1)%float
    /\ scores !! "3" = Some (0 + 0.06133333333333333 / 1)%float.
Proof.
  destruct (single_history_scores Sample.engine Sample.read
              [Sample.near; Sample.far; Sample.near] 5) as (scores & Hacc & Hsum & _).
  - repeat constructor.
  - exists scores. split; [exact Hacc|]. rewrite !Hsum. split; vm_compute; reflexivity.
Defined.

(** C7 fails when two candidates share an id: the score of each of the two
    is about [0.12], and the accumulated score under their id is the sum of
    both contributions. *)
Lemma duplicate_candidates_add_up :
  (scores ← accumulated_scores Sample.engine [Sample.read] [Sample.near; Sample.near];
   Ok (scores !! "2"))
  = Ok (Some 0.24000000000000005%float)
  /\ find_similar_books Sample.engine Sample.read [Sample.near; Sample.near] 2
     = [ (Sample.near, 0.12000000000000002%float);
         (Sample.near, 0.12000000000000002%float) ]
  /\ PrimFloat.eqb 0.24000000000000005 0.12000000000000002 = false.
Proof. vm_compute. repeat split. Qed.



(** ** The two scorers *)

Section ScorerFacts.
Context {R : Type} `{Number R}.
Implicit Types (self : BookSimilarityEngine R) (a b : Book R).

Lemma content_similarity_of_failure self a b :
  tfidf_cosine self (_get_combined_text a) (_get_combined_text b) = None ->
  calculate_content_similarity self a b = of_int 0.
Proof. unfold calculate_content_similarity. intros ->. reflexivity. Qed.

Lemma content_similarity_of_empty self a b :
  empty_document_contract self ->
  _get_combined_text a = "" \/ _get_combined_text b = "" ->
  calculate_content_similarity self a b = of_int 0.
Proof.
  intros Hcontract Hempty. unfold calculate_content_similarity.
  destruct (Hcontract _ _ Hempty) as [-> | ->]; reflexivity.
Qed.

Lemma every_candidate_ranked self (target : Book R) (cands : list (Book R)) (c : Book R) :
  c ∈ cands -> book_id c <> book_id target ->
  (c, combined_similarity self target c)
    ∈ find_similar_books self target cands (Z.of_nat (length cands)).
Proof.
  intros Hc Hid. rewrite find_similar_books_all.
  apply sort_reverse_elem_of, elem_of_similarities. split; [|reflexivity].
  apply elem_of_other_candidates. split; assumption.
Qed.

Lemma sample_contract : empty_document_contract (Sample.engine (R := R)).
Proof.
  intros text1 text2 [-> | ->]; cbn [tfidf_cosine Sample.engine];
    unfold Sample.vectorize.
  - destruct text2; cbn [Text.is_empty andb orb]; auto.
  - destruct text1; cbn [Text.is_empty andb orb]; auto.
Qed.

Lemma metadata_similarity_comm `{!NumberLaws R} a b :
  calculate_metadata_similarity a b = calculate_metadata_similarity b a.
Proof.
  unfold calculate_metadata_similarity. cbv zeta.
  rewrite (andb_comm (nonempty (list_to_set (categories b)))),
          (andb_comm (nonempty (list_to_set (authors b)))),
          (andb_comm (truthy_number (average_rating b))),
          (andb_comm (truthy_int (page_count b))).
  rewrite (comm_L (∩) (list_to_set (categories b))),
          (comm_L (∪) (list_to_set (categories b))),
          (comm_L (∩) (list_to_set (authors b))),
          (comm_L (∪) (list_to_set (authors b))).
  rewrite (nabs_sub_comm (default (of_int 0) (average_rating b))).
  rewrite (Z.max_comm (default 0%Z (page_count b))).
  replace (Z.abs (default 0%Z (page_count b) - default 0%Z (page_count a)))
    with (Z.abs (default 0%Z (page_count a) - default 0%Z (page_count b))) by lia.
  reflexivity.
Qed.
End ScorerFacts.

(** C6: when the vectorizer fails on the two combined texts, the content
    similarity is [0.0] and no error leaves the scorer; so it is when either
    combined text is empty, the vectorizer then failing or yielding [0.0];
    and whatever happens for one candidate, every candidate whose id differs
    from the target's is in the full ranking with its own score. *)
Theorem content_similarity_degrades
    {R : Type} `{Number R} (self : BookSimilarityEngine R) :
  (forall a b,
     tfidf_cosine self (_get_combined_text a) (_get_combined_text b) = None ->
     calculate_content_similarity self a b = of_int 0)
  /\ (empty_document_contract self ->
      forall a b,
        _get_combined_text a = "" \/ _get_combined_text b = "" ->
        calculate_content_similarity self a b = of_int 0)
  /\ (forall target cands c,
        c ∈ cands -> book_id c <> book_id target ->
        (c, combined_similarity self target c)
          ∈ find_similar_books self target cands (Z.of_nat (length cands))).
Proof.
  split; [|split].
  - apply content_similarity_of_failure.
  - intros Hcontract a b. apply content_similarity_of_empty, Hcontract.
  - apply every_candidate_ranked.
Qed.

Lemma content_similarity_degrades_witness :
  calculate_content_similarity Sample.engine Sample.read (Sample.trilogy "2" 4.5%float)
  = 0%float
  /\ (Sample.far, combined_similarity Sample.engine Sample.read Sample.far)
       ∈ find_similar_books Sample.engine Sample.read
           [Sample.near; Sample.far] (Z.of_nat (length [Sample.near; Sample.far])).
Proof.
  destruct (content_similarity_degrades (Sample.engine (R := float)))
    as (_ & Hempty & Hranked).
  split.
  - apply (Hempty sample_contract). left. reflexivity.
  - apply Hranked; [right; left|discriminate].
Defined.

(** ** The range of the metadata similarity *)

(** C5, as the code has it: in binary64, the metadata similarity of two
    books with ratings in [0, 5] and page counts that are not negative
    (page counts below [2^53] and fewer than [2^52] categories and authors,
    so that every count is exactly a float) is the sum, taken in this
    order, of the sub-scores of the categories, the authors, the ratings
    and the lengths that are present, a sub-score being present when both
    books have a non-empty, non-zero value for the field; no sub-score is
    negative or NaN, and none exceeds [0.4000000000000001],
    [0.30000000000000004], [0.2] and [0.1] respectively; and the
    similarity lies between [0.0] and [1.0000000000000002], one unit in
    the last place above [1]. *)
Theorem metadata_similarity_range (a b : Book float) :
  in_domain a -> in_domain b ->
  calculate_metadata_similarity a b
  = add_part
      (add_part
         (add_part (add_part 0%float (category_part a b)) (author_part a b))
         (rating_part a b))
      (length_part a b)
  /\ (forall p, category_part a b = Some p ->
        float_between 0 0.4000000000000001 p)
  /\ (forall p, author_part a b = Some p ->
        float_between 0 0.30000000000000004 p)
  /\ (forall p, rating_part a b = Some p -> float_between 0 0.2 p)
  /\ (forall p, length_part a b = Some p -> float_between 0 0.1 p)
  /\ float_between 0 1.0000000000000002 (calculate_metadata_similarity a b).
Proof.
  intros Ha Hb. split; [apply metadata_similarity_parts|].
  split; [|split; [|split; [|split]]].
  - intros p Hp. apply below_between; [reflexivity|].
    apply (category_part_below a b); assumption.
  - intros p Hp. apply below_between; [reflexivity|].
    apply (author_part_below a b); assumption.
  - intros p Hp. apply below_between; [reflexivity|].
    apply (rating_part_below a b); assumption.
  - intros p Hp. apply below_between; [reflexivity|].
    apply (length_part_below a b); assumption.
  - apply below_between; [reflexivity|]. apply metadata_similarity_below; assumption.
Qed.

Lemma sample_in_domain (i : string) : in_domain (Sample.trilogy i 4.5%float).
Proof.
  split; [|split; [|split]].
  - intros r [= <-]. split; reflexivity.
  - intros p [= <-]. change (2 ^ 53)%Z with 9007199254740992%Z. lia.
  - cbn. lia.
  - cbn. lia.
Qed.

Lemma metadata_similarity_range_witness :
  float_between 0 1.0000000000000002
    (calculate_metadata_similarity
       (Sample.trilogy "1" 4.5%float) (Sample.trilogy "2" 4.5%float)).
Proof.
  apply (metadata_similarity_range
           (Sample.trilogy "1" 4.5%float) (Sample.trilogy "2" 4.5%float));
    apply sample_in_domain.
Defined.

(** C5 fails in binary64: two books with the same three categories, author,
    rating and page count have metadata similarity [1.0000000000000002],
    since [0.4 * 3 / 3] is rounded above [0.4]. *)
Lemma metadata_similarity_above_one :
  calculate_metadata_similarity
    (Sample.trilogy "1" 4.5%float) (Sample.trilogy "2" 4.5%float)
  = 1.0000000000000002%float
  /\ PrimFloat.ltb 1 1.0000000000000002 = true.
Proof. vm_compute. split; reflexivity. Qed.


(** ** The preprocessor and the combined text *)

Section TextMore.
Import Text.

Lemma lower_char_idem (c : ascii) : lower_char (lower_char c) = lower_char c.
Proof. destruct c as [[] [] [] [] [] [] [] []]; vm_compute; reflexivity. Qed.

Lemma is_word_lower_char (c : ascii) : is_word (lower_char c) = is_word c.
Proof. destruct c as [[] [] [] [] [] [] [] []]; vm_compute; reflexivity. Qed.

Lemma lower_idem (s : string) : lower (lower s) = lower s.
Proof.
  unfold lower. induction s as [|c s IH]; [reflexivity|].
  cbn [map_chars]. rewrite lower_char_idem, IH. reflexivity.
Qed.

Lemma starts_word_lower (s : string) : starts_word (lower s) = starts_word s.
Proof. destruct s as [|c s]; [reflexivity|]. apply is_word_lower_char. Qed.

Lemma tokens_lower (s : string) : tokens (lower s) = lower <$> tokens s.
Proof.
  induction s as [|c s IH]; [reflexivity|].
  change (lower (String c s)) with (String (lower_char c) (lower s)).
  destruct (is_word c) eqn:Hw.
  - rewrite (tokens_cons_word c s Hw), tokens_cons_word by (rewrite is_word_lower_char; exact Hw).
    rewrite starts_word_lower, IH.
    destruct (starts_word s); [|reflexivity].
    destruct (tokens s); reflexivity.
  - rewrite (tokens_cons_other c s Hw), tokens_cons_other by (rewrite is_word_lower_char; exact Hw).
    exact IH.
Qed.

Lemma append_cons (c : ascii) (s t : string) : String c s +:+ t = String c (s +:+ t).
Proof. reflexivity. Qed.

Lemma concat_cons_cons (s s' : string) (l : list string) :
  String.concat " " (s :: s' :: l) = s +:+ String " " (String.concat " " (s' :: l)).
Proof. reflexivity. Qed.

Lemma lower_app (s t : string) : lower (s +:+ t) = lower s +:+ lower t.
Proof.
  unfold lower. induction s as [|c s IH]; [reflexivity|].
  rewrite append_cons. cbn [map_chars]. rewrite append_cons, IH. reflexivity.
Qed.

Lemma lower_concat (l : list string) :
  lower (String.concat " " l) = String.concat " " (lower <$> l).
Proof.
  induction l as [|s l IH]; [reflexivity|].
  destruct l as [|s' l]; [reflexivity|].
  rewrite concat_cons_cons, lower_app.
  change (lower (String " " (String.concat " " (s' :: l))))
    with (String " " (lower (String.concat " " (s' :: l)))).
  rewrite IH. reflexivity.
Qed.

(** A space separates the words on its two sides. *)
Lemma tokens_app_space (s t : string) :
  tokens (s +:+ String " " t) = tokens s ++ tokens t.
Proof.
  induction s as [|c s IH].
  - change ("" +:+ String " " t) with (String " " t).
    apply tokens_cons_other. reflexivity.
  - rewrite append_cons. destruct (is_word c) eqn:Hw.
    + rewrite !(tokens_cons_word c _ Hw), IH.
      destruct s as [|c' s].
      * reflexivity.
      * rewrite append_cons. cbn [starts_word].
        destruct (is_word c') eqn:Hw'; [|reflexivity].
        destruct (tokens_starts_word (String c' s) Hw') as (d & t0 & ts & ->).
        reflexivity.
    + rewrite !(tokens_cons_other c _ Hw). exact IH.
Qed.

Lemma tokens_concat_space (l : list string) :
  tokens (String.concat " " l) = l ≫= tokens.
Proof.
  induction l as [|s l IH]; [reflexivity|].
  destruct l as [|s' l].
  - cbn [String.concat]. cbn. rewrite app_nil_r. reflexivity.
  - rewrite concat_cons_cons, tokens_app_space, IH. reflexivity.
Qed.

Lemma tokens_token (t : string) :
  is_empty t = false -> all_chars is_word t = true -> tokens t = [t].
Proof.
  induction t as [|c t IH]; [discriminate|]. intros _. cbn [all_chars].
  intros [Hc Ht]%andb_true_iff. rewrite (tokens_cons_word c t Hc).
  destruct t as [|c' t]; [reflexivity|].
  rewrite IH by (reflexivity || exact Ht).
  cbn [starts_word]. cbn [all_chars] in Ht. apply andb_true_iff in Ht as [-> _].
  reflexivity.
Qed.

(** Joining words with spaces and reading the words back gives the words. *)
Lemma tokens_concat_tokens (s : string) :
  tokens (String.concat " " (tokens s)) = tokens s.
Proof.
  rewrite tokens_concat_space.
  pose proof (tokens_word_chars s) as Hall.
  induction Hall as [|t ts [Hne Hw] _ IH]; [reflexivity|].
  cbn. rewrite (tokens_token t Hne Hw). cbn. f_equal. exact IH.
Qed.

Lemma preprocess_text_concat (t : string) :
  preprocess_text (Some t) = String.concat " " (tokens (lower t)).
Proof.
  unfold preprocess_text. destruct t as [|c t]; [reflexivity|].
  cbn [is_empty]. apply strip_sub.
Qed.

Lemma tokens_preprocess_text (t : string) :
  tokens (preprocess_text (Some t)) = lower <$> tokens t.
Proof. rewrite preprocess_text_concat, tokens_concat_tokens. apply tokens_lower. Qed.

Lemma lower_preprocess_text (t : string) :
  lower (preprocess_text (Some t)) = preprocess_text (Some t).
Proof.
  rewrite preprocess_text_concat, lower_concat, <- tokens_lower, lower_idem.
  reflexivity.
Qed.

Lemma preprocess_text_same_words (s t : string) :
  same_words s t -> preprocess_text (Some s) = preprocess_text (Some t).
Proof. intros [_ E]. rewrite !preprocess_text_concat, E. reflexivity. Qed.

Lemma same_words_lower (s t : string) : lower s = lower t -> same_words s t.
Proof.
  intros E. split; [|rewrite E; reflexivity].
  destruct s, t; try reflexivity; discriminate.
Qed.
End TextMore.

Section CombinedText.
Context {R : Type}.
Implicit Types (book a b c : Book R).

Lemma combined_text_fields book :
  _get_combined_text book
  = String.concat " "
      ((fun text => Text.preprocess_text (Some text))
         <$> filter truthy_text (text_fields book)).
Proof. reflexivity. Qed.

Lemma tokens_of_fields (l : list string) :
  (((fun text => Text.preprocess_text (Some text))
      <$> filter truthy_text l) ≫= Text.tokens)
  = Text.lower <$> (l ≫= Text.tokens).
Proof.
  induction l as [|s l IH]; [reflexivity|].
  rewrite bind_cons, fmap_app, <- IH.
  destruct s as [|ch s]; [reflexivity|].
  rewrite filter_cons_True by exact I.
  rewrite fmap_cons, bind_cons, tokens_preprocess_text. reflexivity.
Qed.

Lemma combined_text_same_words a b :
  Forall2 same_words (text_fields a) (text_fields b) ->
  _get_combined_text a = _get_combined_text b.
Proof.
  rewrite !combined_text_fields.
  generalize (text_fields a) (text_fields b). intros l l' Hall. f_equal.
  induction Hall as [|s t l l' [He Hw] _ IH]; [reflexivity|].
  unfold truthy_text at 1 3.
  destruct s as [|ch s], t as [|ch' t]; try discriminate He.
  - exact IH.
  - rewrite !filter_cons_True by exact I. rewrite !fmap_cons. f_equal; [|exact IH].
    apply preprocess_text_same_words. split; [reflexivity|exact Hw].
Qed.
End CombinedText.

(** X1: [preprocess_text] is idempotent: a preprocessed text is returned
    as it is. *)
Theorem preprocess_text_idempotent (text : option string) :
  Text.preprocess_text (Some (Text.preprocess_text text)) = Text.preprocess_text text.
Proof.
  destruct text as [t|]; [|reflexivity].
  rewrite (preprocess_text_concat (Text.preprocess_text (Some t))).
  rewrite lower_preprocess_text, tokens_preprocess_text, <- tokens_lower.
  symmetry. apply preprocess_text_concat.
Qed.

(** X2: the words of the combined text of a book are the lower-cased words
    of its title, of each of its authors, of its description and of each of
    its categories, in this order; a missing or empty field adds none. *)
Theorem combined_text_words {R : Type} (book : Book R) :
  Text.tokens (_get_combined_text book)
  = Text.lower
      <$> (Text.tokens (title book) ++ (authors book ≫= Text.tokens)
           ++ Text.tokens (description book) ++ (categories book ≫= Text.tokens)).
Proof.
  rewrite combined_text_fields, tokens_concat_space, tokens_of_fields.
  unfold text_fields. rewrite !bind_cons. change (@nil string ≫= Text.tokens) with (@nil string). rewrite app_nil_r.
  rewrite !tokens_concat_space. reflexivity.
Qed.

(** X3: the content similarity reads a book only through the words of its
    text fields: two books whose fields have the same words, whatever the
    letter case and the punctuation, have the same combined text and the
    same content similarity with every other book, in both positions. *)
Theorem content_similarity_same_words {R : Type} `{Number R}
    (self : BookSimilarityEngine R) (a b : Book R) :
  Forall2 same_words (text_fields a) (text_fields b) ->
  _get_combined_text a = _get_combined_text b
  /\ forall c : Book R,
       calculate_content_similarity self a c = calculate_content_similarity self b c
       /\ calculate_content_similarity self c a = calculate_content_similarity self c b.
Proof.
  intros Hw. pose proof (combined_text_same_words a b Hw) as E.
  split; [exact E|]. intros c. unfold calculate_content_similarity.
  cbn zeta. rewrite E. split; reflexivity.
Qed.

Lemma content_similarity_same_words_witness :
  _get_combined_text (Sample.trilogy "1" 4%float)
  = _get_combined_text (Examples.shouted "2" 5%float).
Proof.
  apply (content_similarity_same_words Sample.engine).
  unfold text_fields.
  do 4 (constructor; [split; vm_compute; reflexivity|]).
  constructor.
Defined.


(** ** Recommendations for any history *)

Section RecommendationMore.
Context {R : Type} `{Number R}.
Implicit Types (self : BookSimilarityEngine R) (cands us : list (Book R)).
Implicit Types (scores : gmap string R) (entries : list (Book R * R)).
#[local] Open Scope num_scope.

Lemma forallb_has_id cands :
  forallb has_id cands = true <-> Forall (fun c => has_id c = true) cands.
Proof. rewrite forallb_forall, Forall_forall. setoid_rewrite list_elem_of_In. reflexivity. Qed.

(** The inner loop fails only on an entry without id, and only with the
    [KeyError] of the subscript. *)
Lemma add_scores_raise (k : nat) entries : forall scores e,
  add_scores k entries scores = Raise e -> e = KeyError "id".
Proof.
  induction entries as [|[c s] entries IH]; intros scores e; [discriminate|].
  cbn [add_scores]. unfold subscript_id. destruct (book_id c) as [i|]; cbn.
  - apply IH.
  - congruence.
Qed.

(** The keys of [scores] after the inner loop: those it had, and the ids
    of the entries. *)
Lemma add_scores_dom (k : nat) entries : forall scores scores',
  add_scores k entries scores = Ok scores' ->
  forall i, is_Some (scores' !! i)
            <-> is_Some (scores !! i) \/ Some i ∈ entry_id <$> entries.
Proof.
  induction entries as [|[c s] entries IH]; intros scores scores'.
  - intros [= <-] i. rewrite fmap_nil, elem_of_nil. tauto.
  - intros Heq i. rewrite fmap_cons, elem_of_cons.
    unfold entry_id at 1. cbn [fst].
    cbn [add_scores] in Heq. unfold subscript_id in Heq.
    destruct (book_id c) as [j|] eqn:Hj; [|discriminate Heq].
    cbn in Heq. rewrite (IH _ _ Heq i).
    destruct (decide (i = j)) as [->|Hne].
    + rewrite lookup_insert_eq. split; intros _; [right; left; reflexivity|left; eauto].
    + rewrite lookup_insert_ne by congruence.
      split; (intros [Hs|Hin]; [tauto|]); [tauto|].
      destruct Hin as [Hin|Hin]; [congruence|tauto].
Qed.

(** On entries with pairwise distinct ids the inner loop adds
    [score / history_size] once to what is stored under each id, and
    leaves the other keys alone. *)
Lemma add_scores_once (k : nat) entries : forall scores,
  Forall (fun e => has_id e.1 = true) entries ->
  NoDup (entry_id <$> entries) ->
  exists scores',
    add_scores k entries scores = Ok scores'
    /\ (forall e i, e ∈ entries -> book_id e.1 = Some i ->
          scores' !! i
          = Some (default (of_int 0) (scores !! i) + e.2 / of_int (Z.of_nat k)))
    /\ (forall i, (forall e, e ∈ entries -> book_id e.1 <> Some i) ->
          scores' !! i = scores !! i).
Proof.
  induction entries as [|[c s] entries IH]; intros scores Hid Hnd.
  - exists scores. split; [reflexivity|]. split; [|reflexivity].
    intros e i He. inversion He.
  - apply Forall_cons in Hid as [Hc Hid]. apply NoDup_cons in Hnd as [Hfresh Hnd].
    destruct (has_id_Some c Hc) as [i Hi]. cbn [fst] in Hi.
    assert (Hothers : forall e, e ∈ entries -> book_id e.1 <> Some i).
    { intros e He Hei. apply Hfresh.
      assert (entry_id (c, s) = entry_id e) as -> by (unfold entry_id; cbn; congruence).
      apply (list_elem_of_fmap_2 entry_id), He. }
    cbn [add_scores]. unfold subscript_id. rewrite Hi. cbn.
    destruct (IH (<[i := default (of_int 0) (scores !! i) + s / of_int (Z.of_nat k)]> scores)
                Hid Hnd) as (scores' & Heq & Hin & Hout).
    exists scores'. split; [exact Heq|]. split.
    + intros e j He Hj. apply elem_of_cons in He as [->|He].
      * cbn [fst snd] in *. assert (j = i) as -> by congruence.
        rewrite (Hout i Hothers). apply lookup_insert_eq.
      * rewrite (Hin e j He Hj), lookup_insert_ne; [reflexivity|].
        intros ->. exact (Hothers e He Hj).
    + intros j Hj. rewrite Hout.
      * apply lookup_insert_ne. intros ->. apply (Hj (c, s)); [left|exact Hi].
      * intros e He. apply Hj. right. exact He.
Qed.

Lemma accumulate_raise self (k : nat) cands us : forall scores e,
  accumulate self k us cands scores = Raise e -> e = KeyError "id".
Proof.
  induction us as [|u us IH]; intros scores e; [discriminate|].
  cbn [accumulate].
  destruct (add_scores k _ scores) as [scores'|e'] eqn:Hadd; cbn.
  - apply IH.
  - intros [= <-]. eapply add_scores_raise, Hadd.
Qed.

Lemma accumulate_ok self (k : nat) cands us : forall scores,
  Forall (fun c => has_id c = true) cands ->
  exists scores', accumulate self k us cands scores = Ok scores'.
Proof.
  induction us as [|u us IH]; intros scores Hids; [eexists; reflexivity|].
  cbn [accumulate]. rewrite find_similar_books_all.
  destruct (add_scores_ok k _ scores (ranked_have_ids self u cands Hids)) as [s1 ->].
  cbn. apply IH, Hids.
Qed.

(** The keys of [scores] after both loops: those it had, and the id of
    every candidate that some history book does not share. *)
Lemma accumulate_dom self (k : nat) cands us : forall scores scores',
  accumulate self k us cands scores = Ok scores' ->
  forall i, is_Some (scores' !! i)
            <-> is_Some (scores !! i)
                \/ exists u c, u ∈ us /\ c ∈ cands
                               /\ book_id c = Some i /\ book_id c <> book_id u.
Proof.
  induction us as [|u us IH]; intros scores scores'.
  - intros [= <-] i. split; [tauto|]. intros [?|(u & c & Hu & _)]; [assumption|].
    inversion Hu.
  - cbn [accumulate]. rewrite find_similar_books_all.
    destruct (add_scores k _ scores) as [s1|e] eqn:Hadd; cbn; [|discriminate].
    intros Hacc i. rewrite (IH _ _ Hacc i), (add_scores_dom _ _ _ _ Hadd i).
    rewrite sort_reverse_perm, entry_id_similarities, list_elem_of_fmap.
    setoid_rewrite elem_of_other_candidates. setoid_rewrite elem_of_cons.
    split.
    + intros [[?|(c & Hi & Hc & Hne)]|(u' & c & Hu & Hc)].
      * tauto.
      * right. exists u, c. split; [left; reflexivity|]. split; [exact Hc|].
        split; [congruence|exact Hne].
      * right. exists u', c. tauto.
    + intros [?|(u' & c & [->|Hu] & Hc & Hi & Hne)].
      * tauto.
      * left. right. exists c. split; [congruence|]. split; assumption.
      * right. exists u', c. tauto.
Qed.

(** The comprehension of [get_recommendations]: it fails on the first
    candidate without id, and otherwise keeps, in order, the candidates
    whose id is a key of [scores], each with the score under its id. *)
Lemma scored_candidates_raise cands scores :
  forallb has_id cands = false ->
  scored_candidates cands scores = Raise (KeyError "id").
Proof.
  induction cands as [|c cands IH]; [discriminate|].
  cbn [forallb scored_candidates]. unfold subscript_id, has_id at 1.
  destruct (book_id c) as [i|]; [|reflexivity].
  cbn. intros Hrest. rewrite (IH Hrest). reflexivity.
Qed.

Lemma scored_candidates_filter cands scores entries :
  scored_candidates cands scores = Ok entries ->
  fst <$> entries
  = filter (fun c => bool_decide (is_Some (book_id c ≫= (scores !!.))))
      cands.
Proof.
  revert entries. induction cands as [|c cands IH]; intros entries.
  - intros [= <-]. reflexivity.
  - intros Heq. cbn [scored_candidates] in Heq. unfold subscript_id in Heq.
    destruct (book_id c) as [i|] eqn:Hi; [|discriminate Heq]. cbn in Heq.
    destruct (scored_candidates cands scores) as [tail|e]; [|discriminate Heq].
    cbn in Heq. specialize (IH tail eq_refl). rewrite filter_cons.
    destruct (scores !! i) as [s|] eqn:Hs; injection Heq as <-.
    + rewrite decide_True.
      * rewrite fmap_cons, IH. reflexivity.
      * apply bool_decide_pack. rewrite Hi. cbn. rewrite Hs. eauto.
    + rewrite decide_False; [exact IH|].
      intros Hd%bool_decide_unpack. rewrite Hi in Hd. cbn in Hd. rewrite Hs in Hd.
      destruct Hd; discriminate.
Qed.

Lemma filter_agree {A : Type} (P Q : A -> Prop)
    `{!forall x, Decision (P x)} `{!forall x, Decision (Q x)} (l : list A) :
  Forall (fun x => P x <-> Q x) l -> filter P l = filter Q l.
Proof.
  induction 1 as [|x l Hx _ IH]; [reflexivity|].
  rewrite !filter_cons, IH. destruct (decide (P x)), (decide (Q x)); tauto.
Qed.

Lemma scored_candidates_have_ids cands scores entries :
  scored_candidates cands scores = Ok entries ->
  Forall (fun c => has_id c = true) cands.
Proof.
  intros Heq. apply forallb_has_id.
  destruct (forallb has_id cands) eqn:Hall; [reflexivity|].
  rewrite (scored_candidates_raise cands scores Hall) in Heq. discriminate.
Qed.

Lemma eligible_keys self us cands scores :
  Forall (fun c => has_id c = true) cands ->
  accumulated_scores self us cands = Ok scores ->
  filter (fun c => bool_decide (is_Some (book_id c ≫= (scores !!.))))
    cands
  = eligible us cands.
Proof.
  intros Hids Hacc. unfold eligible. apply filter_agree.
  rewrite Forall_forall in Hids. apply Forall_forall. intros c Hc.
  destruct (has_id_Some c (Hids c Hc)) as [i Hi].
  rewrite bool_decide_spec, Hi. cbn [mbind option_bind].
  unfold accumulated_scores in Hacc.
  pose proof (accumulate_dom self _ cands us ∅ scores Hacc) as Hdom.
  rewrite Is_true_true, existsb_exists. split.
  - intros Hs.
    apply Hdom in Hs as [Hs|(u & c' & Hu & _ & Hc' & Hne)].
    + rewrite lookup_empty in Hs. destruct Hs; discriminate.
    + exists u. split; [apply list_elem_of_In, Hu|].
      unfold same_id. apply negb_true_iff, bool_decide_eq_false. congruence.
  - intros (u & Hu & Hne). apply Hdom. right.
    exists u, c. split; [apply list_elem_of_In, Hu|]. split; [exact Hc|].
    split; [exact Hi|].
    unfold same_id in Hne. apply negb_true_iff, bool_decide_eq_false in Hne. exact Hne.
Qed.

(** The outcome of [get_recommendations], read off the eligible
    candidates. *)
Lemma get_recommendations_eligible self us cands (n : Z) (out : list (Book R)) :
  get_recommendations self us cands n = Ok out ->
  Forall (fun c => has_id c = true) cands
  /\ exists entries,
       fst <$> entries = eligible us cands
       /\ out = fst <$> slice_to n (sort_reverse snd entries).
Proof.
  unfold get_recommendations.
  destruct (accumulated_scores self us cands) as [scores|e] eqn:Hacc; cbn; [|discriminate].
  destruct (scored_candidates cands scores) as [entries|e] eqn:Hsc; cbn; [|discriminate].
  intros [= <-].
  pose proof (scored_candidates_have_ids _ _ _ Hsc) as Hids.
  split; [exact Hids|]. exists entries. split; [|reflexivity].
  rewrite (scored_candidates_filter _ _ _ Hsc). apply (eligible_keys self), Hacc. exact Hids.
Qed.

Lemma get_recommendations_outcome self us cands (n : Z) :
  if forallb has_id cands
  then exists out, get_recommendations self us cands n = Ok out
  else get_recommendations self us cands n = Raise (KeyError "id").
Proof.
  destruct (forallb has_id cands) eqn:Hall.
  - apply forallb_has_id in Hall.
    destruct (accumulate_ok self (length us) cands us ∅ Hall) as [scores Hacc].
    destruct (scored_candidates_ok cands scores Hall) as (entries & Hsc & _).
    eexists. apply (get_recommendations_unfold self us cands n scores entries Hacc Hsc).
  - unfold get_recommendations.
    destruct (accumulated_scores self us cands) as [scores|e] eqn:Hacc; cbn.
    + rewrite (scored_candidates_raise cands scores Hall). reflexivity.
    + apply accumulate_raise in Hacc. congruence.
Qed.

Lemma slice_to_sublist {A : Type} (n : Z) (l : list A) : slice_to n l `sublist_of` l.
Proof. unfold slice_to. apply sublist_take. Qed.

Lemma recommendations_of_eligible self us cands (n : Z) (out : list (Book R)) :
  get_recommendations self us cands n = Ok out ->
  out ⊆+ eligible us cands
  /\ ((0 <= n)%Z -> length out = Z.to_nat n `min` length (eligible us cands)).
Proof.
  intros Hout. apply get_recommendations_eligible in Hout as (_ & entries & He & ->).
  rewrite <- He. split.
  - apply fmap_submseteq. etrans; [apply sublist_submseteq, slice_to_sublist|].
    rewrite sort_reverse_perm. reflexivity.
  - intros Hn. rewrite !length_fmap, slice_to_nonneg by exact Hn.
    rewrite length_take, sort_reverse_length. reflexivity.
Qed.

Lemma eligible_all us cands (u1 u2 : Book R) :
  u1 ∈ us -> u2 ∈ us -> book_id u1 <> book_id u2 -> eligible us cands = cands.
Proof.
  intros H1 H2 Hne. unfold eligible.
  induction cands as [|c cands IH]; [reflexivity|].
  rewrite filter_cons_True, IH; [reflexivity|].
  apply Is_true_true, existsb_exists.
  destruct (decide (book_id c = book_id u1)) as [E|E].
  - exists u2. split; [apply list_elem_of_In, H2|].
    unfold same_id. apply negb_true_iff, bool_decide_eq_false. congruence.
  - exists u1. split; [apply list_elem_of_In, H1|].
    unfold same_id. apply negb_true_iff, bool_decide_eq_false. exact E.
Qed.

Lemma eligible_other_id us cands (i : option string) (c : Book R) :
  Forall (fun u => book_id u = i) us -> c ∈ eligible us cands -> book_id c <> i.
Proof.
  rewrite Forall_forall. intros Hus. unfold eligible. rewrite list_elem_of_filter.
  intros [Hex _]. apply Is_true_true, existsb_exists in Hex as (u & Hu & Hne).
  apply list_elem_of_In in Hu. rewrite <- (Hus u Hu).
  unfold same_id in Hne. apply negb_true_iff, bool_decide_eq_false in Hne. exact Hne.
Qed.

(** With candidates that carry pairwise distinct ids, what both loops
    store under the id of a candidate is its [running_score]. *)
Lemma accumulate_running_score self (k : nat) cands :
  Forall (fun c => has_id c = true) cands ->
  NoDup (book_id <$> cands) ->
  forall us scores,
  exists scores',
    accumulate self k us cands scores = Ok scores'
    /\ forall c i, c ∈ cands -> book_id c = Some i ->
         scores' !! i = running_score self k us c (scores !! i).
Proof.
  intros Hids Hnd us. induction us as [|u us IH]; intros scores.
  - exists scores. split; reflexivity.
  - cbn [accumulate]. rewrite find_similar_books_all.
    destruct (add_scores_once k _ scores (ranked_have_ids self u cands Hids)
                (ranked_ids_distinct self u cands Hnd)) as (s1 & -> & Hin & Hout).
    cbn. destruct (IH s1) as (scores' & -> & Hrun).
    exists scores'. split; [reflexivity|]. intros c i Hc Hi.
    rewrite (Hrun c i Hc Hi). unfold running_score. cbn [foldl]. f_equal.
    unfold same_id. destruct (decide (book_id c = book_id u)) as [E|E].
    + rewrite bool_decide_eq_true_2 by exact E. apply Hout.
      intros e He Hei. apply sort_reverse_elem_of, elem_of_similarities in He as [He _].
      apply elem_of_other_candidates in He as [_ He]. congruence.
    + rewrite bool_decide_eq_false_2 by exact E.
      apply (Hin (c, combined_similarity self u c) i); [|exact Hi].
      apply sort_reverse_elem_of, elem_of_similarities. split; [|reflexivity].
      apply elem_of_other_candidates. split; assumption.
Qed.
End RecommendationMore.

(** X4: the errors of [get_recommendations], for any history and any
    count: it fails exactly when some candidate carries no id, with the
    [KeyError] of [book["id"]], and returns a list otherwise. *)
Theorem get_recommendations_errors {R : Type} `{Number R}
    (self : BookSimilarityEngine R) (us cands : list (Book R)) (n : Z) :
  if forallb has_id cands
  then exists out, get_recommendations self us cands n = Ok out
  else get_recommendations self us cands n = Raise (KeyError "id").
Proof.
  destruct (forallb has_id cands) eqn:Hall.
  - apply forallb_has_id in Hall.
    destruct (accumulate_ok self (length us) cands us ∅ Hall) as [scores Hacc].
    destruct (scored_candidates_ok cands scores Hall) as (entries & Hsc & _).
    eexists. apply (get_recommendations_unfold self us cands n scores entries Hacc Hsc).
  - unfold get_recommendations.
    destruct (accumulated_scores self us cands) as [scores|e] eqn:Hacc; cbn.
    + rewrite (scored_candidates_raise cands scores Hall). reflexivity.
    + apply accumulate_raise in Hacc. congruence.
Qed.


(** X5: what [get_recommendations] returns.  The books of the outcome are
    drawn, each at most as often as it is listed, from the candidates whose
    id differs from that of some history book; for a count that is not
    negative there are as many as the count allows; and a count of at least
    the number of candidates returns all of them, reordered. *)
Theorem recommendations_are_eligible {R : Type} `{Number R}
    (self : BookSimilarityEngine R) (us cands : list (Book R)) (n : Z)
    (out : list (Book R)) :
  get_recommendations self us cands n = Ok out ->
  out ⊆+ eligible us cands
  /\ ((0 <= n)%Z -> length out = Z.to_nat n `min` length (eligible us cands))
  /\ ((Z.of_nat (length cands) <= n)%Z -> out ≡ₚ eligible us cands).
Proof.
  intros Hout. destruct (recommendations_of_eligible self us cands n out Hout) as [Hsub Hlen].
  split; [exact Hsub|]. split; [exact Hlen|]. intros Hn.
  apply submseteq_length_Permutation; [exact Hsub|].
  rewrite Hlen by lia.
  pose proof (length_filter (fun c => existsb (fun u => negb (same_id c u)) us) cands).
  unfold eligible. lia.
Qed.


Lemma recommendations_are_eligible_witness :
  [Sample.near; Sample.far]
  ⊆+ eligible [Sample.read] [Sample.near; Sample.far; Sample.read].
Proof.
  apply (recommendations_are_eligible Sample.engine
           [Sample.read] [Sample.near; Sample.far; Sample.read] 5).
  vm_compute. reflexivity.
Defined.


(** X6: a history with two books of different ids excludes no candidate:
    a count of at least the number of candidates returns every candidate,
    the books of the history among them. *)
Theorem history_books_recommended {R : Type} `{Number R}
    (self : BookSimilarityEngine R) (us cands : list (Book R)) (n : Z)
    (out : list (Book R)) (u1 u2 : Book R) :
  u1 ∈ us -> u2 ∈ us -> book_id u1 <> book_id u2 ->
  get_recommendations self us cands n = Ok out ->
  ((0 <= n)%Z -> length out = Z.to_nat n `min` length cands)
  /\ ((Z.of_nat (length cands) <= n)%Z ->
        out ≡ₚ cands /\ forall u, u ∈ us -> u ∈ cands -> u ∈ out).
Proof.
  intros H1 H2 Hne Hout.
  destruct (recommendations_of_eligible self us cands n out Hout) as [Hsub Hlen].
  rewrite (eligible_all us cands u1 u2 H1 H2 Hne) in Hsub, Hlen.
  split; [exact Hlen|]. intros Hn.
  assert (Hp : out ≡ₚ cands).
  { apply submseteq_length_Permutation; [exact Hsub|]. rewrite Hlen by lia. lia. }
  split; [exact Hp|]. intros u _ Hu. rewrite Hp. exact Hu.
Qed.


Lemma history_books_recommended_witness :
  [Sample.far; Sample.near; Sample.read] ≡ₚ [Sample.near; Sample.far; Sample.read].
Proof.
  apply (history_books_recommended Sample.engine [Sample.read; Sample.near]
           [Sample.near; Sample.far; Sample.read] 3 _ Sample.read Sample.near).
  - left.
  - right. left.
  - discriminate.
  - vm_compute. reflexivity.
  - vm_compute. discriminate.
Defined.


(** X7: when all books of the history carry the same id, no book with this
    id is recommended; in particular the only book of a history is never
    recommended back. *)
Theorem single_id_history_excluded {R : Type} `{Number R}
    (self : BookSimilarityEngine R) (us cands : list (Book R)) (n : Z)
    (out : list (Book R)) (i : option string) :
  Forall (fun u => book_id u = i) us ->
  get_recommendations self us cands n = Ok out ->
  Forall (fun b => book_id b <> i) out.
Proof.
  intros Hus Hout.
  destruct (recommendations_of_eligible self us cands n out Hout) as [Hsub _].
  apply Forall_forall. intros b Hb.
  apply (eligible_other_id us cands i b Hus).
  eapply elem_of_submseteq; [exact Hb|exact Hsub].
Qed.


Lemma single_id_history_excluded_witness :
  Forall (fun b : Book float => book_id b <> Some "1") [Sample.near; Sample.far].
Proof.
  apply (single_id_history_excluded Sample.engine [Sample.read]
           [Sample.near; Sample.far; Sample.read] 5).
  - repeat constructor.
  - vm_compute. reflexivity.
Defined.


(** X8: the score of a candidate.  For any history, when the candidates
    carry pairwise distinct ids, the dictionary holds under the id of each
    candidate its [running_score]: the combined similarities with the
    history books of another id, each divided by the size of the history,
    added up in the order of the history; the order in which
    [find_similar_books] ranks the candidates plays no role. *)
Theorem recommendation_scores {R : Type} `{Number R}
    (self : BookSimilarityEngine R) (us cands : list (Book R)) :
  Forall (fun c => has_id c = true) cands ->
  NoDup (book_id <$> cands) ->
  exists scores : gmap string R,
    accumulated_scores self us cands = Ok scores
    /\ forall c i, c ∈ cands -> book_id c = Some i ->
         scores !! i = running_score self (length us) us c None.
Proof.
  intros Hids Hnd.
  destruct (accumulate_running_score self (length us) cands Hids Hnd us ∅)
    as (scores & Hacc & Hrun).
  exists scores. split; [exact Hacc|]. intros c i Hc Hi.
  rewrite (Hrun c i Hc Hi), lookup_empty. reflexivity.
Qed.


Lemma recommendation_scores_witness :
  exists scores : gmap string float,
    accumulated_scores Sample.engine [Sample.read; Sample.near]
      [Sample.near; Sample.far; Sample.read] = Ok scores
    /\ scores !! "3"
       = running_score Sample.engine 2 [Sample.read; Sample.near] Sample.far None.
Proof.
  destruct (recommendation_scores Sample.engine [Sample.read; Sample.near]
              [Sample.near; Sample.far; Sample.read]) as (scores & Hacc & Hrun).
  - repeat constructor.
  - apply (bool_decide_unpack _). vm_compute. exact I.
  - exists scores. split; [exact Hacc|].
    apply (Hrun Sample.far "3"); [right; left|reflexivity].
Defined.


(** X9: asking for fewer results gives a prefix of the longer answer, in
    both entry points; the count plays no role in whether
    [get_recommendations] fails. *)
Theorem fewer_results_are_a_prefix {R : Type} `{Number R}
    (self : BookSimilarityEngine R) (target : Book R)
    (us cands : list (Book R)) (n m : Z) :
  (0 <= n <= m)%Z ->
  find_similar_books self target cands n
  = take (Z.to_nat n) (find_similar_books self target cands m)
  /\ get_recommendations self us cands n
     = (out ← get_recommendations self us cands m; Ok (take (Z.to_nat n) out)).
Proof.
  intros Hnm. split.
  - unfold find_similar_books. rewrite !slice_to_nonneg by lia.
    rewrite take_take. f_equal. lia.
  - unfold get_recommendations.
    destruct (accumulated_scores self us cands) as [scores|e]; [|reflexivity]. cbn.
    destruct (scored_candidates cands scores) as [entries|e]; [|reflexivity]. cbn.
    rewrite !slice_to_nonneg by lia. rewrite <- fmap_take, take_take.
    do 3 f_equal. lia.
Qed.


Lemma fewer_results_are_a_prefix_witness :
  find_similar_books Sample.engine Sample.read [Sample.near; Sample.far] 1
  = take 1 (find_similar_books Sample.engine Sample.read [Sample.near; Sample.far] 2).
Proof.
  apply (fewer_results_are_a_prefix Sample.engine Sample.read [] [Sample.near; Sample.far] 1 2).
  lia.
Defined.


(** ** The scores in the documented domains *)

(** X10: in binary64, for books in the documented domains and a vectorizer
    whose similarities lie between [0.0] and [1.0], the combined similarity
    [content * 0.6 + metadata * 0.4] lies between [0.0] and [1.0] and is
    not NaN, although the metadata similarity can be [1.0000000000000002]:
    [0.6 + 0.40000000000000013] is half-way between [1.0] and the next
    float, and is rounded to [1.0]. *)
Theorem combined_similarity_range
    (self : BookSimilarityEngine float) (a b : Book float) :
  unit_vectorizer self -> in_domain a -> in_domain b ->
  float_between 0 1 (combined_similarity self a b)
  /\ PrimFloat.is_nan (combined_similarity self a b) = false.
Proof.
  intros Hunit Ha Hb.
  pose proof (combined_similarity_below self a b Hunit Ha Hb) as Hbelow.
  split; [apply below_between; [reflexivity|exact Hbelow]|].
  destruct Hbelow as [Hn _]. 
  destruct (PrimFloat.is_nan (combined_similarity self a b)) eqn:Hnan; [|reflexivity].
  unfold Prim2SF in Hn. rewrite Hnan in Hn. discriminate Hn.
Qed.

Lemma sample_unit_vectorizer : unit_vectorizer Sample.engine.
Proof.
  intros text1 text2 v. cbn [tfidf_cosine Sample.engine]. unfold Sample.vectorize.
  destruct (_ && _); [discriminate|].
  destruct (_ || _); [intros [= <-]; split; reflexivity|].
  destruct (bool_decide _); intros [= <-]; split; reflexivity.
Qed.

Lemma sample_plain_in_domain (i : string) (rating : float) (pages : Z) :
  float_between 0 5 rating -> (0 <= pages < 2 ^ 53)%Z ->
  in_domain (Sample.plain i rating pages).
Proof.
  intros Hr Hp. split; [|split; [|split]].
  - intros r [= <-]. exact Hr.
  - intros p [= <-]. exact Hp.
  - cbn. lia.
  - cbn. lia.
Qed.

Lemma combined_similarity_range_witness :
  float_between 0 1
    (combined_similarity Sample.engine
       (Sample.trilogy "1" 4.5%float) (Sample.trilogy "2" 4.5%float)).
Proof.
  apply (combined_similarity_range Sample.engine
           (Sample.trilogy "1" 4.5%float) (Sample.trilogy "2" 4.5%float)).
  - exact sample_unit_vectorizer.
  - apply sample_in_domain.
  - apply sample_in_domain.
Defined.

(** X11: for books in the documented domains and such a vectorizer, the
    scores that [find_similar_books] sorts are ordered consistently by [<],
    so that whatever the count, the pairs it returns are in descending
    order of their scores, which lie between [0.0] and [1.0]. *)
Theorem find_similar_books_in_domain
    (self : BookSimilarityEngine float) (target : Book float)
    (cands : list (Book float)) (n : Z) :
  unit_vectorizer self -> in_domain target -> Forall in_domain cands ->
  weakly_ordered snd (similarities self target cands)
  /\ Forall (fun e => float_between 0 1 e.2) (find_similar_books self target cands n)
  /\ descending snd (find_similar_books self target cands n).
Proof.
  intros Hunit Ht Hc. rewrite Forall_forall in Hc.
  assert (Hall : forall e, e ∈ similarities self target cands ->
            float_between 0 1 e.2 /\ PrimFloat.is_nan e.2 = false).
  { intros e He. apply elem_of_similarities in He as [Hin ->].
    apply elem_of_other_candidates in Hin as [Hin _].
    apply combined_similarity_range; [exact Hunit|exact Ht|apply Hc, Hin]. }
  assert (Hord : weakly_ordered snd (similarities self target cands)).
  { apply float_weakly_ordered, Forall_forall. intros e He. apply Hall, He. }
  split; [exact Hord|]. split.
  - apply Forall_forall. intros e He.
    apply elem_of_find_similar_books in He. apply Hall, He.
  - unfold find_similar_books, slice_to. apply descending_take.
    apply sort_reverse_descending; [exact _|exact Hord].
Qed.

Lemma find_similar_books_in_domain_witness :
  descending snd
    (find_similar_books Sample.engine Sample.read
       [Sample.far; Sample.trilogy "5" 4.5%float; Sample.near] 2).
Proof.
  apply (find_similar_books_in_domain Sample.engine Sample.read).
  - exact sample_unit_vectorizer.
  - apply sample_plain_in_domain; [split; reflexivity|].
    change (2 ^ 53)%Z with 9007199254740992%Z. lia.
  - repeat apply List.Forall_cons; try apply List.Forall_nil;
      try apply sample_in_domain;
      (apply sample_plain_in_domain; [split; reflexivity|];
       change (2 ^ 53)%Z with 9007199254740992%Z; lia).
Defined.

(** X12: in binary64 the metadata similarity does not depend on the order
    of the two books: the sets, [max] and [|x - y|] are symmetric, on
    [int]s and on floats. *)
Theorem metadata_similarity_symmetric (a b : Book float) :
  calculate_metadata_similarity a b = calculate_metadata_similarity b a.
Proof. apply metadata_similarity_comm. Qed.
